(** * Mail retrieval core of [src/app/api/email/inbox/route.ts]

    A shallow embedding of the hand-written POP3 session ([fetchPOP3Emails]),
    of the MIME body decoder ([parseMIMEBody]) and of the header helpers they
    share with the IMAP path ([fetchIMAPEmails]), followed by the properties
    the specification states about them.

    Conventions.
    - A JavaScript string is a [string]: a sequence of code units, here the
      code units 0..255.
    - Regular-expression literals are transcribed one to one into the small
      abstract syntax of [Regex] and run by a backtracking matcher with the
      priorities of the JavaScript matcher (leftmost start, greedy or lazy
      quantifiers in order).
    - Services of the Node runtime that are not code of the repository
      (clock, random numbers, [Buffer], [Date]) are fields of [Runtime]. *)

From Stdlib Require Import String Ascii List Bool Arith NArith ZArith Lia.
From Stdlib Require Import DecimalString Sorted.
From Stdlib Require Import DecimalPos DecimalN.
Import ListNotations.
Local Open Scope string_scope.

(* Keep a comparison with an unknown character folded under [simpl]. *)
Arguments Ascii.eqb : simpl nomatch.

(* ================================================================== *)
(** ** JavaScript string primitives *)

Module JS.

Definition CR : ascii := "013"%char.
Definition LF : ascii := "010"%char.
Definition CRLF : string := String CR (String LF "").
Definition LFs : string := String LF "".
(** The double quote, written [\x22] where a comment quotes a regular
    expression of the source (there a blank also separates a star from a
    closing parenthesis). *)
Definition DQUOTE : ascii := "034"%char.

Definition code (c : ascii) : N := N_of_ascii c.

Definition between (lo hi : N) (c : ascii) : bool :=
  (lo <=? code c)%N && (code c <=? hi)%N.

(** [WhiteSpace] and [LineTerminator] code units below 256:
    TAB, LF, VT, FF, CR, SP and NBSP. This is the set of [\s] and of [trim]. *)
Definition isSpace (c : ascii) : bool :=
  between 9 13 c || (code c =? 32)%N || (code c =? 160)%N.

(** [LineTerminator] code units below 256; [.] excludes them and the
    multiline [^] and [$] look for them. *)
Definition isLineTerminator (c : ascii) : bool :=
  (code c =? 10)%N || (code c =? 13)%N.

Definition isDigit (c : ascii) : bool := between 48 57 c.

(** Simple case mappings on the code units 0..255. *)
Definition isUpper (c : ascii) : bool :=
  between 65 90 c || between 192 214 c || between 216 222 c.
Definition isLower (c : ascii) : bool :=
  between 97 122 c || between 224 246 c || between 248 254 c.
Definition lowerChar (c : ascii) : ascii :=
  if isUpper c then ascii_of_N (code c + 32) else c.
Definition upperChar (c : ascii) : ascii :=
  if isLower c then ascii_of_N (code c - 32) else c.

Fixpoint toLowerCase (s : string) : string :=
  match s with
  | "" => ""
  | String c s' => String (lowerChar c) (toLowerCase s')
  end.

Definition isEmpty (s : string) : bool :=
  match s with "" => true | _ => false end.

(** Truthiness of a string: [if (s)], [!s], [s || d]. *)
Definition truthy (s : string) : bool := negb (isEmpty s).
Definition orElse (s d : string) : string := if truthy s then s else d.

Fixpoint trimStart (s : string) : string :=
  match s with
  | "" => ""
  | String c s' => if isSpace c then trimStart s' else s
  end.

Fixpoint trimEnd (s : string) : string :=
  match s with
  | "" => ""
  | String c s' =>
      let t := trimEnd s' in
      if isEmpty t && isSpace c then "" else String c t
  end.

Definition trim (s : string) : string := trimEnd (trimStart s).

(** [s.substring(0, n)] and [s.substring(n)]. *)
Fixpoint take (n : nat) (s : string) : string :=
  match n, s with
  | S n', String c s' => String c (take n' s')
  | _, _ => ""
  end.

Fixpoint drop (n : nat) (s : string) : string :=
  match n, s with
  | S n', String _ s' => drop n' s'
  | _, _ => s
  end.

Fixpoint startsWith (p s : string) : bool :=
  match p with
  | "" => true
  | String a p' =>
      match s with
      | String c s' => Ascii.eqb a c && startsWith p' s'
      | "" => false
      end
  end.

(** [s.indexOf(p)]; [None] stands for -1. *)
Fixpoint indexOf (p s : string) : option nat :=
  if startsWith p s then Some 0
  else match s with
       | "" => None
       | String _ s' => option_map S (indexOf p s')
       end.

Definition includes (p s : string) : bool :=
  match indexOf p s with Some _ => true | None => false end.

(** [s.split(sep)] for a separator that is a non-empty literal. [skip]
    counts the characters of a separator occurrence still to be passed. *)
Fixpoint split_from (sep : string) (skip : nat) (cur s : string) : list string :=
  match s with
  | "" => [cur]
  | String c s' =>
      match skip with
      | S k => split_from sep k cur s'
      | O =>
          if startsWith sep s
          then cur :: split_from sep (String.length sep - 1) "" s'
          else split_from sep 0 (cur ++ String c "") s'
      end
  end.

Definition split (sep s : string) : list string := split_from sep 0 "" s.

Fixpoint join (sep : string) (l : list string) : string :=
  match l with
  | [] => ""
  | [x] => x
  | x :: l' => x ++ sep ++ join sep l'
  end.

(** Template-literal rendering of a non-negative integer. The rendering of
    a JavaScript number is this one below 2^53, where every integer is a
    number of its own; the theorems on the entries of a LIST response carry
    that bound. *)
Definition showN (n : N) : string := NilZero.string_of_uint (N.to_uint n).
Definition showNat (n : nat) : string := showN (N.of_nat n).

(** [parseInt] on a run of decimal digits. The JavaScript number is this
    value below 2^53 and the nearest double from there on; the theorems on
    the entries of a LIST response carry that bound. *)
Fixpoint parseDigits (acc : N) (s : string) : N :=
  match s with
  | "" => acc
  | String c s' => parseDigits (acc * 10 + (code c - 48))%N s'
  end.
Definition parseInt (s : string) : N := parseDigits 0 s.

Definition hexVal (c : ascii) : N :=
  if isDigit c then (code c - 48)%N
  else if between 65 70 c then (code c - 55)%N
  else (code c - 87)%N.

(** [String.fromCharCode(parseInt(hex, 16))] for two hexadecimal digits. *)
Definition fromHex2 (hex : string) : string :=
  match hex with
  | String a (String b "") => String (ascii_of_N (hexVal a * 16 + hexVal b)) ""
  | _ => ""
  end.

End JS.

(* ================================================================== *)
(** ** Regular expressions *)

Module Regex.
Import JS.

Inductive item :=
| Ch (c : ascii)          (* a character of a class *)
| Rng (lo hi : ascii)     (* lo-hi *)
| Digit                   (* \d *)
| Space                   (* \s *)
| NonSpace.               (* \S *)

Inductive cset :=
| Any                     (* .      *)
| Of (items : list item)  (* [...]  *)
| NotOf (items : list item). (* [^...] *)

(** Quantifiers are applied to one-character atoms only, which is all the
    source uses. *)
Inductive re :=
| Lit (s : string)        (* literal characters *)
| One (c : cset)
| Star (c : cset)         (* c*  *)
| StarLazy (c : cset)     (* c*? *)
| Seq (a b : re)
| Opt (a : re)            (* a?  *)
| Grp (i : nat) (a : re)  (* the i-th capturing group *)
| Bol                     (* ^ *)
| Eol.                    (* $ *)

Definition Plus (c : cset) : re := Seq (One c) (Star c).

Record flags := { ignoreCase : bool; multiline : bool }.
Definition noFlags := {| ignoreCase := false; multiline := false |}.
Definition flag_i := {| ignoreCase := true; multiline := false |}.
Definition flag_im := {| ignoreCase := true; multiline := true |}.

Definition caps := list (nat * string).

Fixpoint group (i : nat) (cs : caps) : option string :=
  match cs with
  | [] => None
  | (j, s) :: cs' => if Nat.eqb i j then Some s else group i cs'
  end.

Definition itemHas (it : item) (c : ascii) : bool :=
  match it with
  | Ch a => Ascii.eqb a c
  | Rng lo hi => between (code lo) (code hi) c
  | Digit => isDigit c
  | Space => isSpace c
  | NonSpace => negb (isSpace c)
  end.

Section Matcher.
Variable f : flags.

(** Under [/i] two characters are the same when their canonical forms are. *)
Definition sameChar (a c : ascii) : bool :=
  if ignoreCase f then Ascii.eqb (upperChar a) (upperChar c) else Ascii.eqb a c.

Definition itemMatches (it : item) (c : ascii) : bool :=
  itemHas it c
  || (ignoreCase f && (itemHas it (upperChar c) || itemHas it (lowerChar c))).

Definition mem (cl : cset) (c : ascii) : bool :=
  match cl with
  | Any => negb (isLineTerminator c)
  | Of its => existsb (fun it => itemMatches it c) its
  | NotOf its => negb (existsb (fun it => itemMatches it c) its)
  end.

Definition atBol (prev : option ascii) : bool :=
  match prev with
  | None => true
  | Some c => multiline f && isLineTerminator c
  end.

Definition atEol (s : string) : bool :=
  match s with
  | "" => true
  | String c _ => multiline f && isLineTerminator c
  end.

Section Run.
Variable X : Type.

(** A continuation receives the character before the position, the rest of
    the input and the captures made so far. *)
Definition cont := option ascii -> string -> caps -> option X.

Fixpoint lit (p : string) (k : cont) (prev : option ascii) (s : string)
    (cs : caps) : option X :=
  match p with
  | "" => k prev s cs
  | String a p' =>
      match s with
      | String c s' => if sameChar a c then lit p' k (Some c) s' cs else None
      | "" => None
      end
  end.

Fixpoint starGreedy (cl : cset) (k : cont) (prev : option ascii) (s : string)
    (cs : caps) : option X :=
  match s with
  | String c s' =>
      if mem cl c then
        match starGreedy cl k (Some c) s' cs with
        | Some x => Some x
        | None => k prev s cs
        end
      else k prev s cs
  | "" => k prev s cs
  end.

Fixpoint starLazy (cl : cset) (k : cont) (prev : option ascii) (s : string)
    (cs : caps) : option X :=
  match k prev s cs with
  | Some x => Some x
  | None =>
      match s with
      | String c s' => if mem cl c then starLazy cl k (Some c) s' cs else None
      | "" => None
      end
  end.

Fixpoint run (r : re) (k : cont) : cont :=
  match r with
  | Lit p => lit p k
  | One cl => fun prev s cs =>
      match s with
      | String c s' => if mem cl c then k (Some c) s' cs else None
      | "" => None
      end
  | Star cl => starGreedy cl k
  | StarLazy cl => starLazy cl k
  | Seq a b => run a (run b k)
  | Opt a => fun prev s cs =>
      match run a k prev s cs with
      | Some x => Some x
      | None => k prev s cs
      end
  | Grp i a => fun prev s cs =>
      run a (fun prev' s' cs' =>
               k prev' s' ((i, take (String.length s - String.length s') s) :: cs'))
          prev s cs
  | Bol => fun prev s cs => if atBol prev then k prev s cs else None
  | Eol => fun prev s cs => if atEol s then k prev s cs else None
  end.

End Run.

(** A match attempt at one position: the rest of the input after the match
    and the captures. *)
Definition matchHere (r : re) (prev : option ascii) (s : string)
    : option (string * caps) :=
  run _ r (fun _ s' cs => Some (s', cs)) prev s [].

Record result := {
  index : nat;        (* where the match starts *)
  whole : string;     (* match[0] *)
  groups : caps       (* match[i] for the groups that took part *)
}.

Fixpoint search (r : re) (prev : option ascii) (s : string) (i : nat)
    : option result :=
  match matchHere r prev s with
  | Some (rest, cs) =>
      Some {| index := i;
              whole := take (String.length s - String.length rest) s;
              groups := cs |}
  | None =>
      match s with
      | "" => None
      | String c s' => search r (Some c) s' (S i)
      end
  end.

(** [s.match(r)] for a regular expression without the [g] flag. *)
Definition exec (r : re) (s : string) : option result := search r None s 0.

Fixpoint lastChar (prev : option ascii) (s : string) : option ascii :=
  match s with
  | "" => prev
  | String c s' => lastChar (Some c) s'
  end.

(** [s.replace(r, fn)] for a regular expression with the [g] flag: every
    match, left to right, is replaced by [fn match captures]; after an empty
    match the scan moves on by one character. *)
Fixpoint replaceFrom (fuel : nat) (r : re) (fn : string -> caps -> string)
    (prev : option ascii) (s : string) : string :=
  match fuel with
  | O => s
  | S fuel' =>
      match matchHere r prev s with
      | Some (rest, cs) =>
          let m := take (String.length s - String.length rest) s in
          if isEmpty m then
            match s with
            | "" => fn m cs
            | String c s' => fn m cs ++ String c (replaceFrom fuel' r fn (Some c) s')
            end
          else fn m cs ++ replaceFrom fuel' r fn (lastChar prev m) rest
      | None =>
          match s with
          | "" => ""
          | String c s' => String c (replaceFrom fuel' r fn (Some c) s')
          end
      end
  end.

Definition replaceAllWith (r : re) (fn : string -> caps -> string) (s : string)
    : string :=
  replaceFrom (S (String.length s)) r fn None s.

Definition replaceAll (r : re) (by_ : string) (s : string) : string :=
  replaceAllWith r (fun _ _ => by_) s.

End Matcher.

(** [match[i]] of a successful match, [undefined] rendered as [None]. *)
Definition capture (i : nat) (m : result) : option string := group i (groups m).

(** [match[i]] of a group that always takes part in the match. *)
Definition capture1 (i : nat) (m : result) : string :=
  match capture i m with Some s => s | None => "" end.

End Regex.

(* ================================================================== *)
(** ** Runtime services and data model *)

(** Built-ins of Node that the code calls. The clock and the random
    generator are read through a counter: [Date_now rt n] is the value of
    the [n]-th reading. *)
Record Runtime := {
  Date_now : nat -> N;               (* Date.now(), also the time of new Date() *)
  Math_random36 : nat -> string;     (* Math.random().toString(36) *)
  toISOString : Z -> string;         (* new Date(t).toISOString() *)
  Date_parse : string -> option Z;   (* time value of new Date(s); None: Invalid Date *)
  base64_utf8 : string -> string;    (* Buffer.from(s, 'base64').toString('utf-8') *)
  base64_latin1 : string -> string   (* Buffer.from(s, 'base64').toString('latin1') *)
}.

(** [interface Email]; the optional fields the fetch paths never set
    ([to], [folder], [attachments]) are left out. *)
Module Email.
Record t := {
  id : string;
  from : string;
  fromEmail : string;
  toEmail : option string;
  subject : string;
  body : string;
  date : string;
  read : bool;
  starred : bool
}.
End Email.

Inductive Encryption := ssl | tls | none.

(** [interface POP3EmailConfig]. *)
Record POP3EmailConfig := {
  host : string;
  port : N;
  username : string;
  password : string;
  encryption : Encryption
}.

Definition showEncryption (e : Encryption) : string :=
  match e with ssl => "ssl" | tls => "tls" | none => "none" end.

(* ================================================================== *)
(** ** Header helpers and MIME decoding *)

Module Mime.
Import JS Regex.

Definition cat (l : list re) : re := fold_right Seq (Lit "") l.

Definition sp : cset := Of [Space].
Definition q : string := String DQUOTE "".

(** [new Date().toISOString()] *)
Definition nowISO (rt : Runtime) (tick : nat) : string :=
  toISOString rt (Z.of_N (Date_now rt tick)).

(** [generateEmailId]: [`email_${Date.now()}_${Math.random().toString(36).substring(2, 9)}`] *)
Definition generateEmailId (rt : Runtime) (tick : nat) : string :=
  "email_" ++ showN (Date_now rt tick) ++ "_"
  ++ take 7 (drop 2 (Math_random36 rt tick)).

(** [[a-zA-Z0-9._%+-]], [[a-zA-Z0-9.-]] and [[a-zA-Z]] *)
Definition localChars : cset :=
  Of [Rng "a" "z"; Rng "A" "Z"; Rng "0" "9"; Ch "."; Ch "_"; Ch "%"; Ch "+"; Ch "-"].
Definition domainChars : cset :=
  Of [Rng "a" "z"; Rng "A" "Z"; Rng "0" "9"; Ch "."; Ch "-"].
Definition letters : cset := Of [Rng "a" "z"; Rng "A" "Z"].

(** [([a-zA-Z0-9._%+-]+@[a-zA-Z0-9.-]+\.[a-zA-Z]{2,})] as group [i] *)
Definition addrGroup (i : nat) : re :=
  Grp i (cat [Plus localChars; Lit "@"; Plus domainChars; Lit ".";
              One letters; Plus letters]).

(** [/(?:\x22?([^\x22]* )\x22?\s)?<?(addr)>?/i] *)
Definition reNameAddr : re :=
  cat [Opt (cat [Opt (Lit q); Grp 1 (Star (NotOf [Ch DQUOTE])); Opt (Lit q); One sp]);
       Opt (Lit "<"); addrGroup 2; Opt (Lit ">")].

(** [/(addr)/i] *)
Definition reAddr : re := addrGroup 1.

Record address := { name : string; email : string }.

Definition parseEmailAddress (header : string) : address :=
  if isEmpty header then {| name := ""; email := "" |}
  else
    match exec flag_i reNameAddr header with
    | Some m =>
        {| name := orElse (match capture 1 m with
                           | Some s => trim s
                           | None => ""
                           end) (capture1 2 m);
           email := capture1 2 m |}
    | None =>
        match exec flag_i reAddr header with
        | Some m => {| name := capture1 1 m; email := capture1 1 m |}
        | None => {| name := header; email := header |}
        end
    end.

Definition hexDigit : cset := Of [Rng "0" "9"; Rng "A" "F"].

(** [/=([0-9A-F]{2})/gi] replaced by [String.fromCharCode(parseInt(hex, 16))] *)
Definition reHexEscape : re := cat [Lit "="; Grp 1 (cat [One hexDigit; One hexDigit])].

Definition unescapeHex (s : string) : string :=
  replaceAllWith flag_i reHexEscape (fun _ cs =>
    match group 1 cs with Some hex => fromHex2 hex | None => "" end) s.

(** [/=\?UTF-8\?B\?([A-Za-z0-9+/=]+)\?=/gi] *)
Definition reWordB : re :=
  cat [Lit "=?UTF-8?B?";
       Grp 1 (Plus (Of [Rng "A" "Z"; Rng "a" "z"; Rng "0" "9"; Ch "+"; Ch "/"; Ch "="]));
       Lit "?="].

(** [/=\?UTF-8\?Q\?([^?]+)\?=/gi] and [/=\?ISO-8859-1\?Q\?([^?]+)\?=/gi] *)
Definition reWordQ (charset : string) : re :=
  cat [Lit ("=?" ++ charset ++ "?Q?"); Grp 1 (Plus (NotOf [Ch "?"])); Lit "?="].

Definition onGroup1 (fn : string -> string) : string -> caps -> string :=
  fun _ cs => match group 1 cs with Some s => fn s | None => "" end.

Definition decodeMimeWord (rt : Runtime) (str : string) : string :=
  if isEmpty str then ""
  else
    let s1 := replaceAllWith flag_i reWordB (onGroup1 (base64_utf8 rt)) str in
    let s2 := replaceAllWith flag_i (reWordQ "UTF-8") (onGroup1 unescapeHex) s1 in
    replaceAllWith flag_i (reWordQ "ISO-8859-1") (onGroup1 unescapeHex) s2.

Definition decodeQuotedPrintable (str : string) : string :=
  if isEmpty str then ""
  else
    (* Remove soft line breaks *)
    let decoded := replaceAll noFlags (Lit ("=" ++ CRLF)) "" str in
    (* Decode quoted-printable characters *)
    unescapeHex decoded.

Definition decodeBase64 (rt : Runtime) (str charset : string) : string :=
  if isEmpty str then ""
  else
    let cleanStr := replaceAll noFlags (One sp) "" str in
    let cs := toLowerCase charset in
    if String.eqb cs "utf-8" || String.eqb cs "utf8" then base64_utf8 rt cleanStr
    else if String.eqb cs "iso-8859-1" || String.eqb cs "latin1"
         then base64_latin1 rt cleanStr
    else base64_utf8 rt cleanStr.

Definition notEol : cset := NotOf [Ch CR; Ch LF].

(** [/Content-Type:\s*multipart\/[^;]+;\s*boundary=\x22?([^\x22\r\n]+)\x22?/i] *)
Definition reBoundary : re :=
  cat [Lit "Content-Type:"; Star sp; Lit "multipart/"; Plus (NotOf [Ch ";"]);
       Lit ";"; Star sp; Lit "boundary="; Opt (Lit q);
       Grp 1 (Plus (NotOf [Ch DQUOTE; Ch CR; Ch LF])); Opt (Lit q)].

(** [/Content-Type:\s*([^;\r\n]+)/i] *)
Definition reContentType : re :=
  cat [Lit "Content-Type:"; Star sp; Grp 1 (Plus (NotOf [Ch ";"; Ch CR; Ch LF]))].

(** [/Content-Type:[^;]*;\s*charset=[\x22']?([^\x22'\r\n]+)[\x22']?/i] *)
Definition reCharset : re :=
  cat [Lit "Content-Type:"; Star (NotOf [Ch ";"]); Lit ";"; Star sp;
       Lit "charset="; Opt (One (Of [Ch DQUOTE; Ch "'"]));
       Grp 1 (Plus (NotOf [Ch DQUOTE; Ch "'"; Ch CR; Ch LF]));
       Opt (One (Of [Ch DQUOTE; Ch "'"]))].

(** [/Content-Transfer-Encoding:\s*([^\r\n]+)/i] *)
Definition reEncoding : re :=
  cat [Lit "Content-Transfer-Encoding:"; Star sp; Grp 1 (Plus notEol)].

(** The header fields of a part, or of a single-part body, with [dflt] the
    content type assumed when there is none. *)
Definition contentTypeOf (dflt part : string) : string :=
  match exec flag_i reContentType part with
  | Some m => toLowerCase (trim (capture1 1 m))
  | None => dflt
  end.

Definition charsetOf (part : string) : string :=
  match exec flag_i reCharset part with
  | Some m => trim (capture1 1 m)
  | None => "utf-8"
  end.

Definition encodingOf (part : string) : string :=
  match exec flag_i reEncoding part with
  | Some m => toLowerCase (trim (capture1 1 m))
  | None => "7bit"
  end.

(** The text after the first blank line, when there is one past index 0. *)
Definition bodyOf (part : string) : string :=
  match indexOf (CRLF ++ CRLF) part with
  | Some (S n) => drop (S n + 4) part
  | _ => part
  end.

(** Decode based on transfer encoding. *)
Definition decodeBody (rt : Runtime) (part : string) : string :=
  let encoding := encodingOf part in
  let partBody := bodyOf part in
  if String.eqb encoding "base64" then decodeBase64 rt partBody (charsetOf part)
  else if String.eqb encoding "quoted-printable" then decodeQuotedPrintable partBody
  else partBody.

(** The body of the loop over the parts of a multipart message; the
    accumulator is the pair [(textContent, htmlContent)]. *)
Definition partStep (rt : Runtime) (acc : string * string) (part : string)
    : string * string :=
  let '(textContent, htmlContent) := acc in
  if String.eqb (trim part) "--" || String.eqb (trim part) "" then acc
  else
    let contentType := contentTypeOf "" part in
    let decodedPart := decodeBody rt part in
    (* Store text/plain content (preferred) *)
    if includes "text/plain" contentType && negb (truthy textContent)
    then (decodedPart, htmlContent)
    else if includes "text/html" contentType && negb (truthy htmlContent)
    then (textContent, decodedPart)
    else acc.

(** Strip HTML tags and decode entities. *)
Definition stripHtml (htmlContent : string) : string :=
  let s := replaceAll flag_i
             (cat [Lit "<style"; Star (NotOf [Ch ">"]); Lit ">";
                   StarLazy (Of [Space; NonSpace]); Lit "</style>"]) "" htmlContent in
  let s := replaceAll flag_i
             (cat [Lit "<script"; Star (NotOf [Ch ">"]); Lit ">";
                   StarLazy (Of [Space; NonSpace]); Lit "</script>"]) "" s in
  let s := replaceAll noFlags (cat [Lit "<"; Plus (NotOf [Ch ">"]); Lit ">"]) " " s in
  let s := replaceAll noFlags (Lit "&nbsp;") " " s in
  let s := replaceAll noFlags (Lit "&amp;") "&" s in
  let s := replaceAll noFlags (Lit "&lt;") "<" s in
  let s := replaceAll noFlags (Lit "&gt;") ">" s in
  let s := replaceAll noFlags (Lit "&quot;") q s in
  let s := replaceAll noFlags (Plus sp) " " s in
  trim s.

(** Fallback: try to extract any readable text. *)
Definition fallbackText (rawBody : string) : string :=
  let s := replaceAll flag_i (cat [Lit "Content-Type:"; Plus notEol; Lit CRLF]) "" rawBody in
  let s := replaceAll flag_i
             (cat [Lit "Content-Transfer-Encoding:"; Plus notEol; Lit CRLF]) "" s in
  let s := replaceAll flag_i
             (cat [Lit "Content-Disposition:"; Plus notEol; Lit CRLF]) "" s in
  let s := replaceAll flag_i
             (cat [Lit "--"; Plus (Of [Rng "a" "f"; Rng "0" "9"; Ch "-"])]) "" s in
  let s := replaceAll noFlags (Lit (CRLF ++ CRLF)) LFs s in
  trim s.

(** The pair [(textContent, htmlContent)] at the end of the first half of
    [parseMIMEBody]. The boundary is escaped before it is compiled, so the
    split is on the literal text of two dashes followed by the boundary. *)
Definition collectContent (rt : Runtime) (rawBody : string) : string * string :=
  match exec flag_i reBoundary rawBody with
  | Some boundaryMatch =>
      let boundary := trim (capture1 1 boundaryMatch) in
      let parts := split ("--" ++ boundary) rawBody in
      fold_left (partStep rt) parts ("", "")
  | None =>
      (* Single part message *)
      let contentType := contentTypeOf "text/plain" rawBody in
      let body := decodeBody rt rawBody in
      if includes "text/html" contentType then ("", body) else (body, "")
  end.

(** Parse MIME email body and extract clean text content. *)
Definition parseMIMEBody (rt : Runtime) (rawBody : string) : string :=
  if isEmpty rawBody then ""
  else
    let '(textContent, htmlContent) := collectContent rt rawBody in
    (* Prefer plain text, fallback to stripped HTML *)
    if truthy textContent then trim textContent
    else if truthy htmlContent then stripHtml htmlContent
    else fallbackText rawBody.

(** [parseMIMEBody(...).substring(0, 5000) || '(No content)'], the
    expression both retrieval paths store in [body]. *)
Definition bodyField (parsedBody : string) : string :=
  orElse (take 5000 parsedBody) "(No content)".

(** [getHeader] of [parseEmailFromRaw]:
    [new RegExp(`^${name}:\\s*(.+)$`, 'im')] on the header block. *)
Definition getHeader (headers name : string) : string :=
  match exec flag_im (cat [Bol; Lit (name ++ ":"); Star sp; Grp 1 (Plus Any); Eol])
             headers with
  | Some m => trim (capture1 1 m)
  | None => ""
  end.

(** [headers] and [rawBody] of [parseEmailFromRaw]: the block is cut at its
    first blank line, when there is one past index 0. *)
Definition headersOf (raw : string) : string :=
  match indexOf (CRLF ++ CRLF) raw with
  | Some (S n) => take (S n) raw
  | _ => raw
  end.

Definition rawBodyOf (raw : string) : string :=
  match indexOf (CRLF ++ CRLF) raw with
  | Some (S n) => drop (S n + 4) raw
  | _ => ""
  end.

(** The object [parseEmailFromRaw] builds from a raw block, at the [tick]-th
    reading of the clock. *)
Definition recordOfRaw (rt : Runtime) (tick : nat) (raw : string) : Email.t :=
  let headers := headersOf raw in
  let rawBody := rawBodyOf raw in
  let from := getHeader headers "From" in
  let parsed := parseEmailAddress from in
  (* Parse MIME body properly *)
  let parsedBody := parseMIMEBody rt rawBody in
  {| Email.id := generateEmailId rt tick;
     Email.from := orElse (orElse (decodeMimeWord rt (name parsed)) (email parsed))
                          "Unknown";
     Email.fromEmail := orElse (email parsed) "";
     Email.toEmail := None;
     Email.subject := orElse (decodeMimeWord rt (getHeader headers "Subject"))
                             "(No Subject)";
     Email.date := orElse (getHeader headers "Date") (nowISO rt tick);
     Email.body := bodyField parsedBody;
     Email.read := true;
     Email.starred := false |}.

(** [parseEmailFromRaw] of the POP3 path. None of the operations in its
    [try] block throws, so the [catch] branch that returns [null] is never
    taken; the result type keeps it. *)
Definition parseEmailFromRaw (rt : Runtime) (tick : nat) (raw : string)
    : option Email.t :=
  Some (recordOfRaw rt tick raw).

End Mime.

(* ================================================================== *)
(** ** The IMAP path: what [fetchIMAPEmails] does with one message *)

Module Imap.
Import JS Regex Mime.

(** The object [headers], keyed by lower-cased field names. *)
Definition headers := list (string * string).

Fixpoint lookup (k : string) (h : headers) : option string :=
  match h with
  | [] => None
  | (k', v) :: h' => if String.eqb k k' then Some v else lookup k h'
  end.

Definition assign (k v : string) (h : headers) : headers := (k, v) :: h.

(** [headers.k] where it is used as a condition or a string: [undefined]
    and the empty string are both falsy. *)
Definition field (k : string) (h : headers) : string :=
  match lookup k h with Some v => v | None => "" end.

(** [/^([A-Z-]+):\s*(.* )$/i] *)
Definition reHeaderLine : re :=
  cat [Bol; Grp 1 (Plus (Of [Rng "A" "Z"; Ch "-"])); Lit ":"; Star sp;
       Grp 2 (Star Any); Eol].

Record folding := {
  seen : headers;
  currentHeader : string;
  currentValue : string
}.

Definition flush (a : folding) : headers :=
  if truthy (currentHeader a)
  then assign (toLowerCase (currentHeader a)) (trim (currentValue a)) (seen a)
  else seen a.

Definition TAB : string := String "009"%char "".

(** The body of [lines.forEach] in the handler of the header stream. *)
Definition lineStep (a : folding) (line : string) : folding :=
  match exec flag_i reHeaderLine line with
  | Some headerMatch =>
      {| seen := flush a;
         currentHeader := capture1 1 headerMatch;
         currentValue := capture1 2 headerMatch |}
  | None =>
      if startsWith " " line || startsWith TAB line
      then {| seen := seen a;
              currentHeader := currentHeader a;
              currentValue := currentValue a ++ " " ++ trim line |}
      else a
  end.

(** [stream.once('end')] for [info.which === 'HEADER.FIELDS (...)']. *)
Definition headerFields (buffer : string) (h : headers) : headers :=
  flush (fold_left lineStep (split CRLF buffer)
           {| seen := h; currentHeader := ""; currentValue := "" |}).

(** The record a [message] event starts from. *)
Definition newEmail (rt : Runtime) (tick : nat) : Email.t :=
  {| Email.id := generateEmailId rt tick;
     Email.from := "Unknown";
     Email.fromEmail := "";
     Email.toEmail := None;
     Email.subject := "(No Subject)";
     Email.body := "";
     Email.date := nowISO rt tick;
     Email.read := true;
     Email.starred := false |}.

(** [try { email.date = new Date(headers.date).toISOString(); }
     catch { email.date = headers.date; }]: [toISOString] throws a
    [RangeError] on an invalid date. *)
Definition convertDate (rt : Runtime) (value : string) : string :=
  match Date_parse rt value with
  | Some t => toISOString rt t
  | None => value
  end.

(** [msg.once('end')]: the record completed from the headers and the text. *)
Definition messageEnd (rt : Runtime) (h : headers) (bodyBuffer : string)
    (email : Email.t) : Email.t :=
  let parsed := parseEmailAddress (field "from" h) in
  {| Email.id :=
       if truthy (field "message-id" h)
       then replaceAll noFlags (One (Of [Ch "<"; Ch ">"])) "" (field "message-id" h)
       else Email.id email;
     Email.from :=
       if truthy (field "from" h)
       then orElse (decodeMimeWord rt (name parsed)) (Mime.email parsed)
       else Email.from email;
     Email.fromEmail :=
       if truthy (field "from" h) then Mime.email parsed else Email.fromEmail email;
     Email.toEmail :=
       if truthy (field "to" h) then Some (field "to" h) else Email.toEmail email;
     Email.subject :=
       if truthy (field "subject" h)
       then orElse (decodeMimeWord rt (field "subject" h)) "(No Subject)"
       else Email.subject email;
     (* Parse MIME body properly *)
     Email.body := bodyField (parseMIMEBody rt bodyBuffer);
     Email.date :=
       if truthy (field "date" h) then convertDate rt (field "date" h)
       else Email.date email;
     Email.read := Email.read email;
     Email.starred := Email.starred email |}.

(** One message of the fetch: both streams have ended, then [msg] ends and
    the record is pushed when it has a subject or a sender address. *)
Definition message (rt : Runtime) (tick : nat) (headerBuffer textBuffer : string)
    (emails : list Email.t) : list Email.t :=
  let email := messageEnd rt (headerFields headerBuffer []) textBuffer
                 (newEmail rt tick) in
  if truthy (Email.subject email) || truthy (Email.fromEmail email)
  then emails ++ [email]
  else emails.

End Imap.

(* ================================================================== *)
(** ** The POP3 session of [fetchPOP3Emails] *)

Module Pop3.
Import JS Regex Mime.

(** The values of [currentStep]. *)
Inductive step :=
| step_greeting | step_stls | step_user | step_pass | step_list | step_retr.

Record listEntry := { num : N; size : N }.

(** Sockets. [net.connect] gives [Tcp], [tls.connect] to the host gives
    [ImplicitTls], and [upgradeToTLS] wraps the current socket in a new
    TLS socket, numbered in order of creation. *)
Inductive handle :=
| Tcp
| ImplicitTls
| StartTls (serial : nat) (under : handle).

Fixpoint handle_eqb (a b : handle) : bool :=
  match a, b with
  | Tcp, Tcp => true
  | ImplicitTls, ImplicitTls => true
  | StartTls n a', StartTls m b' => Nat.eqb n m && handle_eqb a' b'
  | _, _ => false
  end.

Definition isUpgraded (h : handle) : bool :=
  match h with StartTls _ _ => true | _ => false end.

(** The two [setTimeout] callbacks that end a session: after an empty
    [LIST] (100 ms) and after the last message (500 ms). *)
Inductive delayedCall := FinishEmpty | FinishAll.

Definition delayed_eqb (a b : delayedCall) : bool :=
  match a, b with
  | FinishEmpty, FinishEmpty | FinishAll, FinishAll => true
  | _, _ => false
  end.

(** The value of the promise. *)
Record Result := {
  success : bool;
  result_emails : option (list Email.t);
  error : option string;
  debug : string
}.

(** What happened on the protocol level: a line handed to [processLine],
    a call of [sendCmd] (with the socket it addressed and whether the
    socket was written to), the completion of a TLS upgrade. *)
Inductive obs :=
| Line (line : string)
| Send (h : handle) (written : bool) (cmd : string)
| Secure (h : handle).

Record state := mkState {
  socket : handle;   (* the variable [socket] *)
  resolved : bool;
  emails : list Email.t;
  dataBuffer : string;
  currentStep : step;
  emailList : list listEntry;
  currentEmailData : string;
  currentEmailIndex : nat;
  startTLSUpgradePending : bool;
  debugLog : list string;
  timer : bool;   (* the 25 s [timeout] is armed *)
  delayed : list delayedCall;   (* pending [setTimeout] callbacks of 100 and 500 ms *)
  destroyed : list handle;   (* sockets on which [destroy] was called *)
  listeners : list handle;   (* sockets carrying the data, error and close listeners *)
  upgradeErr : list handle;   (* TLS sockets carrying the error listener of [upgradeToTLS] *)
  handshakes : list handle;   (* TLS sockets whose connect callback has not run yet *)
  sockets : nat;   (* number of TLS sockets created by [upgradeToTLS] *)
  settled : option Result;   (* the value the promise was resolved with *)
  clock : nat;   (* number of readings of the clock *)
  history : list obs   (* lines consumed and commands sent, newest first *)
}.

(** Assignments to one variable of the session. *)
Definition set_socket (v : handle) (st : state) : state :=
  mkState v (resolved st) (emails st) (dataBuffer st) (currentStep st)
    (emailList st) (currentEmailData st) (currentEmailIndex st)
    (startTLSUpgradePending st) (debugLog st) (timer st) (delayed st)
    (destroyed st) (listeners st) (upgradeErr st) (handshakes st) (sockets
    st) (settled st) (clock st) (history st).
Definition set_resolved (v : bool) (st : state) : state :=
  mkState (socket st) v (emails st) (dataBuffer st) (currentStep st)
    (emailList st) (currentEmailData st) (currentEmailIndex st)
    (startTLSUpgradePending st) (debugLog st) (timer st) (delayed st)
    (destroyed st) (listeners st) (upgradeErr st) (handshakes st) (sockets
    st) (settled st) (clock st) (history st).
Definition set_emails (v : list Email.t) (st : state) : state :=
  mkState (socket st) (resolved st) v (dataBuffer st) (currentStep st)
    (emailList st) (currentEmailData st) (currentEmailIndex st)
    (startTLSUpgradePending st) (debugLog st) (timer st) (delayed st)
    (destroyed st) (listeners st) (upgradeErr st) (handshakes st) (sockets
    st) (settled st) (clock st) (history st).
Definition set_dataBuffer (v : string) (st : state) : state :=
  mkState (socket st) (resolved st) (emails st) v (currentStep st)
    (emailList st) (currentEmailData st) (currentEmailIndex st)
    (startTLSUpgradePending st) (debugLog st) (timer st) (delayed st)
    (destroyed st) (listeners st) (upgradeErr st) (handshakes st) (sockets
    st) (settled st) (clock st) (history st).
Definition set_currentStep (v : step) (st : state) : state :=
  mkState (socket st) (resolved st) (emails st) (dataBuffer st) v (emailList
    st) (currentEmailData st) (currentEmailIndex st) (startTLSUpgradePending
    st) (debugLog st) (timer st) (delayed st) (destroyed st) (listeners st)
    (upgradeErr st) (handshakes st) (sockets st) (settled st) (clock st)
    (history st).
Definition set_emailList (v : list listEntry) (st : state) : state :=
  mkState (socket st) (resolved st) (emails st) (dataBuffer st) (currentStep
    st) v (currentEmailData st) (currentEmailIndex st)
    (startTLSUpgradePending st) (debugLog st) (timer st) (delayed st)
    (destroyed st) (listeners st) (upgradeErr st) (handshakes st) (sockets
    st) (settled st) (clock st) (history st).
Definition set_currentEmailData (v : string) (st : state) : state :=
  mkState (socket st) (resolved st) (emails st) (dataBuffer st) (currentStep
    st) (emailList st) v (currentEmailIndex st) (startTLSUpgradePending st)
    (debugLog st) (timer st) (delayed st) (destroyed st) (listeners st)
    (upgradeErr st) (handshakes st) (sockets st) (settled st) (clock st)
    (history st).
Definition set_currentEmailIndex (v : nat) (st : state) : state :=
  mkState (socket st) (resolved st) (emails st) (dataBuffer st) (currentStep
    st) (emailList st) (currentEmailData st) v (startTLSUpgradePending st)
    (debugLog st) (timer st) (delayed st) (destroyed st) (listeners st)
    (upgradeErr st) (handshakes st) (sockets st) (settled st) (clock st)
    (history st).
Definition set_startTLSUpgradePending (v : bool) (st : state) : state :=
  mkState (socket st) (resolved st) (emails st) (dataBuffer st) (currentStep
    st) (emailList st) (currentEmailData st) (currentEmailIndex st) v
    (debugLog st) (timer st) (delayed st) (destroyed st) (listeners st)
    (upgradeErr st) (handshakes st) (sockets st) (settled st) (clock st)
    (history st).
Definition set_debugLog (v : list string) (st : state) : state :=
  mkState (socket st) (resolved st) (emails st) (dataBuffer st) (currentStep
    st) (emailList st) (currentEmailData st) (currentEmailIndex st)
    (startTLSUpgradePending st) v (timer st) (delayed st) (destroyed st)
    (listeners st) (upgradeErr st) (handshakes st) (sockets st) (settled st)
    (clock st) (history st).
Definition set_timer (v : bool) (st : state) : state :=
  mkState (socket st) (resolved st) (emails st) (dataBuffer st) (currentStep
    st) (emailList st) (currentEmailData st) (currentEmailIndex st)
    (startTLSUpgradePending st) (debugLog st) v (delayed st) (destroyed st)
    (listeners st) (upgradeErr st) (handshakes st) (sockets st) (settled st)
    (clock st) (history st).
Definition set_delayed (v : list delayedCall) (st : state) : state :=
  mkState (socket st) (resolved st) (emails st) (dataBuffer st) (currentStep
    st) (emailList st) (currentEmailData st) (currentEmailIndex st)
    (startTLSUpgradePending st) (debugLog st) (timer st) v (destroyed st)
    (listeners st) (upgradeErr st) (handshakes st) (sockets st) (settled st)
    (clock st) (history st).
Definition set_destroyed (v : list handle) (st : state) : state :=
  mkState (socket st) (resolved st) (emails st) (dataBuffer st) (currentStep
    st) (emailList st) (currentEmailData st) (currentEmailIndex st)
    (startTLSUpgradePending st) (debugLog st) (timer st) (delayed st) v
    (listeners st) (upgradeErr st) (handshakes st) (sockets st) (settled st)
    (clock st) (history st).
Definition set_listeners (v : list handle) (st : state) : state :=
  mkState (socket st) (resolved st) (emails st) (dataBuffer st) (currentStep
    st) (emailList st) (currentEmailData st) (currentEmailIndex st)
    (startTLSUpgradePending st) (debugLog st) (timer st) (delayed st)
    (destroyed st) v (upgradeErr st) (handshakes st) (sockets st) (settled
    st) (clock st) (history st).
Definition set_upgradeErr (v : list handle) (st : state) : state :=
  mkState (socket st) (resolved st) (emails st) (dataBuffer st) (currentStep
    st) (emailList st) (currentEmailData st) (currentEmailIndex st)
    (startTLSUpgradePending st) (debugLog st) (timer st) (delayed st)
    (destroyed st) (listeners st) v (handshakes st) (sockets st) (settled
    st) (clock st) (history st).
Definition set_handshakes (v : list handle) (st : state) : state :=
  mkState (socket st) (resolved st) (emails st) (dataBuffer st) (currentStep
    st) (emailList st) (currentEmailData st) (currentEmailIndex st)
    (startTLSUpgradePending st) (debugLog st) (timer st) (delayed st)
    (destroyed st) (listeners st) (upgradeErr st) v (sockets st) (settled
    st) (clock st) (history st).
Definition set_sockets (v : nat) (st : state) : state :=
  mkState (socket st) (resolved st) (emails st) (dataBuffer st) (currentStep
    st) (emailList st) (currentEmailData st) (currentEmailIndex st)
    (startTLSUpgradePending st) (debugLog st) (timer st) (delayed st)
    (destroyed st) (listeners st) (upgradeErr st) (handshakes st) v (settled
    st) (clock st) (history st).
Definition set_settled (v : option Result) (st : state) : state :=
  mkState (socket st) (resolved st) (emails st) (dataBuffer st) (currentStep
    st) (emailList st) (currentEmailData st) (currentEmailIndex st)
    (startTLSUpgradePending st) (debugLog st) (timer st) (delayed st)
    (destroyed st) (listeners st) (upgradeErr st) (handshakes st) (sockets
    st) v (clock st) (history st).
Definition set_clock (v : nat) (st : state) : state :=
  mkState (socket st) (resolved st) (emails st) (dataBuffer st) (currentStep
    st) (emailList st) (currentEmailData st) (currentEmailIndex st)
    (startTLSUpgradePending st) (debugLog st) (timer st) (delayed st)
    (destroyed st) (listeners st) (upgradeErr st) (handshakes st) (sockets
    st) (settled st) v (history st).
Definition set_history (v : list obs) (st : state) : state :=
  mkState (socket st) (resolved st) (emails st) (dataBuffer st) (currentStep
    st) (emailList st) (currentEmailData st) (currentEmailIndex st)
    (startTLSUpgradePending st) (debugLog st) (timer st) (delayed st)
    (destroyed st) (listeners st) (upgradeErr st) (handshakes st) (sockets
    st) (settled st) (clock st) v.

Definition memHandle (h : handle) (l : list handle) : bool :=
  existsb (handle_eqb h) l.

Fixpoint removeHandle (h : handle) (l : list handle) : list handle :=
  match l with
  | [] => []
  | x :: l' => if handle_eqb h x then removeHandle h l' else x :: removeHandle h l'
  end.

Fixpoint removeOne (d : delayedCall) (l : list delayedCall) : list delayedCall :=
  match l with
  | [] => []
  | x :: l' => if delayed_eqb d x then l' else x :: removeOne d l'
  end.

(** [emailList.slice(-10)] *)
Definition lastTen {A : Type} (l : list A) : list A :=
  skipn (List.length l - 10) l.

Section Session.
Variable rt : Runtime.
Variable config : POP3EmailConfig.

(** [debugLog.push(msg)] and [debugLog.join('\n')] *)
Definition log (msg : string) (st : state) : state :=
  set_debugLog (debugLog st ++ [msg]) st.

Definition debugText (st : state) : string := join LFs (debugLog st).

(** [resolve(r)]: only the first call settles the promise. *)
Definition resolve (r : Result) (st : state) : state :=
  match settled st with
  | None => set_settled (Some r) st
  | Some _ => st
  end.

Definition failure (msg : string) (st : state) : Result :=
  {| success := false; result_emails := None; error := Some msg;
     debug := debugText st |}.

Definition successWith (es : list Email.t) (st : state) : Result :=
  {| success := true; result_emails := Some es; error := None;
     debug := debugText st |}.

Definition clearTimeout (st : state) : state := set_timer false st.

Definition cleanup (st : state) : state :=
  set_destroyed (socket st :: destroyed st) st.

Definition hostPort : string := host config ++ ":" ++ showN (port config).

(** The callback of the 25 s timer. *)
Definition onTimeout (st : state) : state :=
  if resolved st then st
  else
    let st := set_resolved true st in
    let st := cleanup st in
    resolve (failure ("Connection timeout after 25 seconds. Check if "
                      ++ hostPort ++ " is correct and accessible.") st) st.

Definition sendCmd (cmd : string) (st : state) : state :=
  let st := log (">>> " ++ cmd) st in
  set_history
    (Send (socket st) (negb (memHandle (socket st) (destroyed st))) cmd
       :: history st) st.

(** The synchronous part of [upgradeToTLS]: the listeners of the current
    socket are removed and [socket] becomes the new TLS socket. *)
Definition upgradeToTLS (st : state) : state :=
  let st := log "Upgrading to TLS (StartTLS)" st in
  (* Remove old listeners *)
  let st := set_listeners (removeHandle (socket st) (listeners st)) st in
  let st := set_upgradeErr (removeHandle (socket st) (upgradeErr st)) st in
  (* Upgrade to TLS *)
  let tlsSocket := StartTls (sockets st) (socket st) in
  let st := set_sockets (S (sockets st)) st in
  let st := set_handshakes (handshakes st ++ [tlsSocket]) st in
  let st := set_upgradeErr (upgradeErr st ++ [tlsSocket]) st in
  set_socket tlsSocket st.

(** [line.match(/^(\d+)\s+(\d+)$/)] *)
Definition reListLine : re :=
  cat [Bol; Grp 1 (Plus (Of [Digit])); Plus sp; Grp 2 (Plus (Of [Digit])); Eol].

(** Email data line (remove leading dot if escaped). *)
Definition unstuff (line : string) : string :=
  if startsWith ".." line then drop 1 line else line.

Definition processLine (line : string) (st : state) : state :=
  let st := set_history (Line line :: history st) st in
  match currentStep st with
  | step_greeting =>
      if startsWith "+OK" line then
        let st := log "Server greeting received" st in
        (* For StartTLS mode, send STLS command first *)
        match encryption config with
        | tls =>
            let st := log "StartTLS mode: sending STLS command" st in
            let st := set_currentStep step_stls st in
            sendCmd "STLS" st
        | _ =>
            let st := set_currentStep step_user st in
            sendCmd ("USER " ++ username config) st
        end
      else
        let st := set_resolved true st in
        let st := clearTimeout st in
        let st := cleanup st in
        resolve (failure ("Server greeting failed: " ++ line) st) st
  | step_stls =>
      (* Response to STLS command *)
      if startsWith "+OK" line then
        let st := log "STLS accepted, upgrading connection" st in
        let st := set_startTLSUpgradePending true st in
        upgradeToTLS st
      else
        (* Server doesn't support STLS, try plain auth *)
        let st := log ("STLS not supported: " ++ line ++ ", continuing without TLS") st in
        let st := set_currentStep step_user st in
        sendCmd ("USER " ++ username config) st
  | step_user =>
      if startsWith "+OK" line then
        let st := log "USER accepted" st in
        let st := set_currentStep step_pass st in
        sendCmd ("PASS " ++ password config) st
      else
        let st := set_resolved true st in
        let st := clearTimeout st in
        let st := cleanup st in
        resolve (failure ("Username rejected: " ++ line) st) st
  | step_pass =>
      if startsWith "+OK" line then
        let st := log "Authentication successful" st in
        let st := set_currentStep step_list st in
        sendCmd "LIST" st
      else
        let st := set_resolved true st in
        let st := clearTimeout st in
        let st := cleanup st in
        resolve (failure ("Authentication failed: " ++ line
                          ++ ". Check username and password.") st) st
  | step_list =>
      if String.eqb line "." then
        (* End of list *)
        let st := log ("Found " ++ showNat (List.length (emailList st)) ++ " emails") st in
        match emailList st with
        | [] =>
            let st := set_resolved true st in
            let st := clearTimeout st in
            let st := sendCmd "QUIT" st in
            set_delayed (delayed st ++ [FinishEmpty]) st
        | _ :: _ =>
            (* Fetch emails (last 10) *)
            let toFetch := lastTen (emailList st) in
            let st := set_currentStep step_retr st in
            let st := set_currentEmailIndex 0 st in
            let st := set_currentEmailData "" st in
            match nth_error toFetch 0 with
            | Some first =>
                let st := log ("Fetching email " ++ showN (num first)) st in
                sendCmd ("RETR " ++ showN (num first)) st
            | None => st  (* not reached: the last ten of a non-empty list *)
            end
        end
      else if startsWith "-ERR" line then
        let st := set_resolved true st in
        let st := clearTimeout st in
        let st := cleanup st in
        resolve (failure ("LIST failed: " ++ line) st) st
      else
        match exec noFlags reListLine line with
        | Some m =>
            set_emailList
              (emailList st ++ [{| num := parseInt (capture1 1 m);
                                   size := parseInt (capture1 2 m) |}]) st
        | None => st
        end
  | step_retr =>
      if String.eqb line "." then
        (* End of email *)
        let email := parseEmailFromRaw rt (clock st) (currentEmailData st) in
        let st := set_clock (S (clock st)) st in
        let st :=
          match email with
          | Some e =>
              let st := set_emails (emails st ++ [e]) st in
              log ("Parsed email: " ++ Email.subject e) st
          | None => st
          end in
        let toFetch := lastTen (emailList st) in
        let st := set_currentEmailIndex (S (currentEmailIndex st)) st in
        if (currentEmailIndex st <? List.length toFetch)%nat then
          let st := set_currentEmailData "" st in
          match nth_error toFetch (currentEmailIndex st) with
          | Some next =>
              let st := log ("Fetching email " ++ showN (num next)) st in
              sendCmd ("RETR " ++ showN (num next)) st
          | None => st  (* not reached: the index is below the length *)
          end
        else
          (* All done *)
          let st := log "All emails fetched, quitting" st in
          let st := sendCmd "QUIT" st in
          set_delayed (delayed st ++ [FinishAll]) st
      else
        set_currentEmailData (currentEmailData st ++ unstuff line ++ CRLF) st
  end.

(** The loop of [processResponse]: process complete lines. Every turn
    removes a line and its CRLF from [dataBuffer], so a number of turns
    equal to the length of the buffer is never exhausted. *)
Fixpoint processLines (turns : nat) (st : state) : state :=
  match turns with
  | O => st
  | S turns' =>
      match indexOf CRLF (dataBuffer st) with
      | None => st
      | Some lineEnd =>
          let line := take lineEnd (dataBuffer st) in
          let st := set_dataBuffer (drop (lineEnd + 2) (dataBuffer st)) st in
          let st := processLine line st in
          if resolved st then st else processLines turns' st
      end
  end.

Definition processResponse (response : string) (st : state) : state :=
  let st := log ("<<< " ++ take 300 response
                 ++ (if (300 <? String.length response)%nat then "..." else "")) st in
  let st := set_dataBuffer (dataBuffer st ++ response) st in
  processLines (String.length (dataBuffer st)) st.

Definition handleError (message : string) (st : state) : state :=
  let st := log ("Socket error: " ++ message) st in
  if resolved st then st
  else
    let st := set_resolved true st in
    let st := clearTimeout st in
    let st := cleanup st in
    let errorMsg :=
      if includes "ETIMEDOUT" message || includes "ECONNREFUSED" message
      then "Cannot connect to " ++ hostPort ++ ". Check server address and port."
      else if includes "EPROTO" message || includes "wrong version number" message
      then "SSL/TLS mismatch. Try changing encryption setting. SSL = implicit TLS, TLS = StartTLS, None = plain text."
      else message in
    resolve (failure errorMsg st) st.

Definition handleConnect (st : state) : state :=
  log ("Connected to " ++ hostPort) st.

(** [socket.on('data')] and [tlsSocket.on('data')] *)
Definition onData (chunk : string) (st : state) : state :=
  if resolved st then st else processResponse chunk st.

(** [socket.on('close')] and [tlsSocket.on('close')], which differ in the
    line they log. *)
Definition onClose (h : handle) (st : state) : state :=
  let st := log (if isUpgraded h then "TLS socket closed" else "Socket closed") st in
  if resolved st then st
  else
    let st := set_resolved true st in
    let st := clearTimeout st in
    resolve (successWith (emails st) st) st.

(** [socket.on('timeout')] *)
Definition onSocketTimeout (st : state) : state :=
  let st := log "Socket timeout event" st in
  handleError "Socket timeout" st.

(** The error listener [upgradeToTLS] puts on the TLS socket. *)
Definition onUpgradeError (message : string) (st : state) : state :=
  let st := log ("TLS upgrade failed: " ++ message) st in
  handleError message st.

(** The callback of [tls.connect] in [upgradeToTLS]. *)
Definition onSecure (tlsSocket : handle) (st : state) : state :=
  let st := set_history (Secure tlsSocket :: history st) st in
  let st := log "TLS upgrade successful" st in
  let st := set_socket tlsSocket st in
  (* Re-attach listeners *)
  let st := set_listeners (listeners st ++ [tlsSocket]) st in
  (* Continue with authentication *)
  let st := set_currentStep step_user st in
  sendCmd ("USER " ++ username config) st.

(** The callbacks of [setTimeout(..., 100)] and [setTimeout(..., 500)]. *)
Definition onDelayed (d : delayedCall) (st : state) : state :=
  match d with
  | FinishEmpty =>
      let st := cleanup st in
      resolve (successWith [] st) st
  | FinishAll =>
      let st := set_resolved true st in
      let st := clearTimeout st in
      let st := cleanup st in
      resolve (successWith (emails st) st) st
  end.

(** The socket created according to the encryption setting. *)
Definition firstSocket : handle :=
  match encryption config with ssl => ImplicitTls | _ => Tcp end.

(** The session when the executor of the promise has run: the timer is
    armed, the socket is created and carries its listeners. *)
Definition start : state :=
  {| socket := firstSocket;
     resolved := false;
     emails := [];
     dataBuffer := "";
     currentStep := step_greeting;
     emailList := [];
     currentEmailData := "";
     currentEmailIndex := 0;
     startTLSUpgradePending := false;
     debugLog :=
       [ "Starting POP3 fetch to " ++ hostPort ++ " (Encryption: "
         ++ showEncryption (encryption config) ++ ")";
         match encryption config with
         | ssl => "Creating TLS socket (Implicit SSL - secure from start)"
         | e => "Creating plain TCP socket (" ++ showEncryption e
                ++ (match e with tls => " - will upgrade via STLS" | _ => "" end)
                ++ ")"
         end ];
     timer := true;
     delayed := [];
     destroyed := [];
     listeners := [firstSocket];
     upgradeErr := [];
     handshakes := [];
     sockets := 0;
     settled := None;
     clock := 0;
     history := [] |}.

(** What the event loop can deliver to the session. *)
Inductive event :=
| EvConnect                                  (* the socket is connected *)
| EvData (h : handle) (chunk : string)       (* 'data' on h *)
| EvError (h : handle) (message : string)    (* 'error' on h *)
| EvClose (h : handle)                       (* 'close' on h *)
| EvSocketTimeout                            (* 'timeout' on the first socket *)
| EvSecure (h : handle)                      (* the TLS handshake on h is done *)
| EvTimeout                                  (* the 25 s timer fires *)
| EvDelayed (d : delayedCall).               (* a 100 or 500 ms timer fires *)

(** An event runs the listeners registered for it at that moment, in the
    order of their registration. *)
Definition deliver (st : state) (ev : event) : state :=
  match ev with
  | EvConnect => handleConnect st
  | EvData h chunk =>
      if memHandle h (listeners st) then onData chunk st else st
  | EvError h message =>
      let attached := memHandle h (listeners st) in
      let st := if memHandle h (upgradeErr st) then onUpgradeError message st else st in
      if attached then handleError message st else st
  | EvClose h =>
      if memHandle h (listeners st) then onClose h st else st
  | EvSocketTimeout => onSocketTimeout st
  | EvSecure h =>
      if memHandle h (handshakes st)
      then onSecure h (set_handshakes (removeHandle h (handshakes st)) st)
      else st
  | EvTimeout =>
      if timer st then onTimeout (set_timer false st) else st
  | EvDelayed d =>
      if existsb (delayed_eqb d) (delayed st)
      then onDelayed d (set_delayed (removeOne d (delayed st)) st)
      else st
  end.

Definition runFrom (st : state) (evs : list event) : state :=
  fold_left deliver evs st.

Definition run (evs : list event) : state := runFrom start evs.

(** Lines handed to [processLine] one after the other. *)
Definition feed (st : state) (lines : list string) : state :=
  fold_left (fun s l => processLine l s) lines st.

End Session.

End Pop3.

(* ================================================================== *)
(** ** Vocabulary of the statements *)

Module Spec.
Import JS Mime Pop3.

(** Lines as the server sends them. *)
Definition wire (lines : list string) : string :=
  fold_right (fun l acc => l ++ CRLF ++ acc) "" lines.

(** A line as [processLine] can receive it: it holds no CRLF. *)
Definition lineOK (line : string) : Prop := indexOf CRLF line = None.


(** The lines appended to the raw block by the lines received. *)
Definition accumulated (lines : list string) : string :=
  fold_right (fun l acc => unstuff l ++ CRLF ++ acc) "" lines.

(** The lines of a raw block. *)
Definition blockLines (block : string) : list string := split CRLF block.

(** The promise is resolved with [success: true] and an empty list. *)
Definition emptySuccess (o : option Result) : Prop :=
  exists r, o = Some r /\ success r = true /\ result_emails r = Some []
            /\ error r = None.


(** The commands, recognised by the text handed to [sendCmd]. *)
Definition isUSER (cmd : string) : bool := startsWith "USER " cmd.




















(** The shape of a string: in [shape] the letter d stands for a decimal
    digit, any other character for itself. *)
Fixpoint hasShape (shape s : string) : bool :=
  match shape, s with
  | "", "" => true
  | String p shape', String c s' =>
      (if Ascii.eqb p "d" then isDigit c else Ascii.eqb p c) && hasShape shape' s'
  | _, _ => false
  end.

(** The ISO-8601 date-time forms [toISOString] produces. *)
Definition isISO8601 (s : string) : bool :=
  hasShape "dddd-dd-ddTdd:dd:dd.dddZ" s
  || hasShape "+dddddd-dd-ddTdd:dd:dd.dddZ" s
  || hasShape "-dddddd-dd-ddTdd:dd:dd.dddZ" s.






(** No white space at the front. *)
Definition tight (s : string) : Prop :=
  match s with
  | "" => True
  | String c _ => isSpace c = false
  end.



End Spec.

(* ================================================================== *)
(** ** Sample inputs *)

Module Sample.
Import JS Mime Pop3 Spec.

(** A runtime with a fixed clock; its [Date] rejects every text and its
    [Buffer] returns its input, which the samples below never rely on
    except where they say so. *)
Definition runtime : Runtime :=
  {| Date_now := fun _ => 1700000000000%N;
     Math_random36 := fun _ => "0.4fzyo82mvyr";
     toISOString := fun _ => "2023-11-14T22:13:20.000Z";
     Date_parse := fun _ => None;
     base64_utf8 := fun s => s;
     base64_latin1 := fun s => s |}.

Definition plainConfig : POP3EmailConfig :=
  {| host := "mail.example.com"; port := 110; username := "bob";
     password := "secret"; encryption := none |}.

Definition startTlsConfig : POP3EmailConfig :=
  {| host := "mail.example.com"; port := 110; username := "bob";
     password := "secret"; encryption := tls |}.

(** Greeting and login, up to the moment LIST is sent. *)
Definition authenticate : list event :=
  [ EvConnect;
    EvData Tcp (wire ["+OK POP3 ready"]);
    EvData Tcp (wire ["+OK"]);
    EvData Tcp (wire ["+OK logged in"]) ].

(** Greeting, login and a LIST response with the given entries. *)
Definition login (entries : list string) : list event :=
  authenticate
  ++ [ EvData Tcp (wire ("+OK scan listing follows" :: entries ++ ["."])) ].

Definition message (subject body : string) : list string :=
  [ "+OK message follows";
    "From: Alice Example <alice@example.com>";
    "Subject: " ++ subject;
    "Date: Mon, 1 Jan 2024 10:00:00 +0000";
    "";
    body ].

(** A LIST response in progress: the entries have arrived, the
    terminator has not. *)
Definition listing (entries : list string) : list event :=
  authenticate ++ [ EvData Tcp (wire ("+OK scan listing follows" :: entries)) ].

Definition twelveEntries : list string :=
  [ "1 100"; "2 200"; "3 300"; "4 400"; "5 500"; "6 600";
    "7 700"; "8 800"; "9 900"; "10 1000"; "11 1100"; "12 1200" ].




(** A quoted-printable message as the POP3 server delivers it. *)
Definition quotedPrintableMessage : string :=
  wire [ "From: Alice Example <alice@example.com>";
         "Subject: Menu";
         "Date: Mon, 1 Jan 2024 10:00:00 +0000";
         "Content-Type: text/plain; charset=iso-8859-1";
         "Content-Transfer-Encoding: quoted-printable";
         "";
         "Caf=E9" ].

(** The record the IMAP path builds for a message whose header stream
    carries the given Date field. *)
Definition imapRecord (dateField : string) : Email.t :=
  Imap.messageEnd runtime
    (Imap.headerFields
       (wire ["From: Alice Example <alice@example.com>"; "Subject: Hi";
              "Date: " ++ dateField; ""]) [])
    "Hello" (Imap.newEmail runtime 0).



(** A session that has received the line of two dots in a message. *)
Definition dotSession : list event :=
  login ["1 120"]
  ++ [EvData Tcp (wire ["+OK 120 octets"; "Subject: dots"; ""; ".."])].

End Sample.

(* ================================================================== *)
(** ** Further vocabulary *)

Module More.
Import JS Regex Mime Pop3 Spec.

(** The text holds the character. *)
Fixpoint hasChar (x : ascii) (s : string) : bool :=
  match s with
  | "" => false
  | String c s' => Ascii.eqb x c || hasChar x s'
  end.

(** Every match of the expression passes through a literal that holds the
    character [x]. *)
Fixpoint requires (x : ascii) (r : re) : bool :=
  match r with
  | Lit p => hasChar x p
  | Seq a b => requires x a || requires x b
  | Grp _ a => requires x a
  | _ => false
  end.

(** The expression has no [^]. *)
Fixpoint noBol (r : re) : bool :=
  match r with
  | Bol => false
  | Seq a b => noBol a && noBol b
  | Opt a => noBol a
  | Grp _ a => noBol a
  | _ => true
  end.

(** A continuation of the matcher that fails on every text without [x]. *)
Definition fails (x : ascii) {X : Type} (k : cont X) : Prop :=
  forall prev s cs, hasChar x s = false -> k prev s cs = None.

(** A continuation of the matcher that does not look at the character
    before the position. *)
Definition steady {X : Type} (k : cont X) : Prop :=
  forall p1 p2 s cs, k p1 s cs = k p2 s cs.

(** A character that [/i] identifies with no other one. *)
Definition caseless (x : ascii) : Prop :=
  forall c, Ascii.eqb (upperChar x) (upperChar c) = true -> c = x.

(** The hexadecimal digit of a value below 16, in upper or lower case. *)
Definition hexChar (upper : bool) (n : N) : ascii :=
  if (n <? 10)%N then ascii_of_N (48 + n)
  else ascii_of_N ((if upper then 55 else 87) + n).

(** The quoted-printable escape of a character: [=XX]. *)
Definition escapeOf (upper : bool) (c : ascii) : string :=
  String "=" (String (hexChar upper (code c / 16))
                (String (hexChar upper (code c mod 16)) "")).

(** A quoted-printable encoding without soft line breaks: the characters
    [keep] selects stand for themselves, the others are escaped, in the
    case [upper] selects. *)
Fixpoint qpEncode (keep upper : ascii -> bool) (s : string) : string :=
  match s with
  | "" => ""
  | String c s' =>
      (if keep c then String c "" else escapeOf (upper c) c)
      ++ qpEncode keep upper s'
  end.

(** [/=\r\n/g], the soft line break of quoted-printable text. *)
Definition softBreak : re := Lit ("=" ++ CRLF).

(** The text without its white space. *)
Fixpoint stripSpaces (s : string) : string :=
  match s with
  | "" => ""
  | String c s' => if isSpace c then stripSpaces s' else String c (stripSpaces s')
  end.

(** While the session is unresolved its 25 s timer is armed. *)
Definition armed (st : state) : Prop := resolved st = false -> timer st = true.

(** The promise is settled with [success: false] and the given message,
    without a list of records. *)
Definition failedWith (msg : string) (o : option Result) : Prop :=
  exists r, o = Some r /\ success r = false /\ error r = Some msg
            /\ result_emails r = None.

(** [st'] is [st] ended as a failure: resolved, timer cleared, socket
    destroyed, promise settled with the message. *)
Definition endedWith (msg : string) (st st' : state) : Prop :=
  resolved st' = true
  /\ timer st' = false
  /\ memHandle (socket st) (destroyed st') = true
  /\ failedWith msg (settled st').

(** Every command of the history is in the debug log, behind the mark of
    outgoing lines. *)
Definition logged (st : state) : Prop :=
  forall h w cmd, In (Send h w cmd) (history st) -> In (">>> " ++ cmd) (debugLog st).

(** A session that never upgrades: it has the socket it was opened with,
    no handshake is pending, it is not waiting for the reply to STLS, and
    every command was addressed to that socket and was not STLS. *)
Definition neverUpgrades (config : POP3EmailConfig) (st : state) : Prop :=
  socket st = firstSocket config
  /\ handshakes st = []
  /\ currentStep st <> step_stls
  /\ forall h w cmd, In (Send h w cmd) (history st) ->
                     h = firstSocket config /\ cmd <> "STLS".

(** In the past STLS was sent and a line was consumed after it. *)
Definition stlsAnswered (past : list obs) : Prop :=
  exists a line b h w c,
    past = (a ++ Line line :: b ++ Send h w "STLS" :: c)%list.

Definition stlsSent (past : list obs) : Prop :=
  exists b h w c, past = (b ++ Send h w "STLS" :: c)%list.

Fixpoint userAfterStls (h : list obs) : Prop :=
  match h with
  | [] => True
  | Send _ _ cmd :: past =>
      (isUSER cmd = true -> stlsAnswered past) /\ userAfterStls past
  | _ :: past => userAfterStls past
  end.

(** What a STARTTLS session keeps true. *)
Definition startTlsOrder (st : state) : Prop :=
  userAfterStls (history st)
  /\ (handshakes st <> [] -> stlsAnswered (history st))
  /\ match currentStep st with
     | step_greeting => True
     | step_stls => stlsSent (history st)
     | _ => stlsAnswered (history st)
     end.

(** Every character of the text satisfies [p]. *)
Fixpoint allOf (p : ascii -> bool) (s : string) : bool :=
  match s with
  | "" => true
  | String c s' => p c && allOf p s'
  end.

(** The text is empty or begins with a character outside the class. *)
Definition stopsAt (f : flags) (cl : cset) (s : string) : Prop :=
  match s with
  | "" => True
  | String c _ => mem f cl c = false
  end.

(** The records of the session begin with the given ones. *)
Definition extends (es : list Email.t) (st : state) : Prop :=
  exists more, emails st = (es ++ more)%list.






End More.
(* ================================================================== *)
(** ** The in-memory store and the actions of POST and GET on it *)

Module Store.
Import JS.

(** An [Email] of the store, with the optional [folder] that [delete]
    writes. *)
Record entry := {
  mail : Email.t;
  folder : option string
}.

(** [emailStore] *)
Record t := {
  inbox : list entry;
  sent : list entry;
  drafts : list entry;
  spam : list entry;
  trash : list entry
}.

(** The store of a fresh server instance. *)
Definition empty : t :=
  {| inbox := []; sent := []; drafts := []; spam := []; trash := [] |}.

Inductive key := Inbox | Sent | Drafts | Spam | Trash.

(** [emailStore[name]]: the five own properties of the store. Under any
    other name the store has nothing ([undefined]) or a member inherited
    from [Object.prototype], neither of which is an array. *)
Definition keyOf (name : string) : option key :=
  if String.eqb name "inbox" then Some Inbox
  else if String.eqb name "sent" then Some Sent
  else if String.eqb name "drafts" then Some Drafts
  else if String.eqb name "spam" then Some Spam
  else if String.eqb name "trash" then Some Trash
  else None.

(** A field of the request used as a property name; a field that is
    absent is [undefined] and names no folder. *)
Definition keyOfField (name : option string) : option key :=
  match name with
  | Some n => keyOf n
  | None => None
  end.

Definition get (k : key) (s : t) : list entry :=
  match k with
  | Inbox => inbox s
  | Sent => sent s
  | Drafts => drafts s
  | Spam => spam s
  | Trash => trash s
  end.

Definition put (k : key) (l : list entry) (s : t) : t :=
  match k with
  | Inbox => {| inbox := l; sent := sent s; drafts := drafts s; spam := spam s;
                trash := trash s |}
  | Sent => {| inbox := inbox s; sent := l; drafts := drafts s; spam := spam s;
               trash := trash s |}
  | Drafts => {| inbox := inbox s; sent := sent s; drafts := l; spam := spam s;
                 trash := trash s |}
  | Spam => {| inbox := inbox s; sent := sent s; drafts := drafts s; spam := l;
               trash := trash s |}
  | Trash => {| inbox := inbox s; sent := sent s; drafts := drafts s; spam := spam s;
                trash := l |}
  end.

(** What the handler answers: [success: true] with or without a message,
    [success: false] with an error of the handler, or the answer of its
    [catch] clause, [success: false] with the message of the exception. *)
Inductive response :=
| Success (message : option string)
| Failure (error : string)
| Thrown.

(** [(e: Email) => e.id === emailId] *)
Definition hasId (emailId : string) (e : entry) : bool :=
  String.eqb (Email.id (mail e)) emailId.

(** [findIndex]; [None] stands for -1. *)
Fixpoint findIndex (p : entry -> bool) (l : list entry) : option nat :=
  match l with
  | [] => None
  | e :: l' =>
      if p e then Some 0
      else match findIndex p l' with
           | Some i => Some (S i)
           | None => None
           end
  end.

(** What [splice(i, 1)] leaves in the array. *)
Fixpoint removeAt (i : nat) (l : list entry) : list entry :=
  match l, i with
  | [], _ => []
  | _ :: l', O => l'
  | e :: l', S i' => e :: removeAt i' l'
  end.

(** An assignment to a field of the element at index [i]. *)
Fixpoint updateAt (i : nat) (f : entry -> entry) (l : list entry) : list entry :=
  match l, i with
  | [], _ => []
  | e :: l', O => f e :: l'
  | e :: l', S i' => e :: updateAt i' f l'
  end.

Definition setRead (b : bool) (e : entry) : entry :=
  {| mail := {| Email.id := Email.id (mail e);
                Email.from := Email.from (mail e);
                Email.fromEmail := Email.fromEmail (mail e);
                Email.toEmail := Email.toEmail (mail e);
                Email.subject := Email.subject (mail e);
                Email.body := Email.body (mail e);
                Email.date := Email.date (mail e);
                Email.read := b;
                Email.starred := Email.starred (mail e) |};
     folder := folder e |}.

Definition setStarred (b : bool) (e : entry) : entry :=
  {| mail := {| Email.id := Email.id (mail e);
                Email.from := Email.from (mail e);
                Email.fromEmail := Email.fromEmail (mail e);
                Email.toEmail := Email.toEmail (mail e);
                Email.subject := Email.subject (mail e);
                Email.body := Email.body (mail e);
                Email.date := Email.date (mail e);
                Email.read := Email.read (mail e);
                Email.starred := b |};
     folder := folder e |}.

Definition setFolder (name : string) (e : entry) : entry :=
  {| mail := mail e; folder := Some name |}.

(** [case 'delete'] *)
Definition delete (folderField : option string) (emailId : string) (s : t)
    : t * response :=
  let sourceFolder :=
    match folderField with
    | Some f => if isEmpty f then "inbox" else f
    | None => "inbox"
    end in
  match keyOf sourceFolder with
  | None => (s, Thrown)
  | Some k =>
      match findIndex (hasId emailId) (get k s) with
      | None => (s, Failure "Email not found")
      | Some emailIndex =>
          if String.eqb sourceFolder "trash" then
            (put Trash (removeAt emailIndex (trash s)) s,
             Success (Some "Email permanently deleted"))
          else
            match nth_error (get k s) emailIndex with
            | Some deleted =>
                let s := put k (removeAt emailIndex (get k s)) s in
                (put Trash (setFolder sourceFolder deleted :: trash s) s,
                 Success (Some "Email moved to trash"))
            | None => (s, Thrown)  (* not reached: the index was found *)
            end
      end
  end.

(** [case 'move'] *)
Definition move (folderField targetFolder : option string) (emailId : string)
    (s : t) : t * response :=
  match keyOfField folderField with
  | None => (s, Thrown)
  | Some k =>
      match findIndex (hasId emailId) (get k s) with
      | None => (s, Failure "Email not found")
      | Some idx =>
          match nth_error (get k s) idx with
          | Some moved =>
              let s := put k (removeAt idx (get k s)) s in
              match targetFolder, keyOfField targetFolder with
              | Some toFolder, Some k' =>
                  (put k' (moved :: get k' s) s,
                   Success (Some ("Email moved to " ++ toFolder)))
              | _, _ => (s, Thrown)
              end
          | None => (s, Thrown)  (* not reached: the index was found *)
          end
      end
  end.

(** [case 'mark_read'], [case 'mark_unread'] and [case 'star']: an
    assignment to the element found, if any. *)
Definition assign (f : entry -> entry) (folderField : option string)
    (emailId : string) (s : t) : t * response :=
  match keyOfField folderField with
  | None => (s, Thrown)
  | Some k =>
      match findIndex (hasId emailId) (get k s) with
      | Some i => (put k (updateAt i f (get k s)) s, Success None)
      | None => (s, Success None)
      end
  end.

Definition mark_read := assign (setRead true).
Definition mark_unread := assign (setRead false).
Definition star := assign (fun e => setStarred (negb (Email.starred (mail e))) e).

(** [case 'empty_folder'] *)
Definition empty_folder (folderField : option string) (s : t) : t * response :=
  match folderField with
  | Some name =>
      if String.eqb name "spam" || String.eqb name "trash" then
        match keyOf name with
        | Some k => (put k [] s, Success (Some (name ++ " folder emptied")))
        | None => (s, Thrown)  (* not reached: spam and trash are folders *)
        end
      else (s, Failure "Can only empty spam or trash folders")
  | None => (s, Failure "Can only empty spam or trash folders")
  end.

(** [emailCounts] of [GET ?action=status]. *)
Record counts := {
  n_inbox : nat;
  n_sent : nat;
  n_drafts : nat;
  n_spam : nat;
  n_trash : nat;
  n_unread : nat
}.

Definition status (s : t) : counts :=
  {| n_inbox := List.length (inbox s);
     n_sent := List.length (sent s);
     n_drafts := List.length (drafts s);
     n_spam := List.length (spam s);
     n_trash := List.length (trash s);
     n_unread := List.length (filter (fun e => negb (Email.read (mail e))) (inbox s)) |}.

(** The number of emails in the store. *)
Definition total (s : t) : nat :=
  List.length (inbox s) + List.length (sent s) + List.length (drafts s)
  + List.length (spam s) + List.length (trash s).

(** A store for examples: two emails in the inbox, the first unread, and
    one in the trash. *)
Definition sampleEntry (emailId : string) (isRead : bool) : entry :=
  {| mail := {| Email.id := emailId;
                Email.from := "Alice Example";
                Email.fromEmail := "alice@example.com";
                Email.toEmail := None;
                Email.subject := "Hi";
                Email.body := "Hello";
                Email.date := "2024-01-01T10:00:00.000Z";
                Email.read := isRead;
                Email.starred := false |};
     folder := None |}.

Definition sampleStore : t :=
  {| inbox := [sampleEntry "email_1" false; sampleEntry "email_2" true];
     sent := [];
     drafts := [];
     spam := [];
     trash := [sampleEntry "email_3" true] |}.

End Store.
(* ================================================================== *)
(** ** The POP3 connection test *)

Module Pop3Test.
Import JS Pop3.

(** What the promise of [testPOP3Connection] is resolved with:
    [success: true] with the message naming the host and the port, or
    [success: false] with an error. *)
Inductive verdict :=
| Connected
| Failed (error : string).

(** The variables of the closure, with the 15 s timer, the promise, the
    sockets that carry the data and error listeners, the TLS handshakes in
    progress, and what was handed to [socket.write], newest first. *)
Record state := mkState {
  socket : handle;
  resolved : bool;
  currentStep : step;
  timer : bool;
  settled : option verdict;
  written : list (handle * string);
  listeners : list handle;
  handshakes : list handle;
  sockets : nat
}.

Definition set_socket (v : handle) (st : state) : state :=
  mkState v (resolved st) (currentStep st) (timer st) (settled st) (written st)
    (listeners st) (handshakes st) (sockets st).
Definition set_resolved (v : bool) (st : state) : state :=
  mkState (socket st) v (currentStep st) (timer st) (settled st) (written st)
    (listeners st) (handshakes st) (sockets st).
Definition set_currentStep (v : step) (st : state) : state :=
  mkState (socket st) (resolved st) v (timer st) (settled st) (written st)
    (listeners st) (handshakes st) (sockets st).
Definition set_timer (v : bool) (st : state) : state :=
  mkState (socket st) (resolved st) (currentStep st) v (settled st) (written st)
    (listeners st) (handshakes st) (sockets st).
Definition set_settled (v : option verdict) (st : state) : state :=
  mkState (socket st) (resolved st) (currentStep st) (timer st) v (written st)
    (listeners st) (handshakes st) (sockets st).
Definition set_written (v : list (handle * string)) (st : state) : state :=
  mkState (socket st) (resolved st) (currentStep st) (timer st) (settled st) v
    (listeners st) (handshakes st) (sockets st).
Definition set_listeners (v : list handle) (st : state) : state :=
  mkState (socket st) (resolved st) (currentStep st) (timer st) (settled st)
    (written st) v (handshakes st) (sockets st).
Definition set_handshakes (v : list handle) (st : state) : state :=
  mkState (socket st) (resolved st) (currentStep st) (timer st) (settled st)
    (written st) (listeners st) v (sockets st).
Definition set_sockets (v : nat) (st : state) : state :=
  mkState (socket st) (resolved st) (currentStep st) (timer st) (settled st)
    (written st) (listeners st) (handshakes st) v.

Section Test.
Variable config : POP3EmailConfig.

(** [resolve(v)]: only the first call settles the promise. *)
Definition resolve (v : verdict) (st : state) : state :=
  match settled st with
  | None => set_settled (Some v) st
  | Some _ => st
  end.

Definition clearTimeout (st : state) : state := set_timer false st.

(** [socket.write(text)] *)
Definition write (text : string) (st : state) : state :=
  set_written ((socket st, text) :: written st) st.

Definition userCommand : string := "USER " ++ username config ++ CRLF.
Definition passCommand : string := "PASS " ++ password config ++ CRLF.

(** The synchronous part of [upgradeToTLS]: the listeners of the current
    socket are removed and [socket] becomes the new TLS socket, which has
    no listeners until its handshake is done. *)
Definition upgradeToTLS (st : state) : state :=
  let st := set_listeners (removeHandle (socket st) (listeners st)) st in
  let tlsSocket := StartTls (sockets st) (socket st) in
  let st := set_sockets (S (sockets st)) st in
  let st := set_handshakes (handshakes st ++ [tlsSocket]) st in
  set_socket tlsSocket st.

(** The callback of [tls.connect] in [upgradeToTLS]. *)
Definition onSecure (tlsSocket : handle) (st : state) : state :=
  let st := set_socket tlsSocket st in
  let st := set_currentStep step_user st in
  let st := write userCommand st in
  set_listeners (listeners st ++ [tlsSocket]) st.

(** The body of the loop of [handleData]. *)
Definition handleLine (line : string) (st : state) : state :=
  if negb (truthy (trim line)) then st
  else if startsWith "+OK" line then
    match currentStep st with
    | step_greeting =>
        match encryption config with
        | tls =>
            (* Send STLS for StartTLS *)
            let st := set_currentStep step_stls st in
            write ("STLS" ++ CRLF) st
        | _ =>
            let st := set_currentStep step_user st in
            write userCommand st
        end
    | step_stls =>
        (* STLS accepted, upgrade to TLS *)
        upgradeToTLS st
    | step_user =>
        let st := set_currentStep step_pass st in
        write passCommand st
    | step_pass =>
        (* Success! *)
        let st := write ("QUIT" ++ CRLF) st in
        let st := clearTimeout st in
        if resolved st then st
        else
          let st := set_resolved true st in
          resolve Connected st
    | _ => st
    end
  else if startsWith "-ERR" line then
    match currentStep st with
    | step_stls =>
        (* STLS not supported, continue plain *)
        let st := set_currentStep step_user st in
        write userCommand st
    | _ =>
        let st := clearTimeout st in
        if resolved st then st
        else
          let st := set_resolved true st in
          resolve (Failed ("Server error: " ++ line)) st
    end
  else st.

(** [handleData]: the chunk is split at CRLF and every piece is handled,
    whether or not the chunk ends a line. *)
Definition handleData (response : string) (st : state) : state :=
  fold_left (fun s line => handleLine line s) (split CRLF response) st.

Definition handleError (message : string) (st : state) : state :=
  let st := clearTimeout st in
  if resolved st then st
  else
    let st := set_resolved true st in
    let errorMsg :=
      if includes "ETIMEDOUT" message || includes "ECONNREFUSED" message
      then "Cannot connect to " ++ hostPort config ++ ". Check server address and port."
      else if includes "EPROTO" message || includes "wrong version number" message
      then "SSL/TLS mismatch. Try changing encryption setting. SSL = implicit TLS, TLS = StartTLS, None = plain text."
      else message in
    resolve (Failed errorMsg) st.

(** The callback of [setTimeout(..., 15000)], which does not look at
    [resolved]. *)
Definition onTimeout (st : state) : state :=
  resolve (Failed "Connection timeout - POP3 server did not respond within 15 seconds. Check host, port, and encryption setting.") st.

(** The test when the executor of the promise has run. *)
Definition start : state :=
  {| socket := firstSocket config;
     resolved := false;
     currentStep := step_greeting;
     timer := true;
     settled := None;
     written := [];
     listeners := [firstSocket config];
     handshakes := [];
     sockets := 0 |}.

(** What the event loop can deliver to the test. An error on a socket
    that has no error listener is not an event of this function: Node
    raises it as an uncaught exception. *)
Inductive event :=
| EvData (h : handle) (chunk : string)       (* 'data' on h *)
| EvError (h : handle) (message : string)    (* 'error' on h *)
| EvSecure (h : handle)                      (* the TLS handshake on h is done *)
| EvTimeout.                                 (* the 15 s timer fires *)

Definition deliver (st : state) (ev : event) : state :=
  match ev with
  | EvData h chunk =>
      if memHandle h (listeners st) then handleData chunk st else st
  | EvError h message =>
      if memHandle h (listeners st) then handleError message st else st
  | EvSecure h =>
      if memHandle h (handshakes st)
      then onSecure h (set_handshakes (removeHandle h (handshakes st)) st)
      else st
  | EvTimeout =>
      if timer st then onTimeout (set_timer false st) else st
  end.

Definition run (evs : list event) : state := fold_left deliver evs start.

End Test.

(** USER was written, and PASS after it. *)
Definition loggedIn (config : POP3EmailConfig) (w : list (handle * string)) : Prop :=
  exists a b h h',
    w = (a ++ (h, passCommand config) :: b)%list /\ In (h', userCommand config) b.

Definition userWritten (config : POP3EmailConfig) (w : list (handle * string)) : Prop :=
  exists h, In (h, userCommand config) w.

(** What the test keeps true. *)
Definition testOrder (config : POP3EmailConfig) (st : state) : Prop :=
  (settled st = Some Connected -> loggedIn config (written st))
  /\ match currentStep st with
     | step_user => userWritten config (written st)
     | step_pass => loggedIn config (written st)
     | _ => True
     end.

(** The texts the test writes. *)
Definition testCommand (config : POP3EmailConfig) (text : string) : Prop :=
  text = "STLS" ++ CRLF \/ text = userCommand config \/ text = passCommand config
  \/ text = "QUIT" ++ CRLF.

End Pop3Test.

(* ================================================================== *)
(** ** Invariants of the session *)

Module Invariant.
Import JS Mime Pop3 Spec.

(** The promise is settled only after [resolved] is set, and the 100 ms
    timer is armed only then. *)
Definition unsettled (st : state) : Prop :=
  resolved st = false -> settled st = None /\ ~ In FinishEmpty (delayed st).

(** After the end of an empty LIST the session is resolved and waits for
    the 100 ms timer, or that timer has fired and settled the promise with
    a success and no messages. *)
Definition finishingEmpty (st : state) : Prop :=
  resolved st = true
  /\ ((settled st = None /\ delayed st = [FinishEmpty])
      \/ (emptySuccess (settled st) /\ delayed st = [])).





(** The current socket carries the listeners of the session, or its TLS
    handshake is still to complete. *)
Definition attached (st : state) : Prop :=
  memHandle (socket st) (listeners st) = true
  \/ memHandle (socket st) (handshakes st) = true.



(** A command addressed to a socket made by [upgradeToTLS]. *)
Definition onUpgraded (o : obs) : Prop :=
  match o with
  | Send h _ _ => isUpgraded h = true
  | _ => True
  end.

(** The oldest command of a history (newest first). *)
Fixpoint firstSent (h : list obs) : option string :=
  match h with
  | [] => None
  | x :: past =>
      match firstSent past with
      | Some cmd => Some cmd
      | None => match x with Send _ _ cmd => Some cmd | _ => None end
      end
  end.

Definition allUpgraded (l : list handle) : Prop :=
  Forall (fun h => isUpgraded h = true) l.

(** The session since STLS was accepted at history [h0]: the socket is a
    TLS socket, everything sent since went to a TLS socket, and the first
    command since, if any, is USER (until then the step is still [stls]). *)
Definition afterUpgrade (config : POP3EmailConfig) (h0 : list obs) (st : state)
    : Prop :=
  isUpgraded (socket st) = true
  /\ allUpgraded (handshakes st)
  /\ exists added,
       history st = (added ++ h0)%list
       /\ Forall onUpgraded added
       /\ match firstSent added with
          | None => currentStep st = step_stls
          | Some cmd => cmd = "USER " ++ username config
          end.

End Invariant.

(* ================================================================== *)
(** ** Properties of the POP3 session *)

Module Pop3Facts.
Import JS Mime Pop3 Spec Invariant.

(** Reading a variable of the session after assignments, without
    unfolding anything else. *)
Ltac st_simpl :=
  cbn [
       socket resolved emails dataBuffer currentStep emailList
       currentEmailData currentEmailIndex startTLSUpgradePending
       debugLog timer delayed destroyed listeners upgradeErr
       handshakes sockets settled clock history set_socket
       set_resolved set_emails set_dataBuffer set_currentStep
       set_emailList set_currentEmailData set_currentEmailIndex
       set_startTLSUpgradePending set_debugLog set_timer set_delayed
       set_destroyed set_listeners set_upgradeErr set_handshakes
       set_sockets set_settled set_clock set_history log sendCmd
       cleanup clearTimeout upgradeToTLS ].

Ltac st_simpl_in H :=
  cbn [
       socket resolved emails dataBuffer currentStep emailList
       currentEmailData currentEmailIndex startTLSUpgradePending
       debugLog timer delayed destroyed listeners upgradeErr
       handshakes sockets settled clock history set_socket
       set_resolved set_emails set_dataBuffer set_currentStep
       set_emailList set_currentEmailData set_currentEmailIndex
       set_startTLSUpgradePending set_debugLog set_timer set_delayed
       set_destroyed set_listeners set_upgradeErr set_handshakes
       set_sockets set_settled set_clock set_history log sendCmd
       cleanup clearTimeout upgradeToTLS ] in H.

Ltac st_simpl_all :=
  cbn [
       socket resolved emails dataBuffer currentStep emailList
       currentEmailData currentEmailIndex startTLSUpgradePending
       debugLog timer delayed destroyed listeners upgradeErr
       handshakes sockets settled clock history set_socket
       set_resolved set_emails set_dataBuffer set_currentStep
       set_emailList set_currentEmailData set_currentEmailIndex
       set_startTLSUpgradePending set_debugLog set_timer set_delayed
       set_destroyed set_listeners set_upgradeErr set_handshakes
       set_sockets set_settled set_clock set_history log sendCmd
       cleanup clearTimeout upgradeToTLS ] in *.

Lemma append_assoc (a b c : string) : (a ++ b) ++ c = a ++ b ++ c.
Proof. induction a as [|x a IH]; simpl; [reflexivity | now rewrite IH]. Qed.

Lemma append_empty_r (a : string) : a ++ "" = a.
Proof. induction a as [|x a IH]; simpl; [reflexivity | now rewrite IH]. Qed.

Lemma eqb_dot_false (line : string) : line <> "." -> String.eqb line "." = false.
Proof. intros H. apply String.eqb_neq. exact H. Qed.

Section Retrieving.
Variable rt : Runtime.
Variable config : POP3EmailConfig.

(** A line other than the terminator, received in step [retr], is added to
    the block and changes nothing else but the history. *)
Lemma retr_data_line (st : state) (line : string) :
  currentStep st = step_retr -> line <> "." ->
  processLine rt config line st
  = set_currentEmailData (currentEmailData st ++ unstuff line ++ CRLF)
      (set_history (Line line :: history st) st).
Proof.
  intros Hstep Hline. unfold processLine. st_simpl.
  rewrite Hstep, (eqb_dot_false _ Hline). reflexivity.
Qed.

Lemma retr_feed (lines : list string) : forall st,
  currentStep st = step_retr -> Forall (fun l => l <> ".") lines ->
  feed rt config st lines
  = set_currentEmailData (currentEmailData st ++ accumulated lines)
      (set_history (rev (map Line lines) ++ history st) st).
Proof.
  induction lines as [|l lines IH]; intros st Hstep Hall.
  - simpl. rewrite append_empty_r. destruct st; reflexivity.
  - inversion Hall as [|? ? Hl Hrest]; subst.
    unfold feed in *. simpl fold_left.
    rewrite (retr_data_line st l Hstep Hl).
    rewrite IH; [| exact Hstep | exact Hrest].
    simpl. rewrite <- !app_assoc. simpl.
    rewrite !append_assoc. reflexivity.
Qed.

End Retrieving.

Lemma unstuff_stuffed (line : string) :
  startsWith ".." line = true -> String "." (unstuff line) = line.
Proof.
  unfold unstuff. intros H. rewrite H.
  destruct line as [|a rest]; simpl in H; [discriminate|].
  destruct (Ascii.eqb_spec "."%char a) as [Ha|Ha]; simpl in H; [|discriminate].
  subst a. destruct rest; reflexivity.
Qed.

Lemma unstuff_other (line : string) :
  startsWith ".." line = false -> unstuff line = line.
Proof. unfold unstuff. now intros ->. Qed.

Lemma unstuff_dot (line : string) : line <> "." -> (unstuff line = "." <-> line = "..").
Proof.
  intros Hline. split.
  - destruct (startsWith ".." line) eqn:E.
    + intros H. rewrite <- (unstuff_stuffed line E). now rewrite H.
    + rewrite (unstuff_other line E). intros H. contradiction.
  - intros ->. reflexivity.
Qed.


Section RetrievingClaims.
Variable rt : Runtime.
Variable config : POP3EmailConfig.

(** The terminator received in step [retr]: the block is decoded and its
    record appended, then either the next message is requested or the
    session says QUIT and arms the 500 ms timer. The terminator itself is
    not added to the block. *)
Lemma retr_terminator (st : state) :
  currentStep st = step_retr ->
  let st' := processLine rt config "." st in
  emails st' = (emails st ++ [recordOfRaw rt (clock st) (currentEmailData st)])%list
  /\ currentEmailIndex st' = S (currentEmailIndex st)
  /\ emailList st' = emailList st
  /\ (currentEmailData st' = "" \/ currentEmailData st' = currentEmailData st).
Proof.
  intros Hstep. unfold processLine, parseEmailFromRaw. st_simpl. rewrite Hstep.
  change (String.eqb "." ".") with true. cbv iota. st_simpl.
  destruct (S (currentEmailIndex st) <? List.length (lastTen (emailList st)))%nat.
  - destruct (nth_error (lastTen (emailList st)) (S (currentEmailIndex st)));
      st_simpl; auto.
  - st_simpl. auto.
Qed.

(** C2, as amended: in step [retr] every received line other than the
    terminator is appended to the raw block followed by CRLF, a line that
    begins with two dots losing its first dot (so the line of two dots and
    [Example] contributes a dot and [Example]) and any other line being
    appended unchanged; a decoded line is the single dot only when the line
    received was two dots; the terminator is never appended, it hands the
    block to the decoder. *)
Theorem C2_dot_unstuffing (st : state) (lines : list string) :
  currentStep st = step_retr ->
  Forall (fun l => l <> ".") lines ->
  let st' := feed rt config st lines in
  currentStep st' = step_retr
  /\ currentEmailData st' = currentEmailData st ++ accumulated lines
  /\ Forall (fun l =>
        (startsWith ".." l = true -> String "." (unstuff l) = l)
        /\ (startsWith ".." l = false -> unstuff l = l)
        /\ (unstuff l = "." <-> l = "..")) lines
  /\ unstuff "..Example" = ".Example"
  /\ emails (processLine rt config "." st')
     = (emails st
        ++ [recordOfRaw rt (clock st) (currentEmailData st ++ accumulated lines)])%list.
Proof.
  intros Hstep Hall. cbv zeta.
  rewrite (retr_feed rt config lines st Hstep Hall).
  repeat split.
  - exact Hstep.
  - eapply Forall_impl; [|exact Hall]. intros l Hl. cbv beta.
    split; [apply unstuff_stuffed|].
    split; [apply unstuff_other | apply unstuff_dot; exact Hl].
  - match goal with |- emails (processLine _ _ _ ?s) = _ =>
      destruct (retr_terminator s Hstep) as [He _] end.
    exact He.
Qed.

End RetrievingClaims.

(** Witness of C2: two stuffed lines and a plain one received during the
    retrieval of the sample session. *)
Lemma C2_dot_unstuffing_witness :
  let st := run Sample.runtime Sample.plainConfig (Sample.login ["1 120"]) in
  let st' := feed Sample.runtime Sample.plainConfig st ["..Example"; "plain"; ".."] in
  currentStep st' = step_retr
  /\ currentEmailData st' = currentEmailData st ++ accumulated ["..Example"; "plain"; ".."].
Proof.
  pose proof (C2_dot_unstuffing Sample.runtime Sample.plainConfig
                (run Sample.runtime Sample.plainConfig (Sample.login ["1 120"]))
                ["..Example"; "plain"; ".."]) as H.
  cbv zeta in H |- *.
  destruct H as (H1 & H2 & _).
  - vm_compute. reflexivity.
  - repeat constructor; discriminate.
  - split; assumption.
Defined.

(** C2, counterexample: the line of two dots, received while a message is
    retrieved, puts a line equal to the single dot into the raw block. *)
Lemma C2_dot_line_in_block :
  let st := run Sample.runtime Sample.plainConfig Sample.dotSession in
  currentStep st = step_retr
  /\ resolved st = false
  /\ In "." (blockLines (currentEmailData st)).
Proof.
  vm_compute. repeat split. tauto.
Qed.


Lemma err_line_is_data (line : string) :
  startsWith "-ERR" line = true -> line <> "." /\ unstuff line = line.
Proof.
  intros H. split.
  - intros ->. discriminate H.
  - apply unstuff_other.
    destruct line as [|a rest]; [discriminate H|].
    simpl in H |- *.
    destruct (Ascii.eqb_spec "-"%char a) as [<-|Ha]; [reflexivity|discriminate H].
Qed.



(** Case analysis on the conditions a handler tests. *)
Ltac break :=
  match goal with
  | |- context [match ?c with _ => _ end] => destruct c eqn:?
  end; st_simpl_all.

Ltac handlers :=
  unfold deliver, handleConnect, onData, onClose, onSocketTimeout,
    onUpgradeError, onSecure, onTimeout, onDelayed, handleError, resolve,
    processResponse, parseEmailFromRaw;
  st_simpl.

Section Preservation.
Variable rt : Runtime.
Variable config : POP3EmailConfig.
Variable P : state -> Prop.
Hypothesis P_log : forall msg st, P st -> P (log msg st).
Hypothesis P_buffer : forall b st, P st -> P (set_dataBuffer b st).
Hypothesis P_line : forall line st, P st -> P (processLine rt config line st).

Lemma processLines_preserves (turns : nat) : forall st,
  P st -> P (processLines rt config turns st).
Proof.
  induction turns as [|n IH]; intros st HP; simpl; [exact HP|].
  destruct (indexOf CRLF (dataBuffer st)) as [lineEnd|]; [|exact HP].
  match goal with |- P (if resolved ?s then _ else _) =>
    assert (P s) as Hs by (apply P_line, P_buffer, HP);
    destruct (resolved s); [exact Hs | apply IH, Hs] end.
Qed.

Lemma onData_preserves (chunk : string) (st : state) :
  P st -> P (onData rt config chunk st).
Proof.
  intros HP. unfold onData, processResponse.
  destruct (resolved st); [exact HP|].
  apply processLines_preserves, P_buffer, P_log, HP.
Qed.

End Preservation.

Section Settling.
Variable rt : Runtime.
Variable config : POP3EmailConfig.

Lemma existsb_delayed (d : delayedCall) (l : list delayedCall) :
  existsb (delayed_eqb d) l = true <-> In d l.
Proof.
  rewrite existsb_exists. split.
  - intros (x & Hin & Heq). destruct d, x; try discriminate; exact Hin.
  - intros Hin. exists d. split; [exact Hin | destruct d; reflexivity].
Qed.

Lemma removeOne_incl (d x : delayedCall) (l : list delayedCall) :
  In x (removeOne d l) -> In x l.
Proof.
  induction l as [|y l IH]; simpl; [tauto|].
  destruct (delayed_eqb d y); simpl; tauto.
Qed.

Ltac unsettled_case :=
  intros; st_simpl_all; try congruence;
  repeat match goal with
         | H : In _ (_ ++ _) |- _ => apply in_app_or in H; destruct H
         | H : In _ (removeOne _ _) |- _ => apply removeOne_incl in H
         | H : existsb (delayed_eqb _) _ = true |- _ => apply existsb_delayed in H
         | H : In _ [_] |- _ => destruct H as [H|[]]; try discriminate H
         end;
  try solve [intuition congruence].

Lemma processLine_unsettled (line : string) (st : state) :
  unsettled st -> unsettled (processLine rt config line st).
Proof.
  unfold unsettled, processLine, parseEmailFromRaw, resolve. st_simpl. intros H.
  repeat break; try (split; [|intros ?]); unsettled_case.
Qed.

Lemma deliver_unsettled (st : state) (ev : event) :
  unsettled st -> unsettled (deliver rt config st ev).
Proof.
  intros H. destruct ev; unfold deliver.
  - exact H.
  - destruct (memHandle h (listeners st)); [|exact H].
    apply onData_preserves; auto using processLine_unsettled.
  - revert H. unfold unsettled. handlers. intros H.
    repeat break; try (split; [|intros ?]); unsettled_case.
  - revert H. unfold unsettled. handlers. intros H.
    repeat break; try (split; [|intros ?]); unsettled_case.
  - revert H. unfold unsettled. handlers. intros H.
    repeat break; try (split; [|intros ?]); unsettled_case.
  - revert H. unfold unsettled. handlers. intros H.
    repeat break; try (split; [|intros ?]); unsettled_case.
  - revert H. unfold unsettled. handlers. intros H.
    repeat break; try (split; [|intros ?]); unsettled_case.
  - revert H. unfold unsettled. handlers. intros H.
    repeat break; try (split; [|intros ?]); unsettled_case.
Qed.

Lemma runFrom_unsettled (evs : list event) : forall st,
  unsettled st -> unsettled (runFrom rt config st evs).
Proof.
  induction evs as [|ev evs IH]; intros st H; simpl; [exact H|].
  apply IH, deliver_unsettled, H.
Qed.

Lemma run_unsettled (evs : list event) : unsettled (run rt config evs).
Proof. apply runFrom_unsettled. intros _. split; [reflexivity | intros []]. Qed.

End Settling.


Section EmptyMailbox.
Variable rt : Runtime.
Variable config : POP3EmailConfig.

Lemma deliver_finishingEmpty (st : state) (ev : event) :
  finishingEmpty st -> finishingEmpty (deliver rt config st ev).
Proof.
  unfold finishingEmpty, emptySuccess. intros [Hres Hcases].
  destruct ev; handlers; rewrite ?Hres; st_simpl.
  - auto.
  - break; auto.
  - repeat break; auto; congruence.
  - break; auto.
  - auto.
  - break; auto.
  - break; auto.
  - destruct Hcases as [[Hset Hdel]|[(r & Hset & Hr) Hdel]]; rewrite Hdel, Hset.
    + destruct d; simpl; st_simpl; [|rewrite Hset, Hdel; auto].
      split; [exact Hres|]. right. split; [|reflexivity].
      eexists. split; [reflexivity|]. repeat split; reflexivity.
    + simpl. rewrite Hset, Hdel. split; [exact Hres|]. right.
      split; [|reflexivity]. exists r. auto.
Qed.

Lemma runFrom_finishingEmpty (evs : list event) : forall st,
  finishingEmpty st -> finishingEmpty (runFrom rt config st evs).
Proof.
  induction evs as [|ev evs IH]; intros st H; simpl; [exact H|].
  apply IH, deliver_finishingEmpty, H.
Qed.

Lemma timer_finishes (st : state) :
  finishingEmpty st ->
  emptySuccess (settled (deliver rt config st (EvDelayed FinishEmpty))).
Proof.
  unfold finishingEmpty. intros [Hres [[Hset Hdel]|[Hok Hdel]]];
    handlers; rewrite Hdel; simpl; st_simpl.
  - rewrite Hset. eexists. split; [reflexivity|]. repeat split; reflexivity.
  - exact Hok.
Qed.

Lemma settled_is_kept (evs : list event) : forall st,
  finishingEmpty st -> emptySuccess (settled st) ->
  emptySuccess (settled (runFrom rt config st evs)).
Proof.
  induction evs as [|ev evs IH]; intros st Hinv Hok; simpl; [exact Hok|].
  apply IH; [apply deliver_finishingEmpty, Hinv|].
  destruct (deliver_finishingEmpty st ev Hinv) as [_ [[Hnone _]|[Hgood _]]];
    [|exact Hgood].
  exfalso. destruct Hok as (r & Hr & _).
  revert Hnone. destruct Hinv as [Hres _].
  destruct ev; handlers; rewrite ?Hres, ?Hr; st_simpl;
    repeat break; rewrite ?Hr; st_simpl; congruence.
Qed.

(** C5: when the LIST response ends without any entry, the session is
    resolved at once: it says QUIT, requests no message and arms the 100 ms
    timer; whatever happens next the promise is never settled with an
    error, and once that timer has fired it is settled with
    [success: true] and an empty list. *)
Theorem C5_empty_list_is_success (st : state) :
  currentStep st = step_list ->
  emailList st = [] ->
  resolved st = false ->
  settled st = None ->
  delayed st = [] ->
  let st' := processLine rt config "." st in
  resolved st' = true
  /\ emails st' = emails st
  /\ (exists w, history st' = Send (socket st) w "QUIT" :: Line "." :: history st)
  /\ (forall evs,
        settled (runFrom rt config st' evs) = None
        \/ emptySuccess (settled (runFrom rt config st' evs)))
  /\ (forall evs,
        In (EvDelayed FinishEmpty) evs ->
        emptySuccess (settled (runFrom rt config st' evs))).
Proof.
  intros Hstep Hlist Hres Hset Hdel st'.
  assert (Hinv : finishingEmpty st').
  { unfold finishingEmpty, st', processLine. st_simpl.
    rewrite Hstep. change (String.eqb "." ".") with true. cbv iota.
    rewrite Hlist. st_simpl. rewrite Hset, Hdel. auto. }
  split; [exact (proj1 Hinv)|].
  split.
  { unfold st', processLine. st_simpl.
    rewrite Hstep. change (String.eqb "." ".") with true. cbv iota.
    rewrite Hlist. reflexivity. }
  split.
  { unfold st', processLine. st_simpl.
    rewrite Hstep. change (String.eqb "." ".") with true. cbv iota.
    rewrite Hlist. st_simpl. eexists. reflexivity. }
  split.
  - intros evs.
    destruct (runFrom_finishingEmpty evs st' Hinv) as [_ [[H _]|[H _]]]; auto.
  - intros evs. revert Hinv. generalize st'. clear.
    induction evs as [|ev evs IH]; intros st Hinv Hin; [destruct Hin|].
    simpl. destruct Hin as [->|Hin].
    + apply settled_is_kept; [apply deliver_finishingEmpty, Hinv|].
      apply timer_finishes, Hinv.
    + apply IH; [apply deliver_finishingEmpty, Hinv | exact Hin].
Qed.

End EmptyMailbox.

(** Witness of C5: the sample server lists an empty mailbox; the socket
    then closes and the timer fires. *)
Lemma C5_empty_list_is_success_witness :
  let st := run Sample.runtime Sample.plainConfig
              (Sample.authenticate ++ [EvData Tcp (wire ["+OK 0 messages"])]) in
  let st' := processLine Sample.runtime Sample.plainConfig "." st in
  resolved st' = true
  /\ emptySuccess
       (settled (runFrom Sample.runtime Sample.plainConfig st'
                   [EvClose Tcp; EvDelayed FinishEmpty])).
Proof.
  pose proof (C5_empty_list_is_success Sample.runtime Sample.plainConfig
                (run Sample.runtime Sample.plainConfig
                   (Sample.authenticate
                    ++ [EvData Tcp (wire ["+OK 0 messages"])]))) as H.
  cbv zeta in H |- *.
  destruct H as (H1 & _ & _ & _ & H5); try (vm_compute; reflexivity).
  split; [exact H1|]. apply H5. right. left. reflexivity.
Defined.

Section Ordering.
Variable rt : Runtime.
Variable config : POP3EmailConfig.












End Ordering.


Lemma handle_eqb_eq (a : handle) : forall b, handle_eqb a b = true -> a = b.
Proof.
  induction a as [| |n a IH]; intros [| |m b]; simpl; try discriminate; auto.
  intros H. apply andb_prop in H. destruct H as [Hn Hh].
  apply Nat.eqb_eq in Hn. apply IH in Hh. congruence.
Qed.

Lemma handle_eqb_refl (a : handle) : handle_eqb a a = true.
Proof.
  induction a as [| |n a IH]; simpl; auto.
  rewrite Nat.eqb_refl. exact IH.
Qed.

Lemma memHandle_last (h : handle) (l : list handle) :
  memHandle h (l ++ [h]) = true.
Proof.
  unfold memHandle. rewrite existsb_app. simpl.
  rewrite handle_eqb_refl. apply orb_true_iff. right. reflexivity.
Qed.

Lemma memHandle_upgraded (h : handle) (l : list handle) :
  allUpgraded l -> memHandle h l = true -> isUpgraded h = true.
Proof.
  unfold allUpgraded, memHandle. rewrite Forall_forall, existsb_exists.
  intros Hall (x & Hin & Heq). apply handle_eqb_eq in Heq. subst x. auto.
Qed.

Lemma removeHandle_upgraded (h : handle) (l : list handle) :
  allUpgraded l -> allUpgraded (removeHandle h l).
Proof.
  unfold allUpgraded. induction l as [|x l IH]; simpl; intros H; [constructor|].
  inversion H; subst. destruct (handle_eqb h x); auto.
Qed.

Lemma allUpgraded_snoc (n : nat) (h : handle) (l : list handle) :
  allUpgraded l -> allUpgraded (l ++ [StartTls n h]).
Proof.
  unfold allUpgraded. intros H. apply Forall_app. split; [exact H|].
  constructor; [reflexivity | constructor].
Qed.

Section Upgrade.
Variable rt : Runtime.
Variable config : POP3EmailConfig.
Variable h0 : list obs.

Ltac since_case :=
  st_simpl;
  repeat match goal with
         | |- _ /\ _ => split
         | |- isUpgraded _ = true => solve [reflexivity | assumption
                                           | eauto using memHandle_upgraded]
         | |- allUpgraded _ =>
             solve [assumption | apply allUpgraded_snoc; assumption
                    | apply removeHandle_upgraded; assumption]
         end;
  try match goal with
      | Hh : history _ = (?added ++ h0)%list |- exists _, _ =>
          rewrite Hh;
          first [ exists added; split; [reflexivity|]
                | eexists (_ :: _ :: added); split; [reflexivity|]
                | eexists (_ :: added); split; [reflexivity|] ];
          split;
          [ repeat constructor; simpl;
            solve [assumption | eauto using memHandle_upgraded]
          | simpl; destruct (firstSent added); solve [auto | congruence] ]
      end.

Lemma processLine_afterUpgrade (line : string) (st : state) :
  afterUpgrade config h0 st -> afterUpgrade config h0 (processLine rt config line st).
Proof.
  unfold afterUpgrade, processLine, parseEmailFromRaw, resolve. st_simpl.
  intros (Hsock & Hhs & added & Hh & Hall & Hfirst).
  destruct (currentStep st) eqn:Hstep; repeat break; since_case.
Qed.

Lemma deliver_afterUpgrade (st : state) (ev : event) :
  afterUpgrade config h0 st -> afterUpgrade config h0 (deliver rt config st ev).
Proof.
  intros H. destruct ev; unfold deliver.
  - exact H.
  - destruct (memHandle h (listeners st)); [|exact H].
    apply onData_preserves;
      [ intros ? ? HP; exact HP | intros ? ? HP; exact HP
      | apply processLine_afterUpgrade | exact H ].
  - revert H. unfold afterUpgrade. handlers. intros H. repeat break; exact H.
  - revert H. unfold afterUpgrade. handlers. intros H. repeat break; exact H.
  - revert H. unfold afterUpgrade. handlers. intros H. repeat break; exact H.
  - revert H. unfold afterUpgrade. handlers.
    intros (Hsock & Hhs & added & Hh & Hall & Hfirst).
    repeat break; since_case.
  - revert H. unfold afterUpgrade. handlers. intros H. repeat break; exact H.
  - revert H. unfold afterUpgrade. handlers. intros H. repeat break; exact H.
Qed.

Lemma runFrom_afterUpgrade (evs : list event) : forall st,
  afterUpgrade config h0 st -> afterUpgrade config h0 (runFrom rt config st evs).
Proof.
  induction evs as [|ev evs IH]; intros st H; simpl; [exact H|].
  apply IH, deliver_afterUpgrade, H.
Qed.

End Upgrade.

Lemma err_is_not_ok (line : string) :
  startsWith "-ERR" line = true -> startsWith "+OK" line = false.
Proof.
  destruct line as [|a rest]; [discriminate|]. simpl.
  destruct (Ascii.eqb_spec "-"%char a) as [<-|Ha]; [reflexivity|discriminate].
Qed.

Section StlsClaim.
Variable rt : Runtime.
Variable config : POP3EmailConfig.

Lemma stls_err (st : state) (line : string) :
  currentStep st = step_stls ->
  startsWith "-ERR" line = true ->
  let st' := processLine rt config line st in
  resolved st' = resolved st
  /\ settled st' = settled st
  /\ socket st' = socket st
  /\ handshakes st' = handshakes st
  /\ currentStep st' = step_user
  /\ history st'
     = Send (socket st) (negb (memHandle (socket st) (destroyed st)))
         ("USER " ++ username config)
       :: Line line :: history st.
Proof.
  intros Hstep Herr. unfold processLine. st_simpl.
  rewrite Hstep, (err_is_not_ok line Herr). st_simpl. repeat split; reflexivity.
Qed.

(** C3: the reply to STLS. When it begins with -ERR the session is not
    settled: it moves to step [user] and sends USER to the socket it
    already had, no upgrade being started; in a STARTTLS session that is
    the plain TCP socket the session was opened with. When it begins with
    +OK the session sends nothing for that line and replaces its socket by
    a new TLS socket wrapping the old one; the completion of the handshake
    sends USER to that TLS socket, and whatever events follow, every
    command sent from then on is addressed to a TLS socket made by the
    upgrade and the first of them is USER. *)
Theorem C3_stls_reply (st : state) (line : string) :
  currentStep st = step_stls ->
  allUpgraded (handshakes st) ->
  let st' := processLine rt config line st in
  (startsWith "-ERR" line = true ->
     resolved st' = resolved st
     /\ settled st' = settled st
     /\ socket st' = socket st
     /\ handshakes st' = handshakes st
     /\ currentStep st' = step_user
     /\ history st'
        = Send (socket st) (negb (memHandle (socket st) (destroyed st)))
            ("USER " ++ username config)
          :: Line line :: history st)
  /\ (startsWith "+OK" line = true ->
      socket st' = StartTls (sockets st) (socket st)
      /\ resolved st' = resolved st
      /\ history st' = Line line :: history st
      /\ (exists w,
            history (deliver rt config st' (EvSecure (socket st')))
            = Send (socket st') w ("USER " ++ username config)
              :: Secure (socket st') :: history st')
      /\ (forall evs, exists added,
            history (runFrom rt config st' evs) = (added ++ history st')%list
            /\ Forall onUpgraded added
            /\ (firstSent added = None
                \/ firstSent added = Some ("USER " ++ username config))))
  /\ (encryption config = tls ->
      forall greeting,
        startsWith "+OK" greeting = true ->
        startsWith "-ERR" line = true ->
        let s := feed rt config (start config) [greeting; line] in
        history s = [ Send Tcp true ("USER " ++ username config); Line line;
                      Send Tcp true "STLS"; Line greeting ]
        /\ resolved s = false /\ settled s = None /\ socket s = Tcp).
Proof.
  intros Hstep Hhs st'. split; [|split].
  - intros Herr. destruct (stls_err st line Hstep Herr) as (H1 & H2 & H3 & H4 & H5 & H6).
    auto 10.
  - intros Hok.
    assert (Hst' : st' = upgradeToTLS
                           (set_startTLSUpgradePending true
                              (log "STLS accepted, upgrading connection"
                                 (set_history (Line line :: history st) st)))).
    { unfold st', processLine. st_simpl. rewrite Hstep, Hok. reflexivity. }
    split; [rewrite Hst'; reflexivity|].
    split; [rewrite Hst'; reflexivity|].
    split; [rewrite Hst'; reflexivity|].
    split.
    + rewrite Hst'. unfold deliver. st_simpl. rewrite memHandle_last.
      unfold onSecure. st_simpl. eexists. reflexivity.
    + intros evs.
      assert (Hinv : afterUpgrade config (history st') st').
      { rewrite Hst'. unfold afterUpgrade. st_simpl.
        split; [reflexivity|]. split; [apply allUpgraded_snoc, Hhs|].
        exists []. split; [reflexivity|]. split; [constructor | exact Hstep]. }
      destruct (runFrom_afterUpgrade rt config (history st') evs st' Hinv)
        as (_ & _ & added & Hh & Hall & Hfirst).
      exists added. split; [exact Hh|]. split; [exact Hall|].
      destruct (firstSent added); [right; now rewrite Hfirst | left; reflexivity].
  - intros Henc greeting Hgreet Herr. unfold feed. simpl fold_left.
    remember (processLine rt config greeting (start config)) as st1 eqn:Hst1.
    assert (Hfacts : currentStep st1 = step_stls
                     /\ history st1 = [Send Tcp true "STLS"; Line greeting]
                     /\ socket st1 = Tcp /\ resolved st1 = false
                     /\ settled st1 = None /\ destroyed st1 = []).
    { rewrite Hst1. unfold processLine, start, firstSocket. st_simpl.
      rewrite Hgreet, Henc. st_simpl. auto 10. }
    clear Hst1. destruct Hfacts as (F1 & F2 & F3 & F4 & F5 & F6).
    destruct (stls_err st1 line F1 Herr) as (H1 & H2 & H3 & _ & _ & H6).
    rewrite H6, H1, H2, H3, F2, F3, F4, F5, F6. auto.
Qed.

End StlsClaim.

(** Witness of C3: the sample STARTTLS session after the greeting. *)
Lemma C3_stls_reply_witness :
  let st := run Sample.runtime Sample.startTlsConfig
              [EvConnect; EvData Tcp (wire ["+OK POP3 ready"])] in
  socket (processLine Sample.runtime Sample.startTlsConfig "-ERR unknown command" st)
  = socket st
  /\ socket (processLine Sample.runtime Sample.startTlsConfig "+OK begin TLS" st)
     = StartTls (sockets st) (socket st).
Proof.
  pose proof (C3_stls_reply Sample.runtime Sample.startTlsConfig
                (run Sample.runtime Sample.startTlsConfig
                   [EvConnect; EvData Tcp (wire ["+OK POP3 ready"])])) as H.
  cbv zeta in H |- *. split.
  - destruct (H "-ERR unknown command") as ((_ & _ & H3 & _) & _).
    + vm_compute. reflexivity.
    + vm_compute. constructor.
    + reflexivity.
    + exact H3.
  - destruct (H "+OK begin TLS") as (_ & (H1 & _) & _).
    + vm_compute. reflexivity.
    + vm_compute. constructor.
    + reflexivity.
    + exact H1.
Defined.





Section Sequence.
Variable rt : Runtime.
Variable config : POP3EmailConfig.



End Sequence.

Section LastTen.
Variable rt : Runtime.
Variable config : POP3EmailConfig.



End LastTen.

(** *** The bounded loops never run out of turns *)

Lemma take_nonempty (k : nat) (s : string) : isEmpty (take k s) = false -> 0 < k.
Proof. destruct k; [destruct s; discriminate | lia]. Qed.

(** [replaceFrom] gives the same result for every bound above the length
    of the text: each turn continues on a strictly shorter text. *)
Lemma replaceFrom_bound (f : Regex.flags) (r : Regex.re)
    (fn : string -> Regex.caps -> string) (n : nat) :
  forall m prev s,
    String.length s < n -> String.length s < m ->
    Regex.replaceFrom f n r fn prev s = Regex.replaceFrom f m r fn prev s.
Proof.
  induction n as [|n IH]; intros m prev s Hn Hm; [lia|].
  destruct m as [|m]; [lia|]. simpl.
  destruct (Regex.matchHere f r prev s) as [[rest cs]|].
  - destruct (isEmpty (take (String.length s - String.length rest) s)) eqn:He.
    + destruct s as [|c s]; [reflexivity|].
      simpl in Hn, Hm. rewrite (IH m (Some c) s); [reflexivity | lia | lia].
    + apply take_nonempty in He.
      rewrite (IH m _ rest); [reflexivity | lia | lia].
  - destruct s as [|c s]; [reflexivity|].
    simpl in Hn, Hm. rewrite (IH m (Some c) s); [reflexivity | lia | lia].
Qed.

Lemma startsWith_length (p s : string) :
  startsWith p s = true -> String.length p <= String.length s.
Proof.
  revert s. induction p as [|a p IH]; intros [|c s]; simpl; try lia; try discriminate.
  intros H. apply andb_prop in H. destruct H as [_ H]. apply IH in H. lia.
Qed.

Lemma indexOf_bound (p s : string) : forall k,
  indexOf p s = Some k -> k + String.length p <= String.length s.
Proof.
  induction s as [|c s IH]; intros k; simpl.
  - destruct (startsWith p "") eqn:Hp; [|discriminate].
    intros [= <-]. apply startsWith_length in Hp. simpl in *. lia.
  - destruct (startsWith p (String c s)) eqn:Hp.
    + intros [= <-]. apply startsWith_length in Hp. simpl in *. lia.
    + destruct (indexOf p s) as [j|]; [|discriminate].
      intros [= <-]. specialize (IH j eq_refl). lia.
Qed.

Lemma drop_length (n : nat) : forall s,
  String.length (drop n s) = String.length s - n.
Proof.
  induction n as [|n IH]; intros [|c s]; simpl; try lia. apply IH.
Qed.

Section Turns.
Variable rt : Runtime.
Variable config : POP3EmailConfig.

Lemma processLine_dataBuffer (line : string) (st : state) :
  dataBuffer (processLine rt config line st) = dataBuffer st.
Proof.
  unfold processLine, parseEmailFromRaw, resolve. st_simpl.
  repeat break; reflexivity.
Qed.

(** [processLines] gives the same result for every number of turns from
    the length of the buffer on: each turn shortens the buffer. *)
Lemma processLines_bound (n : nat) : forall m st,
  String.length (dataBuffer st) <= n ->
  String.length (dataBuffer st) <= m ->
  processLines rt config n st = processLines rt config m st.
Proof.
  induction n as [|n IH]; intros m st Hn Hm.
  - destruct (dataBuffer st) eqn:Hb; [|simpl in Hn; lia].
    destruct m; simpl; [reflexivity|]. rewrite Hb. reflexivity.
  - destruct m as [|m].
    + destruct (dataBuffer st) eqn:Hb; [|simpl in Hm; lia].
      simpl. rewrite Hb. reflexivity.
    + simpl. destruct (indexOf CRLF (dataBuffer st)) as [lineEnd|] eqn:Hi;
        [|reflexivity].
      apply indexOf_bound in Hi. simpl in Hi.
      match goal with |- (if resolved ?s then _ else _) = _ =>
        assert (Hlen : String.length (dataBuffer s) < String.length (dataBuffer st))
      end.
      { rewrite processLine_dataBuffer. st_simpl. rewrite drop_length. lia. }
      match goal with |- (if resolved ?s then _ else _) = _ =>
        destruct (resolved s); [reflexivity | apply IH; lia]
      end.
Qed.

End Turns.

(** *** The close listener *)

Section Closing.
Variable rt : Runtime.
Variable config : POP3EmailConfig.











End Closing.


End Pop3Facts.

(* ================================================================== *)
(** ** Properties of the decoder and of the records *)

Module MimeFacts.
Import JS Regex Mime Pop3 Spec.

Lemma take_length (n : nat) : forall s, String.length (take n s) <= n.
Proof.
  induction n as [|n IH]; intros [|c s]; simpl; try lia.
  specialize (IH s). lia.
Qed.


Lemma truthy_nonempty (s : string) : truthy s = true <-> s <> "".
Proof.
  destruct s; cbv [truthy isEmpty negb]; split; intros H;
    try discriminate; try reflexivity.
  exfalso. apply H. reflexivity.
Qed.

Lemma trimStart_tight (s : string) : tight (trimStart s).
Proof.
  induction s as [|c s IH]; simpl; [exact I|].
  destruct (isSpace c) eqn:Hc; [exact IH | exact Hc].
Qed.

Lemma trimStart_of_tight (s : string) : tight s -> trimStart s = s.
Proof. destruct s as [|c s]; simpl; [reflexivity | now intros ->]. Qed.

Lemma trimEnd_tight (s : string) : tight s -> tight (trimEnd s).
Proof.
  destruct s as [|c s]; simpl; [trivial|]. intros Hc.
  rewrite Hc, andb_false_r. exact Hc.
Qed.

Lemma trimEnd_idem (s : string) : trimEnd (trimEnd s) = trimEnd s.
Proof.
  induction s as [|c s IH]; simpl; [reflexivity|].
  destruct (isEmpty (trimEnd s) && isSpace c) eqn:Hc; [reflexivity|].
  simpl. rewrite IH, Hc. reflexivity.
Qed.

Lemma trim_idem (s : string) : trim (trim s) = trim s.
Proof.
  unfold trim.
  rewrite (trimStart_of_tight (trimEnd (trimStart s)))
    by apply trimEnd_tight, trimStart_tight.
  apply trimEnd_idem.
Qed.

(** What the decoder returns is trimmed. *)
Lemma parseMIMEBody_trimmed (rt : Runtime) (rawBody : string) :
  trim (parseMIMEBody rt rawBody) = parseMIMEBody rt rawBody.
Proof.
  unfold parseMIMEBody, stripHtml, fallbackText.
  destruct (isEmpty rawBody); [reflexivity|].
  destruct (collectContent rt rawBody) as [textContent htmlContent].
  destruct (truthy textContent); [apply trim_idem|].
  destruct (truthy htmlContent); apply trim_idem.
Qed.

(** The body field made of a decoder result: at most 5000 characters, the
    placeholder for the empty result and the first 5000 characters of any
    other. *)
Lemma bodyField_spec (parsed : string) :
  String.length (bodyField parsed) <= 5000
  /\ (parsed = "" -> bodyField parsed = "(No content)")
  /\ (parsed <> "" -> bodyField parsed = take 5000 parsed /\ bodyField parsed <> "").
Proof.
  unfold bodyField, orElse. split; [|split].
  - destruct (truthy (take 5000 parsed)); [apply take_length|].
    apply Nat.leb_le. vm_compute. reflexivity.
  - intros ->. reflexivity.
  - intros Hne. destruct parsed as [|c s]; [congruence|].
    change (take 5000 (String c s)) with (String c (take 4999 s)).
    simpl. split; [reflexivity | discriminate].
Qed.

(** C8: the code at the failing input. The message declares the
    quoted-printable transfer encoding in its headers and its body is the
    escaped text [Caf=E9]. The decoder reads the content type and the
    transfer encoding from the header lines of the text it is given, and
    given the message it undoes the escape. The POP3 path and the IMAP path
    give it the text after the headers only, in which no encoding is
    declared, and the body field of the record is the raw text with the
    escape in it. *)
Theorem C8_raw_body_is_stored :
  let raw := Sample.quotedPrintableMessage in
  let decoded := String "C" (String "a" (String "f" (String (ascii_of_nat 233) ""))) in
  getHeader (headersOf raw) "Content-Transfer-Encoding" = "quoted-printable"
  /\ trim (rawBodyOf raw) = "Caf=E9"
  /\ parseMIMEBody Sample.runtime raw = decoded
  /\ Email.body (recordOfRaw Sample.runtime 0 raw) = "Caf=E9"
  /\ Email.body (Imap.messageEnd Sample.runtime [] (rawBodyOf raw)
                   (Imap.newEmail Sample.runtime 0)) = "Caf=E9".
Proof.
  cbv zeta. repeat split; vm_compute; reflexivity.
Qed.


Section Multipart.
Variable rt : Runtime.
Variable rawBody : string.



End Multipart.


Section Dates.
Variable rt : Runtime.

(** C6, as amended: on the IMAP path the date field is the ISO-8601
    rendering of the Date header when the header parses as a date, and the
    header value as received when it does not; on both paths a record
    whose block has no Date header gets the current time in ISO-8601
    form. *)
Theorem C6_date_field (tick : nat) (h : Imap.headers) (bodyBuffer raw : string) :
  let imap := Imap.messageEnd rt h bodyBuffer (Imap.newEmail rt tick) in
  let now := toISOString rt (Z.of_N (Date_now rt tick)) in
  (forall t, truthy (Imap.field "date" h) = true ->
             Date_parse rt (Imap.field "date" h) = Some t ->
             Email.date imap = toISOString rt t)
  /\ (truthy (Imap.field "date" h) = true ->
      Date_parse rt (Imap.field "date" h) = None ->
      Email.date imap = Imap.field "date" h)
  /\ (truthy (Imap.field "date" h) = false -> Email.date imap = now)
  /\ (getHeader (headersOf raw) "Date" = "" ->
      Email.date (recordOfRaw rt tick raw) = now).
Proof.
  cbv zeta. unfold Imap.messageEnd, Imap.convertDate, Imap.newEmail, recordOfRaw,
    nowISO. cbn [Email.date].
  split; [|split; [|split]].
  - intros t -> ->. reflexivity.
  - intros -> ->. reflexivity.
  - intros ->. reflexivity.
  - intros ->. reflexivity.
Qed.

End Dates.

(** C6, counterexample: a message retrieved over POP3 keeps the text of
    its Date header, which is not an ISO-8601 string; and on the IMAP path
    a Date header that does not parse as a date is kept as it is, not
    replaced by the current time. *)
Lemma C6_date_is_not_always_iso :
  (Email.date (recordOfRaw Sample.runtime 0 Sample.quotedPrintableMessage)
   = "Mon, 1 Jan 2024 10:00:00 +0000"
   /\ isISO8601 (Email.date (recordOfRaw Sample.runtime 0 Sample.quotedPrintableMessage))
      = false)
  /\ (Date_parse Sample.runtime "not a date" = None
      /\ Email.date (Sample.imapRecord "not a date") = "not a date"
      /\ isISO8601 (Email.date (Sample.imapRecord "not a date")) = false).
Proof.
  split; [split | split; [|split]]; vm_compute; reflexivity.
Qed.

(** Witness of C6: a Date header the runtime does not parse. *)
Lemma C6_date_field_witness :
  Email.date (Imap.messageEnd Sample.runtime [("date", "not a date")] "Hello"
                (Imap.newEmail Sample.runtime 0))
  = Imap.field "date" [("date", "not a date")].
Proof.
  refine (proj1 (proj2 (C6_date_field Sample.runtime 0 [("date", "not a date")]
                          "Hello" "")) _ _); reflexivity.
Defined.

End MimeFacts.

(* ================================================================== *)
(** ** Properties of the matcher *)

Module RegexFacts.
Import JS Regex Mime Spec More.

Lemma hasChar_cons (x c : ascii) (s : string) :
  hasChar x (String c s) = false -> Ascii.eqb x c = false /\ hasChar x s = false.
Proof. simpl. intros H. apply orb_false_elim in H. exact H. Qed.

Section Required.
Variable f : flags.
Variable x : ascii.
Hypothesis same_x : forall c, sameChar f x c = true -> c = x.

Section Continuations.
Variable X : Type.


Lemma lit_needs (p : string) (k : cont X) :
  hasChar x p = true -> fails x (lit f X p k).
Proof.
  induction p as [|a p IH]; [discriminate|].
  intros Hp prev s cs Hs. destruct s as [|c s]; [reflexivity|].
  apply hasChar_cons in Hs. destruct Hs as [Hc Hs]. simpl.
  destruct (sameChar f a c) eqn:Hac; [|reflexivity].
  simpl in Hp. destruct (Ascii.eqb_spec x a) as [<-|Hne].
  - apply same_x in Hac. subst c. rewrite Ascii.eqb_refl in Hc. discriminate.
  - simpl in Hp. apply (IH Hp). exact Hs.
Qed.

Lemma lit_fails (p : string) (k : cont X) : fails x k -> fails x (lit f X p k).
Proof.
  intros Hk. induction p as [|a p IH]; intros prev s cs Hs; simpl.
  - apply Hk, Hs.
  - destruct s as [|c s]; [reflexivity|].
    apply hasChar_cons in Hs. destruct (sameChar f a c); [|reflexivity].
    apply IH. tauto.
Qed.

Lemma starGreedy_fails (cl : cset) (k : cont X) :
  fails x k -> fails x (starGreedy f X cl k).
Proof.
  intros Hk prev s. revert prev.
  induction s as [|c s IH]; intros prev cs Hs; simpl; [apply Hk, Hs|].
  pose proof (hasChar_cons _ _ _ Hs) as [_ Hs'].
  destruct (mem f cl c); [|apply Hk, Hs].
  rewrite (IH (Some c) cs Hs'). apply Hk, Hs.
Qed.

Lemma starLazy_fails (cl : cset) (k : cont X) :
  fails x k -> fails x (starLazy f X cl k).
Proof.
  intros Hk prev s. revert prev.
  induction s as [|c s IH]; intros prev cs Hs; simpl; rewrite (Hk _ _ _ Hs);
    [reflexivity|].
  pose proof (hasChar_cons _ _ _ Hs) as [_ Hs'].
  destruct (mem f cl c); [apply IH, Hs' | reflexivity].
Qed.

Lemma run_fails (r : re) : forall k : cont X, fails x k -> fails x (run f X r k).
Proof.
  induction r as [p|cl|cl|cl|a IHa b IHb|a IHa|i a IHa| |]; intros k Hk; simpl.
  - apply lit_fails, Hk.
  - intros prev [|c s] cs Hs; [reflexivity|].
    apply hasChar_cons in Hs. destruct (mem f cl c); [apply Hk; tauto | reflexivity].
  - apply starGreedy_fails, Hk.
  - apply starLazy_fails, Hk.
  - apply IHa, IHb, Hk.
  - intros prev s cs Hs. rewrite (IHa k Hk _ _ _ Hs). apply Hk, Hs.
  - intros prev s cs Hs. apply IHa; [|exact Hs].
    intros prev' s' cs' Hs'. apply Hk, Hs'.
  - intros prev s cs Hs. destruct (atBol f prev); [apply Hk, Hs | reflexivity].
  - intros prev s cs Hs. destruct (atEol f s); [apply Hk, Hs | reflexivity].
Qed.

Lemma run_requires (r : re) : forall k : cont X,
  requires x r = true -> fails x (run f X r k).
Proof.
  induction r as [p|cl|cl|cl|a IHa b IHb|a IHa|i a IHa| |]; intros k Hr;
    simpl in Hr; try discriminate; simpl.
  - apply lit_needs, Hr.
  - apply orb_prop in Hr. destruct Hr as [Hr|Hr].
    + apply IHa, Hr.
    + apply run_fails, IHb, Hr.
  - intros prev s cs Hs. apply IHa; assumption.
Qed.

End Continuations.

Lemma matchHere_requires (r : re) (prev : option ascii) (s : string) :
  requires x r = true -> hasChar x s = false -> matchHere f r prev s = None.
Proof. intros Hr Hs. unfold matchHere. apply run_requires; assumption. Qed.

(** An expression that requires [x] matches nowhere in a text without it. *)
Lemma exec_requires (r : re) (s : string) :
  requires x r = true -> hasChar x s = false -> exec f r s = None.
Proof.
  intros Hr. unfold exec. generalize 0 (@None ascii).
  induction s as [|c s IH]; intros i prev Hs; simpl;
    rewrite (matchHere_requires r prev _ Hr Hs); [reflexivity|].
  apply hasChar_cons in Hs. apply IH. tauto.
Qed.

(** ... and replacing its matches leaves that text as it is. *)
Lemma replace_requires (r : re) (fn : string -> caps -> string) (s : string) :
  requires x r = true -> hasChar x s = false -> replaceAllWith f r fn s = s.
Proof.
  intros Hr. unfold replaceAllWith. generalize (S (String.length s)) (@None ascii).
  intros n. revert s.
  induction n as [|n IH]; intros s prev Hs; simpl; [reflexivity|].
  rewrite (matchHere_requires r prev _ Hr Hs).
  destruct s as [|c s]; [reflexivity|].
  apply hasChar_cons in Hs. rewrite IH; [reflexivity | tauto].
Qed.

End Required.

Section Steady.
Variable f : flags.

Section Continuations.
Variable X : Type.


Lemma lit_steady (p : string) (k : cont X) : steady k -> steady (lit f X p k).
Proof.
  intros Hk p1 p2 s cs. destruct p as [|a p]; simpl; [apply Hk|].
  destruct s; reflexivity.
Qed.

Lemma starGreedy_steady (cl : cset) (k : cont X) :
  steady k -> steady (starGreedy f X cl k).
Proof.
  intros Hk p1 p2 s cs. destruct s as [|c s]; simpl; [apply Hk|].
  destruct (mem f cl c); [|apply Hk].
  destruct (starGreedy f X cl k (Some c) s cs); [reflexivity | apply Hk].
Qed.

Lemma starLazy_steady (cl : cset) (k : cont X) :
  steady k -> steady (starLazy f X cl k).
Proof.
  intros Hk p1 p2 s cs. destruct s as [|c s]; simpl; rewrite (Hk p1 p2);
    reflexivity.
Qed.

Lemma run_steady (r : re) : forall k : cont X,
  noBol r = true -> steady k -> steady (run f X r k).
Proof.
  induction r as [p|cl|cl|cl|a IHa b IHb|a IHa|i a IHa| |]; intros k Hr Hk;
    simpl in Hr; try discriminate; simpl.
  - apply lit_steady, Hk.
  - intros p1 p2 [|c s] cs; reflexivity.
  - apply starGreedy_steady, Hk.
  - apply starLazy_steady, Hk.
  - apply andb_prop in Hr. destruct Hr as [Ha Hb]. apply IHa; [exact Ha|].
    apply IHb; assumption.
  - intros p1 p2 s cs. rewrite (IHa k Hr Hk p1 p2), (Hk p1 p2). reflexivity.
  - intros p1 p2 s cs. apply IHa; [exact Hr|].
    intros q1 q2 s' cs'. apply Hk.
  - intros p1 p2 s cs. rewrite (Hk p1 p2). reflexivity.
Qed.

End Continuations.

Lemma matchHere_steady (r : re) (p1 p2 : option ascii) (s : string) :
  noBol r = true -> matchHere f r p1 s = matchHere f r p2 s.
Proof.
  intros Hr. unfold matchHere. apply run_steady; [exact Hr|].
  intros q1 q2 s' cs'. reflexivity.
Qed.

Lemma replaceFrom_steady (r : re) (fn : string -> caps -> string) (n : nat) :
  noBol r = true ->
  forall p1 p2 s, replaceFrom f n r fn p1 s = replaceFrom f n r fn p2 s.
Proof.
  intros Hr. induction n as [|n IH]; intros p1 p2 s; simpl; [reflexivity|].
  rewrite (matchHere_steady r p1 p2 s Hr).
  destruct (matchHere f r p2 s) as [[rest cs]|]; [|reflexivity].
  destruct (isEmpty (take (String.length s - String.length rest) s)); [reflexivity|].
  f_equal. apply IH.
Qed.

Lemma replaceFrom_turn (r : re) (fn : string -> caps -> string) (n : nat)
    (prev : option ascii) (s : string) :
  replaceFrom f (S n) r fn prev s
  = match matchHere f r prev s with
    | Some (rest, cs) =>
        let m := take (String.length s - String.length rest) s in
        if isEmpty m then
          match s with
          | "" => fn m cs
          | String c s' => fn m cs ++ String c (replaceFrom f n r fn (Some c) s')
          end
        else fn m cs ++ replaceFrom f n r fn (lastChar prev m) rest
    | None =>
        match s with
        | "" => ""
        | String c s' => String c (replaceFrom f n r fn (Some c) s')
        end
    end.
Proof. reflexivity. Qed.

(** A global replacement, one character at a time: a character at which
    the expression does not match is copied. *)
Lemma replace_copy (r : re) (fn : string -> caps -> string) (c : ascii) (s : string) :
  noBol r = true ->
  matchHere f r None (String c s) = None ->
  replaceAllWith f r fn (String c s) = String c (replaceAllWith f r fn s).
Proof.
  intros Hr Hm. unfold replaceAllWith.
  change (String.length (String c s)) with (S (String.length s)).
  rewrite replaceFrom_turn, Hm.
  f_equal. apply replaceFrom_steady, Hr.
Qed.

(** ... and a non-empty match is replaced, the scan going on after it. *)
Lemma replace_match (r : re) (fn : string -> caps -> string) (s rest : string)
    (cs : caps) :
  noBol r = true ->
  matchHere f r None s = Some (rest, cs) ->
  String.length rest < String.length s ->
  replaceAllWith f r fn s
  = fn (take (String.length s - String.length rest) s) cs
    ++ replaceAllWith f r fn rest.
Proof.
  intros Hr Hm Hlen. unfold replaceAllWith. rewrite replaceFrom_turn, Hm.
  cbv zeta.
  assert (He : isEmpty (take (String.length s - String.length rest) s) = false).
  { destruct s as [|c s]; [simpl in Hlen; lia|].
    destruct (String.length (String c s) - String.length rest) eqn:Hk;
      [lia | reflexivity]. }
  rewrite He. f_equal.
  rewrite (Pop3Facts.replaceFrom_bound f r fn (String.length s)
             (S (String.length rest)) _ rest) by lia.
  apply replaceFrom_steady, Hr.
Qed.

End Steady.

End RegexFacts.
(* ================================================================== *)
(** ** Further properties of the decoders *)

Module DecoderFacts.
Import JS Regex Mime Spec More MimeFacts RegexFacts.

Ltac all_chars c :=
  let b0 := fresh in let b1 := fresh in let b2 := fresh in let b3 := fresh in
  let b4 := fresh in let b5 := fresh in let b6 := fresh in let b7 := fresh in
  destruct c as [b0 b1 b2 b3 b4 b5 b6 b7];
  destruct b0, b1, b2, b3, b4, b5, b6, b7.

Lemma caseless_equals : caseless "=".
Proof.
  intros c. all_chars c; vm_compute; intros H; first [discriminate H | reflexivity].
Qed.

Lemma caseless_at : caseless "@".
Proof.
  intros c. all_chars c; vm_compute; intros H; first [discriminate H | reflexivity].
Qed.

Lemma caseless_colon : caseless ":".
Proof.
  intros c. all_chars c; vm_compute; intros H; first [discriminate H | reflexivity].
Qed.

Lemma same_caseless (x : ascii) : caseless x ->
  forall c, sameChar flag_i x c = true -> c = x.
Proof. intros Hx c H. apply Hx. exact H. Qed.

Lemma same_exact (x : ascii) : forall c, sameChar noFlags x c = true -> c = x.
Proof. intros c H. symmetry. apply Ascii.eqb_eq. exact H. Qed.

Lemma same_equals_i (c : ascii) : sameChar flag_i "=" c = Ascii.eqb "=" c.
Proof. all_chars c; vm_compute; reflexivity. Qed.

(** *** Quoted-printable *)

Lemma escape_shape (up : bool) (c : ascii) :
  exists h1 h2,
    escapeOf up c = String "=" (String h1 (String h2 ""))
    /\ mem flag_i hexDigit h1 = true /\ mem flag_i hexDigit h2 = true
    /\ fromHex2 (String h1 (String h2 "")) = String c ""
    /\ Ascii.eqb "=" h1 = false /\ Ascii.eqb "=" h2 = false
    /\ Ascii.eqb CR h1 = false.
Proof.
  destruct up; all_chars c;
    (eexists; eexists; split; [vm_compute; reflexivity|];
     repeat split; vm_compute; reflexivity).
Qed.

Lemma sub_two (n : nat) : S (S n) - n = 2.
Proof. lia. Qed.

Lemma hexEscape_here (prev : option ascii) (h1 h2 : ascii) (s : string) :
  mem flag_i hexDigit h1 = true -> mem flag_i hexDigit h2 = true ->
  matchHere flag_i reHexEscape prev (String "=" (String h1 (String h2 s)))
  = Some (s, [(1, String h1 (String h2 ""))]).
Proof.
  intros H1 H2. unfold matchHere, reHexEscape, cat.
  cbn [fold_right Regex.run Regex.lit].
  change (sameChar flag_i "=" "=") with true. cbv iota.
  rewrite H1, H2. cbn [String.length]. rewrite sub_two. reflexivity.
Qed.

Lemma hexEscape_not_here (prev : option ascii) (c : ascii) (s : string) :
  Ascii.eqb "=" c = false ->
  matchHere flag_i reHexEscape prev (String c s) = None.
Proof.
  intros Hc. unfold matchHere, reHexEscape, cat.
  cbn [fold_right Regex.run Regex.lit]. rewrite same_equals_i, Hc. reflexivity.
Qed.

Lemma softBreak_not_here (prev : option ascii) (c : ascii) (s : string) :
  Ascii.eqb "=" c = false -> matchHere noFlags softBreak prev (String c s) = None.
Proof.
  intros Hc. unfold matchHere, softBreak. cbn [append Regex.run Regex.lit].
  unfold sameChar. cbn [ignoreCase noFlags]. rewrite Hc. reflexivity.
Qed.

Lemma softBreak_not_escape (prev : option ascii) (h : ascii) (s : string) :
  Ascii.eqb CR h = false ->
  matchHere noFlags softBreak prev (String "=" (String h s)) = None.
Proof.
  intros Hh. unfold matchHere, softBreak. cbn [append Regex.run Regex.lit CRLF].
  unfold sameChar. cbn [ignoreCase noFlags].
  change (Ascii.eqb "=" "=") with true. cbv iota. rewrite Hh. reflexivity.
Qed.

Section RoundTrip.
Variable keep upper : ascii -> bool.
Hypothesis equals_escaped : keep "=" = false.

Lemma kept_is_not_equals (c : ascii) : keep c = true -> Ascii.eqb "=" c = false.
Proof.
  intros Hk. destruct (Ascii.eqb_spec "="%char c) as [<-|]; [|reflexivity].
  congruence.
Qed.

Lemma softBreaks_none (s : string) :
  replaceAll noFlags softBreak "" (qpEncode keep upper s) = qpEncode keep upper s.
Proof.
  unfold replaceAll. induction s as [|c s IH]; [reflexivity|]. simpl qpEncode.
  destruct (keep c) eqn:Hk.
  - simpl append. rewrite replace_copy, IH;
      [reflexivity | reflexivity | apply softBreak_not_here, kept_is_not_equals, Hk].
  - destruct (escape_shape (upper c) c) as (h1 & h2 & -> & _ & _ & _ & E1 & E2 & E3).
    simpl append.
    rewrite replace_copy by (try reflexivity; apply softBreak_not_escape, E3).
    rewrite replace_copy by (try reflexivity; apply softBreak_not_here, E1).
    rewrite replace_copy by (try reflexivity; apply softBreak_not_here, E2).
    rewrite IH. reflexivity.
Qed.

Lemma escapes_decoded (s : string) : unescapeHex (qpEncode keep upper s) = s.
Proof.
  unfold unescapeHex. induction s as [|c s IH]; [reflexivity|]. simpl qpEncode.
  destruct (keep c) eqn:Hk.
  - simpl append. rewrite replace_copy, IH;
      [reflexivity | reflexivity | apply hexEscape_not_here, kept_is_not_equals, Hk].
  - destruct (escape_shape (upper c) c) as (h1 & h2 & -> & M1 & M2 & Hc & _).
    simpl append.
    rewrite (replace_match flag_i reHexEscape _ _ (qpEncode keep upper s)
               [(1, String h1 (String h2 ""))]);
      [ | reflexivity | apply hexEscape_here; assumption | simpl; lia ].
    rewrite IH. cbn [group Nat.eqb]. rewrite Hc. reflexivity.
Qed.

(** Decoding undoes every quoted-printable encoding that escapes at least
    the equals sign, whatever else it escapes and in whichever case it
    writes the hexadecimal digits. *)
Theorem quotedPrintable_round_trip (s : string) :
  decodeQuotedPrintable (qpEncode keep upper s) = s.
Proof.
  unfold decodeQuotedPrintable.
  destruct (isEmpty (qpEncode keep upper s)) eqn:He.
  - destruct s as [|c s]; [reflexivity|]. simpl in He.
    destruct (keep c); [discriminate|].
    destruct (escape_shape (upper c) c) as (h1 & h2 & Hs & _).
    rewrite Hs in He. discriminate.
  - fold softBreak. rewrite softBreaks_none. apply escapes_decoded.
Qed.

End RoundTrip.

(** Witness: the RFC 2045 choice, which keeps the printable characters
    other than the equals sign. *)
Lemma quotedPrintable_round_trip_witness :
  decodeQuotedPrintable
    (qpEncode (fun c => between 32 126 c && negb (Ascii.eqb c "="))
              (fun _ => true) ("Caf" ++ String "233"%char " = 100%"))
  = "Caf" ++ String "233"%char " = 100%".
Proof.
  apply (quotedPrintable_round_trip
           (fun c => between 32 126 c && negb (Ascii.eqb c "=")) (fun _ => true)).
  reflexivity.
Defined.

(** *** Texts the decoders leave alone *)

(** A header value without an equals sign holds no encoded word and is
    returned as it is. *)
Theorem decodeMimeWord_plain (rt : Runtime) (str : string) :
  hasChar "=" str = false -> decodeMimeWord rt str = str.
Proof.
  intros H. unfold decodeMimeWord. destruct (isEmpty str) eqn:He.
  - destruct str; [reflexivity | discriminate].
  - cbv zeta.
    rewrite (replace_requires flag_i "=" (same_caseless "=" caseless_equals)
               reWordB _ str eq_refl H).
    rewrite (replace_requires flag_i "=" (same_caseless "=" caseless_equals)
               (reWordQ "UTF-8") _ str eq_refl H).
    apply (replace_requires flag_i "=" (same_caseless "=" caseless_equals)
             (reWordQ "ISO-8859-1") _ str eq_refl H).
Qed.

Lemma decodeMimeWord_plain_witness :
  decodeMimeWord Sample.runtime "Weekly report" = "Weekly report".
Proof. apply decodeMimeWord_plain. reflexivity. Defined.

(** A From or To value without an at sign holds no address: it is used as
    both the name and the address (the empty value gives two empty
    fields). *)
Theorem parseEmailAddress_without_address (header : string) :
  hasChar "@" header = false ->
  parseEmailAddress header = {| name := header; email := header |}.
Proof.
  intros H. unfold parseEmailAddress. destruct (isEmpty header) eqn:He.
  - destruct header; [reflexivity | discriminate].
  - rewrite !(exec_requires flag_i "@" (same_caseless "@" caseless_at))
      by first [reflexivity | exact H].
    reflexivity.
Qed.

Lemma parseEmailAddress_without_address_witness :
  parseEmailAddress "undisclosed-recipients:;"
  = {| name := "undisclosed-recipients:;"; email := "undisclosed-recipients:;" |}.
Proof. apply parseEmailAddress_without_address. reflexivity. Defined.

(** A body without any colon has no header field the decoder could
    recognise. It is taken as 7bit text/plain: the decoder returns, trimmed,
    the text after the first blank line that is not at the very start, or
    the whole text when there is no such blank line; when that text is
    empty it returns the cleaned raw text. *)
Theorem parseMIMEBody_plain_text (rt : Runtime) (rawBody : string) :
  hasChar ":" rawBody = false ->
  rawBody <> "" ->
  parseMIMEBody rt rawBody
  = if truthy (bodyOf rawBody) then trim (bodyOf rawBody) else fallbackText rawBody.
Proof.
  intros H Hne. unfold parseMIMEBody, collectContent, decodeBody, contentTypeOf,
    encodingOf.
  destruct rawBody as [|c s]; [congruence|]. cbn [isEmpty].
  rewrite !(exec_requires flag_i ":" (same_caseless ":" caseless_colon))
    by first [reflexivity | exact H].
  reflexivity.
Qed.

Lemma parseMIMEBody_plain_text_witness :
  parseMIMEBody Sample.runtime (wire ["Dear Bob,"; ""; "see you at 10"])
  = "see you at 10".
Proof.
  rewrite parseMIMEBody_plain_text; [vm_compute; reflexivity | reflexivity |].
  discriminate.
Defined.

(** *** Base64 *)

Lemma space_class (c : ascii) : mem noFlags sp c = isSpace c.
Proof.
  unfold mem, sp, itemMatches. cbn [existsb itemHas ignoreCase noFlags andb].
  rewrite !orb_false_r. reflexivity.
Qed.

Lemma spaces_removed (s : string) :
  replaceAll noFlags (One sp) "" s = stripSpaces s.
Proof.
  unfold replaceAll. induction s as [|c s IH]; [reflexivity|]. simpl stripSpaces.
  destruct (isSpace c) eqn:Hc.
  - rewrite (replace_match noFlags (One sp) _ (String c s) s []);
      [ exact IH | reflexivity | | simpl; lia ].
    unfold matchHere. cbn [Regex.run]. rewrite space_class, Hc. reflexivity.
  - rewrite replace_copy, IH; [reflexivity | reflexivity |].
    unfold matchHere. cbn [Regex.run]. rewrite space_class, Hc. reflexivity.
Qed.

(** White space inside a base64 body, line breaks included, does not
    count: two non-empty bodies that differ only in white space decode
    alike. *)
Theorem decodeBase64_ignores_spaces (rt : Runtime) (s1 s2 charset : string) :
  s1 <> "" -> s2 <> "" ->
  stripSpaces s1 = stripSpaces s2 ->
  decodeBase64 rt s1 charset = decodeBase64 rt s2 charset.
Proof.
  intros H1 H2 Heq. unfold decodeBase64.
  destruct s1; [congruence|]. destruct s2; [congruence|]. cbn [isEmpty].
  rewrite !spaces_removed, Heq. reflexivity.
Qed.

Lemma decodeBase64_ignores_spaces_witness :
  decodeBase64 Sample.runtime (wire ["SGVs"; "bG8="]) "utf-8"
  = decodeBase64 Sample.runtime "SGVsbG8=" "utf-8".
Proof.
  apply decodeBase64_ignores_spaces; [discriminate | discriminate |].
  vm_compute. reflexivity.
Defined.

(** *** Records *)

Lemma orElse_nonempty (s d : string) : d <> "" -> orElse s d <> "".
Proof.
  unfold orElse. destruct (truthy s) eqn:Hs; [|trivial].
  intros _. apply truthy_nonempty. exact Hs.
Qed.

(** Every record of the POP3 path has a sender name, a subject and a body
    that are not empty, is marked read and is not starred. *)
Theorem pop3_record_is_filled (rt : Runtime) (tick : nat) (raw : string) :
  let e := recordOfRaw rt tick raw in
  Email.from e <> "" /\ Email.subject e <> "" /\ Email.body e <> ""
  /\ Email.read e = true /\ Email.starred e = false.
Proof.
  cbv zeta. unfold recordOfRaw. cbn [Email.from Email.subject Email.body
                                      Email.read Email.starred].
  repeat split; try (apply orElse_nonempty; discriminate).
Qed.

(** On the IMAP path every message gives exactly one record, whatever its
    headers: the subject is never empty, so the test that guards the push
    never fails; the body is never empty either. *)
Theorem imap_message_is_pushed (rt : Runtime) (tick : nat)
    (headerBuffer textBuffer : string) (emails : list Email.t) :
  exists e,
    Imap.message rt tick headerBuffer textBuffer emails = (emails ++ [e])%list
    /\ Email.subject e <> "" /\ Email.body e <> "".
Proof.
  unfold Imap.message.
  set (e := Imap.messageEnd rt (Imap.headerFields headerBuffer []) textBuffer
              (Imap.newEmail rt tick)).
  assert (Hs : Email.subject e <> "").
  { unfold e, Imap.messageEnd. cbn [Email.subject].
    destruct (truthy (Imap.field "subject" _));
      [apply orElse_nonempty; discriminate | discriminate]. }
  exists e. split; [|split; [exact Hs|]].
  - apply truthy_nonempty in Hs. rewrite Hs. reflexivity.
  - unfold e, Imap.messageEnd. cbn [Email.body]. apply orElse_nonempty. discriminate.
Qed.

End DecoderFacts.
(* ================================================================== *)
(** ** Further properties of the POP3 session *)

Module SessionFacts.
Import JS Regex Mime Pop3 Spec Invariant More Pop3Facts.

(** *** Lines *)

Lemma indexOf_cons (p : string) (c : ascii) (s : string) :
  indexOf p (String c s)
  = if startsWith p (String c s) then Some 0 else option_map S (indexOf p s).
Proof. reflexivity. Qed.

Lemma startsWith_CRLF (c : ascii) (s : string) :
  startsWith CRLF (String c s)
  = Ascii.eqb CR c && match s with String d _ => Ascii.eqb LF d | "" => false end.
Proof.
  unfold CRLF. cbn [startsWith]. destruct s as [|d s]; [reflexivity|].
  rewrite andb_true_r. reflexivity.
Qed.

Lemma indexOf_line (line rest : string) :
  lineOK line -> indexOf CRLF (line ++ CRLF ++ rest) = Some (String.length line).
Proof.
  unfold lineOK. induction line as [|c line IH]; intros H; [reflexivity|].
  rewrite indexOf_cons, startsWith_CRLF in H.
  change ((String c line ++ CRLF ++ rest)) with (String c (line ++ CRLF ++ rest)).
  rewrite indexOf_cons, startsWith_CRLF.
  destruct (Ascii.eqb CR c) eqn:Hc; cbn [andb] in H |- *.
  - destruct line as [|d line].
    + reflexivity.
    + cbn [append]. destruct (Ascii.eqb LF d); [discriminate|].
      destruct (indexOf CRLF (String d line)); [discriminate|].
      change (String d (line ++ CRLF ++ rest)) with (String d line ++ CRLF ++ rest).
      rewrite (IH eq_refl). reflexivity.
  - destruct (indexOf CRLF line); [discriminate|].
    rewrite (IH eq_refl). reflexivity.
Qed.

Lemma take_line (line rest : string) : take (String.length line) (line ++ rest) = line.
Proof. induction line as [|c line IH]; simpl; [destruct rest|]; congruence. Qed.

Lemma drop_line (line rest : string) :
  drop (String.length line + 2) (line ++ CRLF ++ rest) = rest.
Proof. induction line as [|c line IH]; simpl; [reflexivity | exact IH]. Qed.

Lemma length_append (a b : string) :
  String.length (a ++ b) = String.length a + String.length b.
Proof. induction a as [|c a IH]; simpl; [reflexivity | now rewrite IH]. Qed.

Lemma wire_length (lines : list string) :
  List.length lines <= String.length (wire lines).
Proof.
  induction lines as [|l lines IH]; simpl; [lia|].
  rewrite !length_append. simpl. lia.
Qed.

Lemma wire_cons (l : string) (lines : list string) (tail : string) :
  wire (l :: lines) ++ tail = l ++ CRLF ++ (wire lines ++ tail).
Proof.
  unfold wire. cbn [fold_right].
  rewrite Pop3Facts.append_assoc, Pop3Facts.append_assoc. reflexivity.
Qed.

Section Chunks.
Variable rt : Runtime.
Variable config : POP3EmailConfig.

Lemma processLine_buffer (b line : string) (st : state) :
  processLine rt config line (set_dataBuffer b st)
  = set_dataBuffer b (processLine rt config line st).
Proof.
  unfold processLine, parseEmailFromRaw, resolve. st_simpl.
  repeat break; reflexivity.
Qed.

Lemma processLine_stays_resolved (line : string) (st : state) :
  resolved st = true -> resolved (processLine rt config line st) = true.
Proof.
  unfold processLine, parseEmailFromRaw, resolve. st_simpl. intros H.
  repeat break; auto.
Qed.

Lemma feed_stays_resolved (lines : list string) : forall st,
  resolved st = true -> resolved (feed rt config st lines) = true.
Proof.
  induction lines as [|l lines IH]; intros st H; [exact H|].
  apply IH, processLine_stays_resolved, H.
Qed.

Lemma feed_buffer (b : string) (lines : list string) : forall st,
  feed rt config (set_dataBuffer b st) lines
  = set_dataBuffer b (feed rt config st lines).
Proof.
  induction lines as [|l lines IH]; intros st; [reflexivity|].
  unfold feed in *. simpl. rewrite processLine_buffer. apply IH.
Qed.

Lemma processLines_feed (lines : list string) : forall st turns tail,
  Forall lineOK lines ->
  lineOK tail ->
  dataBuffer st = wire lines ++ tail ->
  List.length lines <= turns ->
  resolved (feed rt config st lines) = false ->
  processLines rt config turns st = set_dataBuffer tail (feed rt config st lines).
Proof.
  induction lines as [|l lines IH]; intros st turns tail Hall Htail Hbuf Hturns Hres.
  - simpl in Hbuf. unfold feed. simpl.
    assert (Hst : st = set_dataBuffer tail st).
    { destruct st. unfold set_dataBuffer. st_simpl_all. subst. reflexivity. }
    destruct turns; simpl; [exact Hst|].
    rewrite Hbuf, Htail. exact Hst.
  - inversion Hall as [|? ? Hl Hrest]; subst.
    change (feed rt config st (l :: lines))
      with (feed rt config (processLine rt config l st) lines) in Hres |- *.
    destruct turns as [|turns]; [simpl in Hturns; lia|].
    cbn [processLines]. rewrite Hbuf, wire_cons, (indexOf_line l _ Hl).
    rewrite take_line, drop_line, processLine_buffer. st_simpl.
    assert (Hr : resolved (processLine rt config l st) = false).
    { destruct (resolved (processLine rt config l st)) eqn:E; [|reflexivity].
      rewrite (feed_stays_resolved lines _ E) in Hres. discriminate. }
    rewrite Hr.
    rewrite (IH _ turns tail Hrest Htail); [ | reflexivity | simpl in Hturns; lia | ].
    + rewrite feed_buffer. reflexivity.
    + rewrite feed_buffer. exact Hres.
Qed.

(** A data event on a socket the session listens to, while it is
    unresolved: the lines completed by the chunk are handed to
    [processLine] in order and the unfinished rest stays in the buffer. *)
Theorem data_is_cut_into_lines (st : state) (h : handle) (chunk : string)
    (lines : list string) (tail : string) :
  memHandle h (listeners st) = true ->
  resolved st = false ->
  Forall lineOK lines ->
  lineOK tail ->
  dataBuffer st ++ chunk = wire lines ++ tail ->
  let st1 := log ("<<< " ++ take 300 chunk
                  ++ (if (300 <? String.length chunk)%nat then "..." else "")) st in
  resolved (feed rt config st1 lines) = false ->
  deliver rt config st (EvData h chunk)
  = set_dataBuffer tail (feed rt config st1 lines).
Proof.
  intros Hh Hres Hall Htail Hbuf st1 Hfeed.
  unfold deliver. rewrite Hh. unfold onData. rewrite Hres.
  unfold processResponse. fold st1.
  change (dataBuffer st1) with (dataBuffer st). st_simpl.
  rewrite (processLines_feed lines _ _ tail Hall Htail).
  - rewrite feed_buffer. reflexivity.
  - st_simpl. exact Hbuf.
  - rewrite Hbuf, length_append. pose proof (wire_length lines). lia.
  - rewrite feed_buffer. exact Hfeed.
Qed.

End Chunks.

(** Witness: the end of a message and the start of the next line arrive
    in one chunk, after half a line. *)
Lemma data_is_cut_into_lines_witness :
  let st := run Sample.runtime Sample.plainConfig
              (Sample.login ["1 120"] ++ [EvData Tcp "Subject: he"]) in
  dataBuffer (deliver Sample.runtime Sample.plainConfig st
                (EvData Tcp (wire ["llo"; ""; "Hi there"] ++ "By")))
  = "By".
Proof.
  cbv zeta.
  rewrite (data_is_cut_into_lines Sample.runtime Sample.plainConfig _ Tcp _
             ["Subject: hello"; ""; "Hi there"] "By").
  - reflexivity.
  - vm_compute. reflexivity.
  - vm_compute. reflexivity.
  - repeat constructor.
  - reflexivity.
  - vm_compute. reflexivity.
  - vm_compute. reflexivity.
Defined.

(** *** Ways a session ends *)

Section Endings.
Variable rt : Runtime.
Variable config : POP3EmailConfig.

Lemma processLine_armed (line : string) (st : state) :
  armed st -> armed (processLine rt config line st).
Proof.
  unfold armed, processLine, parseEmailFromRaw, resolve. st_simpl. intros H.
  repeat break; intros; st_simpl_all; try congruence; solve [auto | intuition congruence].
Qed.

Lemma deliver_armed (st : state) (ev : event) :
  armed st -> armed (deliver rt config st ev).
Proof.
  intros H. destruct ev; unfold deliver.
  - exact H.
  - destruct (memHandle h (listeners st)); [|exact H].
    apply onData_preserves;
      [ intros ? ? HP; exact HP | intros ? ? HP; exact HP
      | apply processLine_armed | exact H ].
  - revert H. unfold armed. handlers. intros H.
    repeat break; intros; st_simpl_all; try congruence; solve [auto | intuition congruence].
  - revert H. unfold armed. handlers. intros H.
    repeat break; intros; st_simpl_all; try congruence; solve [auto | intuition congruence].
  - revert H. unfold armed. handlers. intros H.
    repeat break; intros; st_simpl_all; try congruence; solve [auto | intuition congruence].
  - revert H. unfold armed. handlers. intros H.
    repeat break; intros; st_simpl_all; try congruence; solve [auto | intuition congruence].
  - revert H. unfold armed. handlers. intros H.
    repeat break; intros; st_simpl_all; try congruence; solve [auto | intuition congruence].
  - revert H. unfold armed. handlers. intros H.
    repeat break; intros; st_simpl_all; try congruence; solve [auto | intuition congruence].
Qed.

Lemma run_armed (evs : list event) : armed (run rt config evs).
Proof.
  unfold run. assert (H : armed (start config)) by (intros _; reflexivity).
  revert H. generalize (start config).
  induction evs as [|ev evs IH]; intros st H; simpl; [exact H|].
  apply IH, deliver_armed, H.
Qed.

Lemma memHandle_head (h : handle) (l : list handle) : memHandle h (h :: l) = true.
Proof. unfold memHandle. simpl. rewrite handle_eqb_refl. reflexivity. Qed.

(** A session that is unresolved when its 25 s timer fires ends as a
    failure that names the host and the port; its socket is destroyed and
    nothing is sent. *)
Theorem timeout_ends_session (evs : list event) :
  let st := run rt config evs in
  resolved st = false ->
  let st' := deliver rt config st EvTimeout in
  endedWith ("Connection timeout after 25 seconds. Check if " ++ hostPort config
             ++ " is correct and accessible.") st st'
  /\ history st' = history st.
Proof.
  intros st Hres st'.
  pose proof (run_armed evs Hres) as Htimer.
  destruct (run_unsettled rt config evs Hres) as [Hset _].
  fold st in Htimer, Hset.
  unfold st', deliver, endedWith, failedWith. rewrite Htimer.
  unfold onTimeout, resolve. st_simpl. rewrite Hres. st_simpl. rewrite Hset. st_simpl.
  rewrite memHandle_head. repeat split; try reflexivity.
  eexists. repeat split; reflexivity.
Qed.

(** A socket error while the session is unresolved ends it as a failure:
    a message holding ETIMEDOUT or ECONNREFUSED is reported as a failure to
    connect to the host and port, one holding EPROTO or "wrong version
    number" as an encryption mismatch, any other as it is. *)
Theorem socket_error_ends_session (evs : list event) (h : handle) (message : string) :
  let st := run rt config evs in
  resolved st = false ->
  memHandle h (listeners st) = true ->
  memHandle h (upgradeErr st) = false ->
  let st' := deliver rt config st (EvError h message) in
  history st' = history st
  /\ endedWith
       (if includes "ETIMEDOUT" message || includes "ECONNREFUSED" message
        then "Cannot connect to " ++ hostPort config ++ ". Check server address and port."
        else if includes "EPROTO" message || includes "wrong version number" message
        then "SSL/TLS mismatch. Try changing encryption setting. SSL = implicit TLS, TLS = StartTLS, None = plain text."
        else message) st st'.
Proof.
  intros st Hres Hl Hu st'.
  destruct (run_unsettled rt config evs Hres) as [Hset _]. fold st in Hset.
  unfold st', deliver, endedWith, failedWith. rewrite Hl, Hu.
  unfold handleError, resolve. st_simpl. rewrite Hres. st_simpl. rewrite Hset. st_simpl.
  rewrite memHandle_head. repeat split; try reflexivity.
  eexists. repeat split; reflexivity.
Qed.

(** A reply that is not +OK to the greeting, to USER or to PASS, and a
    -ERR reply to LIST, end the session as a failure whose message quotes
    the line; nothing is sent in answer. *)
Theorem error_reply_ends_session (evs : list event) (line : string) :
  let st := run rt config evs in
  resolved st = false ->
  let st' := processLine rt config line st in
  (startsWith "+OK" line = false ->
     (currentStep st = step_greeting ->
        endedWith ("Server greeting failed: " ++ line) st st')
     /\ (currentStep st = step_user ->
        endedWith ("Username rejected: " ++ line) st st')
     /\ (currentStep st = step_pass ->
        endedWith ("Authentication failed: " ++ line
                   ++ ". Check username and password.") st st'))
  /\ (startsWith "-ERR" line = true -> currentStep st = step_list ->
      endedWith ("LIST failed: " ++ line) st st')
  /\ (resolved st' = true -> currentStep st <> step_list ->
      history st' = Line line :: history st).
Proof.
  intros st Hres st'.
  destruct (run_unsettled rt config evs Hres) as [Hset _]. fold st in Hset.
  assert (Hend : forall msg,
            endedWith msg st
              (resolve (failure msg
                          (cleanup (clearTimeout (set_resolved true
                             (set_history (Line line :: history st) st)))))
                 (cleanup (clearTimeout (set_resolved true
                    (set_history (Line line :: history st) st)))))).
  { intros msg. unfold endedWith, failedWith, resolve. st_simpl. rewrite Hset.
    st_simpl. rewrite memHandle_head. repeat split; try reflexivity.
    eexists. repeat split; reflexivity. }
  split; [|split].
  - intros Hok. split; [|split]; intros Hstep; unfold st', processLine; st_simpl;
      rewrite Hstep, Hok; apply Hend.
  - intros Herr Hstep. unfold st', processLine. st_simpl. rewrite Hstep.
    destruct (err_line_is_data line Herr) as [Hdot _].
    rewrite (eqb_dot_false line Hdot), Herr. apply Hend.
  - unfold st', processLine, parseEmailFromRaw, resolve. st_simpl.
    repeat break; intros; st_simpl_all; try congruence; solve [auto | intuition congruence].
Qed.

(** Once the session is resolved, data, errors, the closing of the socket
    and the timers of the socket and of the session change nothing but the
    debug log: nothing is sent, no record is added, and the promise keeps
    its state. Only a pending handshake or one of the two closing timers
    can still act. *)
Theorem resolved_session_is_quiet (st : state) (ev : event) :
  resolved st = true ->
  match ev with EvSecure _ | EvDelayed _ => False | _ => True end ->
  let st' := deliver rt config st ev in
  history st' = history st
  /\ emails st' = emails st
  /\ settled st' = settled st
  /\ resolved st' = true
  /\ destroyed st' = destroyed st
  /\ currentStep st' = currentStep st.
Proof.
  intros Hres Hev. destruct ev; try contradiction; cbv zeta; handlers;
    rewrite ?Hres; st_simpl; repeat break; rewrite ?Hres; st_simpl;
    try congruence; auto 10.
Qed.

End Endings.

Lemma timeout_ends_session_witness :
  let st := run Sample.runtime Sample.plainConfig Sample.authenticate in
  history (deliver Sample.runtime Sample.plainConfig st EvTimeout) = history st.
Proof.
  refine (proj2 (timeout_ends_session Sample.runtime Sample.plainConfig
                   Sample.authenticate _)).
  vm_compute. reflexivity.
Defined.

Lemma socket_error_ends_session_witness :
  let st := run Sample.runtime Sample.plainConfig Sample.authenticate in
  history (deliver Sample.runtime Sample.plainConfig st
             (EvError Tcp "read ECONNRESET")) = history st.
Proof.
  refine (proj1 (socket_error_ends_session Sample.runtime Sample.plainConfig
                   Sample.authenticate Tcp "read ECONNRESET" _ _ _));
    vm_compute; reflexivity.
Defined.

Lemma error_reply_ends_session_witness :
  let st := run Sample.runtime Sample.plainConfig
              [EvConnect; EvData Tcp (wire ["+OK POP3 ready"]); EvData Tcp (wire ["+OK"])] in
  endedWith "Authentication failed: -ERR bad password. Check username and password."
    st (processLine Sample.runtime Sample.plainConfig "-ERR bad password" st).
Proof.
  refine (proj2 (proj2 (proj1
            (error_reply_ends_session Sample.runtime Sample.plainConfig
               [EvConnect; EvData Tcp (wire ["+OK POP3 ready"]);
                EvData Tcp (wire ["+OK"])] "-ERR bad password" _) _)) _);
    vm_compute; reflexivity.
Defined.

Lemma resolved_session_is_quiet_witness :
  let st := deliver Sample.runtime Sample.plainConfig
              (run Sample.runtime Sample.plainConfig Sample.authenticate) EvTimeout in
  history (deliver Sample.runtime Sample.plainConfig st
             (EvData Tcp (wire ["+OK 2 messages"; "1 100"; "."])))
  = history st.
Proof.
  refine (proj1 (resolved_session_is_quiet Sample.runtime Sample.plainConfig
                   _ (EvData Tcp (wire ["+OK 2 messages"; "1 100"; "."])) _ I)).
  vm_compute. reflexivity.
Defined.

(** *** What the session keeps true *)

Section Keeps.
Variable rt : Runtime.
Variable config : POP3EmailConfig.

Lemma run_invariant (P : state -> Prop) :
  P (start config) ->
  (forall st ev, P st -> P (deliver rt config st ev)) ->
  forall evs, P (run rt config evs).
Proof.
  intros H0 Hstep evs. unfold run. revert H0. generalize (start config).
  induction evs as [|ev evs IH]; intros st H; simpl; [exact H|].
  apply IH, Hstep, H.
Qed.

Ltac logged_case H :=
  let h := fresh "h" in let w := fresh "w" in let cmd := fresh "cmd" in
  let Hin := fresh "Hin" in
  intros h w cmd Hin; cbn [In] in Hin;
  repeat (destruct Hin as [Hin|Hin];
          [ first [ discriminate Hin
                  | injection Hin as <- <- <-;
                    rewrite ?in_app_iff; cbn [In]; tauto ] | ]);
  apply H in Hin; rewrite ?in_app_iff; tauto.

Lemma processLine_logged (line : string) (st : state) :
  logged st -> logged (processLine rt config line st).
Proof.
  unfold logged, processLine, parseEmailFromRaw, resolve. st_simpl. intros H.
  repeat break; logged_case H.
Qed.

Lemma deliver_logged (st : state) (ev : event) :
  logged st -> logged (deliver rt config st ev).
Proof.
  intros H. destruct ev; unfold deliver.
  - unfold handleConnect. revert H. unfold logged. st_simpl. intros H. logged_case H.
  - destruct (memHandle h (listeners st)); [|exact H].
    apply onData_preserves;
      [ intros ? ? HP; revert HP; unfold logged; st_simpl; intros HP; logged_case HP
      | intros ? ? HP; exact HP
      | apply processLine_logged | exact H ].
  - revert H. unfold logged. handlers. intros H. repeat break; logged_case H.
  - revert H. unfold logged. handlers. intros H. repeat break; logged_case H.
  - revert H. unfold logged. handlers. intros H. repeat break; logged_case H.
  - revert H. unfold logged. handlers. intros H. repeat break; logged_case H.
  - revert H. unfold logged. handlers. intros H. repeat break; logged_case H.
  - revert H. unfold logged. handlers. intros H. repeat break; logged_case H.
Qed.

(** Every command handed to [sendCmd] is in the debug log, unmasked: the
    PASS command stands there with the password. *)
Theorem commands_are_logged (evs : list event) (h : handle) (w : bool) (cmd : string) :
  In (Send h w cmd) (history (run rt config evs)) ->
  In (">>> " ++ cmd) (debugLog (run rt config evs)).
Proof.
  revert h w cmd. change (logged (run rt config evs)).
  apply run_invariant; [intros h w cmd [] | intros st ev; apply deliver_logged].
Qed.

End Keeps.

Section Plain.
Variable rt : Runtime.
Variable config : POP3EmailConfig.
Hypothesis not_starttls : encryption config <> tls.

Ltac plain_in Hp :=
  let h := fresh "h" in let w := fresh "w" in let cmd := fresh "cmd" in
  let Hin := fresh "Hin" in
  intros h w cmd Hin; cbn [In] in Hin;
  repeat (destruct Hin as [Hin|Hin];
          [ first [ discriminate Hin
                  | injection Hin as <- <- <-; split; [assumption | discriminate] ] | ]);
  eapply Hp; exact Hin.

Ltac plain_case Hs Hh Hc Hp :=
  st_simpl_all;
  first [ congruence | contradiction | exfalso; congruence
        | rewrite Hh in *; discriminate
        | split; [assumption | split; [assumption | split; [congruence | plain_in Hp]]] ].

Lemma processLine_plain (line : string) (st : state) :
  neverUpgrades config st -> neverUpgrades config (processLine rt config line st).
Proof.
  unfold neverUpgrades, processLine, parseEmailFromRaw, resolve. st_simpl.
  intros (Hs & Hh & Hc & Hp).
  repeat break; plain_case Hs Hh Hc Hp.
Qed.

Lemma deliver_plain (st : state) (ev : event) :
  neverUpgrades config st -> neverUpgrades config (deliver rt config st ev).
Proof.
  intros H. destruct ev; unfold deliver.
  - exact H.
  - destruct (memHandle h (listeners st)); [|exact H].
    apply onData_preserves;
      [ intros ? ? HP; exact HP | intros ? ? HP; exact HP
      | apply processLine_plain | exact H ].
  - revert H. unfold neverUpgrades. handlers. intros (Hs & Hh & Hc & Hp).
    repeat break; plain_case Hs Hh Hc Hp.
  - revert H. unfold neverUpgrades. handlers. intros (Hs & Hh & Hc & Hp).
    repeat break; plain_case Hs Hh Hc Hp.
  - revert H. unfold neverUpgrades. handlers. intros (Hs & Hh & Hc & Hp).
    repeat break; plain_case Hs Hh Hc Hp.
  - revert H. unfold neverUpgrades. handlers. intros (Hs & Hh & Hc & Hp).
    repeat break; plain_case Hs Hh Hc Hp.
  - revert H. unfold neverUpgrades. handlers. intros (Hs & Hh & Hc & Hp).
    repeat break; plain_case Hs Hh Hc Hp.
  - revert H. unfold neverUpgrades. handlers. intros (Hs & Hh & Hc & Hp).
    repeat break; plain_case Hs Hh Hc Hp.
Qed.

(** Unless the encryption setting is StartTLS, the session keeps the socket
    it was opened with: STLS is never sent, no TLS upgrade is started, and
    every command is addressed to the first socket. *)
Theorem no_upgrade_without_starttls (evs : list event) :
  let st := run rt config evs in
  socket st = firstSocket config
  /\ handshakes st = []
  /\ forall h w cmd, In (Send h w cmd) (history st) ->
                     h = firstSocket config /\ cmd <> "STLS".
Proof.
  cbv zeta.
  assert (H : neverUpgrades config (run rt config evs)).
  { apply run_invariant; [|intros st ev; apply deliver_plain].
    unfold neverUpgrades. simpl. repeat split; try discriminate; contradiction. }
  destruct H as (Hs & Hh & _ & Hp). auto.
Qed.

End Plain.

Lemma answered_cons (x : obs) (l : list obs) : stlsAnswered l -> stlsAnswered (x :: l).
Proof.
  intros (a & line & b & h & w & c & ->). exists (x :: a), line, b, h, w, c. reflexivity.
Qed.

Lemma sent_cons (x : obs) (l : list obs) : stlsSent l -> stlsSent (x :: l).
Proof. intros (b & h & w & c & ->). exists (x :: b), h, w, c. reflexivity. Qed.

Lemma answered_line (line : string) (l : list obs) :
  stlsSent l -> stlsAnswered (Line line :: l).
Proof. intros (b & h & w & c & ->). exists [], line, b, h, w, c. reflexivity. Qed.

Lemma sent_now (h : handle) (w : bool) (l : list obs) : stlsSent (Send h w "STLS" :: l).
Proof. exists [], h, w, l. reflexivity. Qed.

Lemma userAfterStls_split (l a b : list obs) (h : handle) (w : bool) (cmd : string) :
  userAfterStls l -> l = (a ++ Send h w cmd :: b)%list -> isUSER cmd = true ->
  stlsAnswered b.
Proof.
  revert l. induction a as [|x a IH]; intros l Hl -> Hu.
  - simpl in Hl. apply Hl, Hu.
  - apply (IH (a ++ Send h w cmd :: b)%list); [|reflexivity | exact Hu].
    destruct x; simpl in Hl; tauto.
Qed.

Section StartTLS.
Variable rt : Runtime.
Variable config : POP3EmailConfig.
Hypothesis starttls : encryption config = tls.

Ltac tls_case :=
  st_simpl_all; cbn [userAfterStls];
  first
    [ congruence
    | repeat match goal with
             | |- _ /\ _ => split
             | |- True => exact I
             | |- isUSER _ = true -> _ =>
                 let H := fresh in
                 intros H; try (cbv [isUSER] in H; simpl in H; discriminate H)
             | |- _ <> [] -> _ => intros ?
             end;
      eauto using answered_cons, sent_cons, answered_line, sent_now ].

Lemma processLine_tls (line : string) (st : state) :
  startTlsOrder st -> startTlsOrder (processLine rt config line st).
Proof.
  unfold startTlsOrder, processLine, parseEmailFromRaw, resolve. st_simpl.
  intros (Hu & Hb & Hc).
  repeat break; tls_case.
Qed.

Lemma memHandle_nonempty (h : handle) (l : list handle) :
  memHandle h l = true -> l <> [].
Proof. intros H ->. discriminate H. Qed.

Lemma deliver_tls (st : state) (ev : event) :
  startTlsOrder st -> startTlsOrder (deliver rt config st ev).
Proof.
  intros H. destruct ev; unfold deliver.
  - exact H.
  - destruct (memHandle h (listeners st)); [|exact H].
    apply onData_preserves;
      [ intros ? ? HP; exact HP | intros ? ? HP; exact HP
      | apply processLine_tls | exact H ].
  - revert H. unfold startTlsOrder. handlers. intros (Hu & Hb & Hc).
    repeat break; tls_case.
  - revert H. unfold startTlsOrder. handlers. intros (Hu & Hb & Hc).
    repeat break; tls_case.
  - revert H. unfold startTlsOrder. handlers. intros (Hu & Hb & Hc).
    repeat break; tls_case.
  - destruct (memHandle h (handshakes st)) eqn:Hm; [|exact H].
    apply memHandle_nonempty in Hm.
    revert H. unfold startTlsOrder. handlers. intros (Hu & Hb & Hc).
    specialize (Hb Hm). repeat break; tls_case.
  - revert H. unfold startTlsOrder. handlers. intros (Hu & Hb & Hc).
    repeat break; tls_case.
  - revert H. unfold startTlsOrder. handlers. intros (Hu & Hb & Hc).
    repeat break; tls_case.
Qed.

(** With StartTLS the user name is never sent first: before every USER
    command STLS was sent and a reply to it was read. *)
Theorem starttls_comes_before_user (evs : list event) (a b : list obs)
    (h : handle) (w : bool) (cmd : string) :
  history (run rt config evs) = (a ++ Send h w cmd :: b)%list ->
  isUSER cmd = true ->
  stlsAnswered b.
Proof.
  intros Hh Hu.
  assert (H : startTlsOrder (run rt config evs)).
  { apply run_invariant; [|intros st ev; apply deliver_tls].
    unfold startTlsOrder. simpl. repeat split. intros Hn. contradiction. }
  destruct H as (H & _). exact (userAfterStls_split _ a b h w cmd H Hh Hu).
Qed.

End StartTLS.

Lemma commands_are_logged_witness :
  In ">>> PASS secret"
     (debugLog (run Sample.runtime Sample.plainConfig Sample.authenticate)).
Proof.
  refine (commands_are_logged Sample.runtime Sample.plainConfig Sample.authenticate
            Tcp true "PASS secret" _).
  vm_compute. right. right. left. reflexivity.
Defined.

Lemma no_upgrade_without_starttls_witness :
  socket (run Sample.runtime Sample.plainConfig Sample.authenticate) = Tcp.
Proof.
  refine (proj1 (no_upgrade_without_starttls Sample.runtime Sample.plainConfig _
                   Sample.authenticate)).
  discriminate.
Defined.

Lemma starttls_comes_before_user_witness :
  stlsAnswered [Line "-ERR unknown command"; Send Tcp true "STLS"; Line "+OK POP3 ready"].
Proof.
  refine (starttls_comes_before_user Sample.runtime Sample.startTlsConfig eq_refl
            [EvConnect; EvData Tcp (wire ["+OK POP3 ready"]);
             EvData Tcp (wire ["-ERR unknown command"])]
            [] _ Tcp true "USER bob" _ _); vm_compute; reflexivity.
Defined.

(** *** The list of records *)

Section Growing.
Variable rt : Runtime.
Variable config : POP3EmailConfig.
Variable es : list Email.t.

Ltac extends_case H :=
  st_simpl_all;
  first [ exact H
        | destruct H as [more H]; rewrite H; rewrite <- app_assoc; eexists; reflexivity ].

Lemma processLine_extends (line : string) (st : state) :
  extends es st -> extends es (processLine rt config line st).
Proof.
  unfold extends, processLine, parseEmailFromRaw, resolve. st_simpl. intros H.
  repeat break; extends_case H.
Qed.

Lemma deliver_extends (st : state) (ev : event) :
  extends es st -> extends es (deliver rt config st ev).
Proof.
  intros H. destruct ev; unfold deliver.
  - exact H.
  - destruct (memHandle h (listeners st)); [|exact H].
    apply onData_preserves;
      [ intros ? ? HP; exact HP | intros ? ? HP; exact HP
      | apply processLine_extends | exact H ].
  - revert H. unfold extends. handlers. intros H. repeat break; extends_case H.
  - revert H. unfold extends. handlers. intros H. repeat break; extends_case H.
  - revert H. unfold extends. handlers. intros H. repeat break; extends_case H.
  - revert H. unfold extends. handlers. intros H. repeat break; extends_case H.
  - revert H. unfold extends. handlers. intros H. repeat break; extends_case H.
  - revert H. unfold extends. handlers. intros H. repeat break; extends_case H.
Qed.

Lemma runFrom_extends (later : list event) : forall st,
  extends es st -> extends es (runFrom rt config st later).
Proof.
  unfold runFrom. induction later as [|ev later IH]; intros st H; simpl; [exact H|].
  apply IH, deliver_extends, H.
Qed.

End Growing.

(** The session never drops or reorders a record: whatever happens later,
    the records parsed so far stay at the front of the list, in their
    order. *)
Theorem emails_only_grow (rt : Runtime) (config : POP3EmailConfig)
    (evs later : list event) :
  exists more,
    emails (run rt config (evs ++ later)) = (emails (run rt config evs) ++ more)%list.
Proof.
  unfold run, runFrom. rewrite fold_left_app.
  apply (runFrom_extends rt config (emails (fold_left (deliver rt config) evs (start config)))).
  exists []. rewrite app_nil_r. reflexivity.
Qed.

End SessionFacts.
(* ================================================================== *)
(** ** The LIST response *)

Module ListingFacts.
Import JS Regex Mime Pop3 Spec Invariant More Pop3Facts RegexFacts DecoderFacts SessionFacts.

(** *** The lines of a LIST response *)

Section Runs.
Variable f : flags.
Variable X : Type.

Lemma starGreedy_all (cl : cset) (k : cont X) (ds rest : string) :
  forall prev cs x,
  allOf (mem f cl) ds = true ->
  stopsAt f cl rest ->
  k (lastChar prev ds) rest cs = Some x ->
  starGreedy f X cl k prev (ds ++ rest) cs = Some x.
Proof.
  induction ds as [|d ds IH]; intros prev cs x Hall Hstop Hk.
  - simpl in *. destruct rest as [|c rest]; simpl; [exact Hk|].
    simpl in Hstop. rewrite Hstop. exact Hk.
  - simpl in Hall. apply andb_prop in Hall. destruct Hall as [Hd Hall].
    simpl. rewrite Hd. rewrite (IH (Some d) cs x Hall Hstop Hk). reflexivity.
Qed.

Lemma plus_all (cl : cset) (k : cont X) (ds rest : string) (prev : option ascii)
    (cs : caps) (x : X) :
  ds <> "" ->
  allOf (mem f cl) ds = true ->
  stopsAt f cl rest ->
  k (lastChar prev ds) rest cs = Some x ->
  Regex.run f X (Plus cl) k prev (ds ++ rest) cs = Some x.
Proof.
  intros Hne Hall Hstop Hk. destruct ds as [|d ds]; [contradiction|].
  simpl in Hall. apply andb_prop in Hall. destruct Hall as [Hd Hall].
  unfold Plus. cbn [Regex.run append]. rewrite Hd.
  apply starGreedy_all; assumption.
Qed.

Lemma take_app (a b : string) :
  take (String.length (a ++ b) - String.length b) (a ++ b) = a.
Proof.
  rewrite length_append. replace (String.length a + String.length b - String.length b)
    with (String.length a) by lia.
  induction a as [|c a IH]; simpl.
  - destruct b; reflexivity.
  - rewrite IH. reflexivity.
Qed.

Lemma group_plus (i : nat) (cl : cset) (k : cont X) (ds rest : string)
    (prev : option ascii) (cs : caps) (x : X) :
  ds <> "" ->
  allOf (mem f cl) ds = true ->
  stopsAt f cl rest ->
  k (lastChar prev ds) rest ((i, ds) :: cs) = Some x ->
  Regex.run f X (Grp i (Plus cl)) k prev (ds ++ rest) cs = Some x.
Proof.
  intros Hne Hall Hstop Hk. cbn [Regex.run]. apply plus_all; try assumption.
  rewrite take_app. exact Hk.
Qed.

Lemma run_seq (a b : re) (k : cont X) :
  Regex.run f X (Seq a b) k = Regex.run f X a (Regex.run f X b k).
Proof. reflexivity. Qed.

End Runs.

Lemma mem_digit (c : ascii) : mem noFlags (Of [Digit]) c = isDigit c.
Proof. unfold mem, itemMatches. simpl. rewrite !orb_false_r. reflexivity. Qed.

Lemma mem_space (c : ascii) : mem noFlags sp c = isSpace c.
Proof. unfold sp, mem, itemMatches. simpl. rewrite !orb_false_r. reflexivity. Qed.

Lemma allOf_ext (p r : ascii -> bool) (s : string) :
  (forall c, p c = r c) -> allOf p s = allOf r s.
Proof. intros H. induction s as [|c s IH]; simpl; [reflexivity | now rewrite H, IH]. Qed.

Lemma digit_not_space (c : ascii) : isDigit c = true -> isSpace c = false.
Proof. all_chars c; vm_compute; intros H; first [discriminate H | reflexivity]. Qed.

Lemma space_not_digit (c : ascii) : isSpace c = true -> isDigit c = false.
Proof. all_chars c; vm_compute; intros H; first [discriminate H | reflexivity]. Qed.

Lemma digit_not_dot (c : ascii) : isDigit c = true -> Ascii.eqb c "." = false.
Proof. all_chars c; vm_compute; intros H; first [discriminate H | reflexivity]. Qed.

Lemma digit_not_dash (c : ascii) : isDigit c = true -> Ascii.eqb "-" c = false.
Proof. all_chars c; vm_compute; intros H; first [discriminate H | reflexivity]. Qed.

Lemma search_here (f : flags) (r : re) (prev : option ascii) (s : string) (i : nat)
    (rest : string) (cs : caps) :
  matchHere f r prev s = Some (rest, cs) ->
  search f r prev s i
  = Some {| index := i;
            whole := take (String.length s - String.length rest) s;
            groups := cs |}.
Proof. intros H. destruct s; simpl; rewrite H; reflexivity. Qed.

(** [/^(\d+)\s+(\d+)$/] on two runs of digits with white space between. *)
Lemma listLine_match (a gap b : string) :
  a <> "" -> allOf isDigit a = true ->
  gap <> "" -> allOf isSpace gap = true ->
  b <> "" -> allOf isDigit b = true ->
  exists m, exec noFlags reListLine (a ++ gap ++ b) = Some m
            /\ capture1 1 m = a /\ capture1 2 m = b.
Proof.
  intros Ha Da Hg Sg Hb Db.
  assert (Hm : matchHere noFlags reListLine None (a ++ gap ++ b)
               = Some ("", [(2, b); (1, a)])).
  { unfold matchHere, reListLine, cat. cbn [fold_right]. rewrite !run_seq.
    change (Regex.run noFlags _ Bol ?k None ?s ?cs) with (k None s cs).
    apply group_plus; [exact Ha | | |].
    - rewrite (allOf_ext _ isDigit) by apply mem_digit. exact Da.
    - destruct gap as [|c gap]; [contradiction|].
      cbn [allOf] in Sg. unfold stopsAt. cbn [append].
      apply andb_prop in Sg. rewrite mem_digit. apply space_not_digit, Sg.
    - apply plus_all; [exact Hg | | |].
      + rewrite (allOf_ext _ isSpace) by apply mem_space. exact Sg.
      + destruct b as [|c b]; [contradiction|].
        cbn [allOf] in Db. unfold stopsAt. cbn [append].
        apply andb_prop in Db. rewrite mem_space. apply digit_not_space, Db.
      + rewrite <- (append_empty_r b) at 1. apply group_plus; [exact Hb | | exact I |].
        * rewrite (allOf_ext _ isDigit) by apply mem_digit. exact Db.
        * reflexivity. }
  unfold exec. rewrite (search_here _ _ _ _ 0 _ _ Hm).
  eexists. repeat split; reflexivity.
Qed.

Lemma parseDigits_acc (d : Decimal.uint) : forall acc : positive,
  parseDigits (N.pos acc) (NilEmpty.string_of_uint d) = N.pos (Pos.of_uint_acc d acc).
Proof.
  induction d as [|d IH|d IH|d IH|d IH|d IH|d IH|d IH|d IH|d IH|d IH]; intros acc;
    [reflexivity | ..];
    cbn [NilEmpty.string_of_uint parseDigits Pos.of_uint_acc];
    rewrite <- IH; f_equal; vm_compute (code _ - 48)%N; lia.
Qed.

Lemma parseDigits_uint (d : Decimal.uint) :
  parseDigits 0 (NilEmpty.string_of_uint d) = Pos.of_uint d.
Proof.
  induction d as [|d IH|d IH|d IH|d IH|d IH|d IH|d IH|d IH|d IH|d IH];
    [reflexivity | exact IH | ..];
    cbn [NilEmpty.string_of_uint parseDigits Pos.of_uint];
    rewrite <- parseDigits_acc; f_equal.
Qed.

(** [parseInt] reads back what a template literal writes. *)
Lemma parseInt_showN (n : N) : parseInt (showN n) = n.
Proof.
  unfold parseInt, showN, NilZero.string_of_uint.
  destruct (N.to_uint n) eqn:Hd;
    try (rewrite <- Hd, parseDigits_uint; apply DecimalN.Unsigned.of_to).
  destruct n as [|p]; [discriminate Hd|].
  exfalso. revert Hd. apply DecimalPos.Unsigned.to_uint_nonnil.
Qed.

Lemma digits_uint (d : Decimal.uint) : allOf isDigit (NilEmpty.string_of_uint d) = true.
Proof. induction d; simpl; [reflexivity | exact IHd ..]. Qed.

Lemma showN_digits (n : N) : allOf isDigit (showN n) = true.
Proof.
  unfold showN, NilZero.string_of_uint.
  destruct (N.to_uint n) eqn:Hd; try (rewrite <- Hd; apply digits_uint). reflexivity.
Qed.

Lemma showN_nonempty (n : N) : showN n <> "".
Proof.
  unfold showN, NilZero.string_of_uint. destruct (N.to_uint n); discriminate.
Qed.

Section Listing.
Variable rt : Runtime.
Variable config : POP3EmailConfig.

(** A LIST entry in its usual form, two decimal numbers with white space
    between them, is recorded with these two numbers, and nothing is sent
    in answer. The numbers are below 2^53, where [parseInt] is exact. *)
Theorem list_entry_is_recorded (st : state) (n m : N) (gap : string) :
  currentStep st = step_list ->
  (n < 2 ^ 53)%N -> (m < 2 ^ 53)%N ->
  gap <> "" -> allOf isSpace gap = true ->
  let line := showN n ++ gap ++ showN m in
  processLine rt config line st
  = set_emailList (emailList st ++ [{| num := n; size := m |}])
      (set_history (Line line :: history st) st).
Proof.
  intros Hstep _ _ Hg Sg line.
  destruct (listLine_match (showN n) gap (showN m)
              (showN_nonempty n) (showN_digits n) Hg Sg
              (showN_nonempty m) (showN_digits m)) as (r & Hr & H1 & H2).
  fold line in Hr.
  assert (Hd : exists d rest, line = String d rest /\ isDigit d = true).
  { unfold line. pose proof (showN_nonempty n) as Hn. pose proof (showN_digits n) as Dn.
    destruct (showN n) as [|d rest]; [contradiction|].
    exists d, (rest ++ gap ++ showN m). split; [reflexivity|].
    simpl in Dn. apply andb_prop in Dn. tauto. }
  destruct Hd as (d & rest & Hl & Hd).
  unfold processLine. st_simpl. rewrite Hstep, Hr, H1, H2, !parseInt_showN.
  rewrite Hl. cbn [String.eqb startsWith]. rewrite (digit_not_dot d Hd).
  rewrite (digit_not_dash d Hd). reflexivity.
Qed.

Lemma search_anchored (s : string) : forall (c : ascii) (i : nat),
  search noFlags reListLine (Some c) s i = None.
Proof.
  induction s as [|a s IH]; intros c i; [reflexivity|].
  change (search noFlags reListLine (Some c) (String a s) i)
    with (search noFlags reListLine (Some a) s (S i)).
  apply IH.
Qed.

(** A line of the LIST response that does not begin with a digit, such as
    its status line, records nothing and sends nothing, unless it is the
    terminator or begins with -ERR. *)
Theorem list_other_line_is_skipped (st : state) (line : string) :
  currentStep st = step_list ->
  line <> "." ->
  startsWith "-ERR" line = false ->
  match line with "" => True | String c _ => isDigit c = false end ->
  processLine rt config line st = set_history (Line line :: history st) st.
Proof.
  intros Hstep Hdot Herr Hc.
  unfold processLine. st_simpl. rewrite Hstep, (eqb_dot_false line Hdot), Herr.
  assert (Hm : exec noFlags reListLine line = None).
  { unfold exec. destruct line as [|c rest]; [reflexivity|].
    assert (H0 : matchHere noFlags reListLine None (String c rest) = None).
    { unfold matchHere, reListLine, cat. cbn [fold_right]. rewrite !run_seq.
      change (Regex.run noFlags _ Bol ?k None ?s ?cs) with (k None s cs).
      unfold Plus. cbn [Regex.run]. rewrite mem_digit, Hc. reflexivity. }
    change (search noFlags reListLine None (String c rest) 0)
      with (match matchHere noFlags reListLine None (String c rest) with
            | Some (rest', cs) =>
                Some {| index := 0;
                        whole := take (String.length (String c rest) - String.length rest')
                                      (String c rest);
                        groups := cs |}
            | None => search noFlags reListLine (Some c) rest 1
            end).
    rewrite H0. apply search_anchored. }
  rewrite Hm. reflexivity.
Qed.

End Listing.

Lemma list_entry_is_recorded_witness :
  let st := run Sample.runtime Sample.plainConfig Sample.authenticate in
  emailList (processLine Sample.runtime Sample.plainConfig "7  2048" st)
  = [{| num := 7; size := 2048 |}].
Proof.
  intros st.
  pose proof (list_entry_is_recorded Sample.runtime Sample.plainConfig st 7 2048 "  ") as H.
  cbv zeta in H. change (showN 7 ++ "  " ++ showN 2048) with "7  2048" in H.
  rewrite H; [reflexivity | reflexivity | reflexivity | reflexivity | discriminate
             | reflexivity].
Defined.

Lemma list_other_line_is_skipped_witness :
  let st := run Sample.runtime Sample.plainConfig Sample.authenticate in
  emailList (processLine Sample.runtime Sample.plainConfig "+OK 2 messages (320 octets)" st)
  = [].
Proof.
  intros st.
  rewrite (list_other_line_is_skipped Sample.runtime Sample.plainConfig st
             "+OK 2 messages (320 octets)");
    [reflexivity | reflexivity | discriminate | reflexivity | reflexivity].
Defined.

End ListingFacts.

(* ================================================================== *)
(** ** The multipart declaration *)

Module MultipartFacts.
Import JS Regex Mime Spec More MimeFacts RegexFacts DecoderFacts ListingFacts.

Section Found.
Variable X : Type.













End Found.





Section Selection.
Variable rt : Runtime.
Variable rawBody : string.


End Selection.


End MultipartFacts.

(* ================================================================== *)
(** ** The messages retrieved *)

Module RetrievalFacts.
Import JS Regex Mime Pop3 Spec Invariant More Pop3Facts RegexFacts DecoderFacts
  SessionFacts ListingFacts.

Section Selection.
Variable rt : Runtime.
Variable config : POP3EmailConfig.







End Selection.



End RetrievalFacts.
(* ================================================================== *)
(** ** Properties of the store *)

Module StoreFacts.
Import JS Store.

Lemma get_put (k : key) (l : list entry) (s : t) : get k (put k l s) = l.
Proof. destruct k; reflexivity. Qed.

Lemma get_put_other (k k' : key) (l : list entry) (s : t) :
  k' <> k -> get k' (put k l s) = get k' s.
Proof. destruct k, k'; intros H; try reflexivity; contradiction. Qed.

Lemma put_put (k : key) (l l' : list entry) (s : t) : put k l (put k l' s) = put k l s.
Proof. destruct k; reflexivity. Qed.

Lemma put_get (k : key) (s : t) : put k (get k s) s = s.
Proof. destruct k, s; reflexivity. Qed.

Lemma total_put (k : key) (l : list entry) (s : t) :
  total (put k l s) + List.length (get k s) = total s + List.length l.
Proof. destruct k; unfold total; simpl; lia. Qed.

Lemma findIndex_nth (p : entry -> bool) (l : list entry) : forall i,
  findIndex p l = Some i -> exists e, nth_error l i = Some e /\ p e = true.
Proof.
  induction l as [|a l IH]; intros i H; simpl in H; [discriminate|].
  destruct (p a) eqn:Ha.
  - injection H as <-. exists a. split; [reflexivity | exact Ha].
  - destruct (findIndex p l) as [j|]; [|discriminate].
    injection H as <-. apply (IH j eq_refl).
Qed.

Lemma findIndex_find (p : entry -> bool) (l : list entry) :
  find p l = match findIndex p l with Some i => nth_error l i | None => None end.
Proof.
  induction l as [|a l IH]; simpl; [reflexivity|].
  destruct (p a); [reflexivity|]. rewrite IH.
  destruct (findIndex p l); reflexivity.
Qed.

Lemma removeAt_length (l : list entry) : forall i e,
  nth_error l i = Some e -> List.length (removeAt i l) + 1 = List.length l.
Proof.
  induction l as [|a l IH]; intros [|i] e H; simpl in *; try discriminate; [lia|].
  specialize (IH i e H). lia.
Qed.

Lemma updateAt_length (f : entry -> entry) (l : list entry) : forall i,
  List.length (updateAt i f l) = List.length l.
Proof. induction l as [|a l IH]; intros [|i]; simpl; auto. Qed.

Lemma updateAt_twice (f g : entry -> entry) (l : list entry) : forall i,
  updateAt i g (updateAt i f l) = updateAt i (fun e => g (f e)) l.
Proof. induction l as [|a l IH]; intros [|i]; simpl; try reflexivity. now rewrite IH. Qed.

Lemma updateAt_same (f : entry -> entry) (l : list entry) :
  (forall e, f e = e) -> forall i, updateAt i f l = l.
Proof.
  intros Hf. induction l as [|a l IH]; intros [|i]; simpl; try reflexivity.
  - now rewrite Hf.
  - now rewrite IH.
Qed.

Lemma findIndex_updateAt (p : entry -> bool) (f : entry -> entry) (l : list entry) :
  (forall e, p (f e) = p e) -> forall i, findIndex p (updateAt i f l) = findIndex p l.
Proof.
  intros Hf. induction l as [|a l IH]; intros [|i]; simpl; try reflexivity.
  - now rewrite Hf.
  - now rewrite IH.
Qed.

Lemma ids_updateAt (f : entry -> entry) (l : list entry) :
  (forall e, Email.id (mail (f e)) = Email.id (mail e)) ->
  forall i, map (fun e => Email.id (mail e)) (updateAt i f l)
            = map (fun e => Email.id (mail e)) l.
Proof.
  intros Hf. induction l as [|a l IH]; intros [|i]; simpl; try reflexivity.
  - now rewrite Hf.
  - now rewrite IH.
Qed.

Lemma star_back (e : entry) :
  setStarred (negb (Email.starred (mail (setStarred (negb (Email.starred (mail e))) e))))
    (setStarred (negb (Email.starred (mail e))) e) = e.
Proof.
  destruct e as [[i f fe te su bo da re st] fo]. unfold setStarred. simpl.
  rewrite negb_involutive. reflexivity.
Qed.

(** Starring an email twice leaves the store as it was, whatever the
    folder and the identifier are. *)
Theorem star_twice_restores (folderField : option string) (emailId : string) (s : t) :
  fst (star folderField emailId (fst (star folderField emailId s))) = s.
Proof.
  unfold star, assign. destruct (keyOfField folderField) as [k|]; [|reflexivity].
  destruct (findIndex (hasId emailId) (get k s)) as [i|] eqn:Hi; cbn [fst].
  - rewrite get_put, findIndex_updateAt, Hi by reflexivity. cbn [fst].
    rewrite put_put, updateAt_twice, updateAt_same by apply star_back.
    apply put_get.
  - rewrite Hi. reflexivity.
Qed.

Lemma assign_ids (f : entry -> entry) (folderField : option string)
    (emailId : string) (s : t) (k : key) :
  (forall e, Email.id (mail (f e)) = Email.id (mail e)) ->
  map (fun e => Email.id (mail e)) (get k (fst (assign f folderField emailId s)))
  = map (fun e => Email.id (mail e)) (get k s).
Proof.
  intros Hf. unfold assign. destruct (keyOfField folderField) as [k0|]; [|reflexivity].
  destruct (findIndex (hasId emailId) (get k0 s)) as [i|]; [|reflexivity]. cbn [fst].
  destruct k, k0; try reflexivity; simpl; apply ids_updateAt, Hf.
Qed.

(** Marking as read or unread and starring keep the emails of every
    folder in their places: the identifiers of a folder are the same, in
    the same order, whatever the request names. *)
Theorem marks_keep_places (folderField : option string) (emailId : string) (s : t)
    (k : key) :
  let ids := fun s' => map (fun e => Email.id (mail e)) (get k s') in
  ids (fst (mark_read folderField emailId s)) = ids s
  /\ ids (fst (mark_unread folderField emailId s)) = ids s
  /\ ids (fst (star folderField emailId s)) = ids s.
Proof.
  cbv zeta. unfold mark_read, mark_unread, star.
  split; [|split]; apply assign_ids; intros e; reflexivity.
Qed.

Lemma unread_updateAt (l : list entry) : forall i e,
  nth_error l i = Some e ->
  List.length (filter (fun e => negb (Email.read (mail e))) (updateAt i (setRead true) l))
  + (if Email.read (mail e) then 0 else 1)
  = List.length (filter (fun e => negb (Email.read (mail e))) l).
Proof.
  induction l as [|a l IH]; intros [|i] e H; simpl in *; try discriminate.
  - injection H as ->. destruct (Email.read (mail e)); simpl; lia.
  - specialize (IH i e H). destruct (Email.read (mail a)); simpl; lia.
Qed.

(** Marking an email of the inbox as read lowers the unread count of the
    status by one if the email was unread, and leaves it otherwise. *)
Theorem mark_read_lowers_unread (emailId : string) (s : t) :
  n_unread (status (fst (mark_read (Some "inbox") emailId s)))
  + match find (hasId emailId) (inbox s) with
    | Some e => if Email.read (mail e) then 0 else 1
    | None => 0
    end
  = n_unread (status s).
Proof.
  unfold mark_read, assign. rewrite findIndex_find.
  change (keyOfField (Some "inbox")) with (Some Inbox). cbn [get].
  destruct (findIndex (hasId emailId) (inbox s)) as [i|] eqn:Hi; cbn [fst].
  - destruct (findIndex_nth _ _ _ Hi) as (e & He & _). rewrite He.
    unfold status. simpl. apply unread_updateAt, He.
  - lia.
Qed.

(** Deleting an email of a folder other than the trash puts it in front
    of the trash, marked with the folder it came from; the store holds as
    many emails as before. *)
Theorem delete_moves_to_trash (name : string) (k : key) (emailId : string)
    (s : t) (e : entry) :
  keyOf name = Some k -> k <> Trash ->
  find (hasId emailId) (get k s) = Some e ->
  exists s',
    delete (Some name) emailId s = (s', Success (Some "Email moved to trash"))
    /\ trash s' = setFolder name e :: trash s
    /\ List.length (get k s') + 1 = List.length (get k s)
    /\ total s' = total s.
Proof.
  intros Hk Hne He. rewrite findIndex_find in He.
  assert (Hname : isEmpty name = false /\ String.eqb name "trash" = false).
  { unfold keyOf in Hk.
    destruct (String.eqb name "inbox") eqn:E1;
      [apply String.eqb_eq in E1; subst name; split; reflexivity|].
    destruct (String.eqb name "sent") eqn:E2;
      [apply String.eqb_eq in E2; subst name; split; reflexivity|].
    destruct (String.eqb name "drafts") eqn:E3;
      [apply String.eqb_eq in E3; subst name; split; reflexivity|].
    destruct (String.eqb name "spam") eqn:E4;
      [apply String.eqb_eq in E4; subst name; split; reflexivity|].
    destruct (String.eqb name "trash") eqn:E5; [|discriminate].
    injection Hk as <-. contradiction. }
  destruct Hname as [Hn Ht].
  unfold delete. rewrite Hn, Hk.
  destruct (findIndex (hasId emailId) (get k s)) as [i|]; [|discriminate].
  rewrite Ht, He. eexists. split; [reflexivity|].
  pose proof (removeAt_length _ _ _ He) as Hlen.
  split; [|split].
  - destruct k; try contradiction; reflexivity.
  - destruct k; try contradiction; simpl in *; exact Hlen.
  - destruct k; try contradiction; unfold total; simpl in *; lia.
Qed.

(** Deleting an email of the trash removes it for good: the store holds
    one email less, and the other folders are as before. *)
Theorem delete_from_trash_removes (emailId : string) (s : t) (e : entry) :
  find (hasId emailId) (trash s) = Some e ->
  exists s',
    delete (Some "trash") emailId s = (s', Success (Some "Email permanently deleted"))
    /\ total s' + 1 = total s
    /\ forall k, k <> Trash -> get k s' = get k s.
Proof.
  intros He. rewrite findIndex_find in He.
  unfold delete. cbv zeta. cbn [isEmpty].
  change (keyOf "trash") with (Some Trash). cbn [get].
  destruct (findIndex (hasId emailId) (trash s)) as [i|]; [|discriminate].
  change (String.eqb "trash" "trash") with true. cbv iota.
  eexists. split; [reflexivity|].
  pose proof (removeAt_length _ _ _ He) as Hlen. split.
  - unfold total. simpl. lia.
  - intros k Hk. destruct k; try contradiction; reflexivity.
Qed.

(** Moving an email to a folder the store does not have loses it: the
    email has left its folder when the exception is raised, the handler
    answers through its catch clause, and the store holds one email less. *)
Theorem move_to_unknown_folder_loses (name : string) (k : key)
    (targetFolder : option string) (emailId : string) (s : t) (e : entry) :
  keyOf name = Some k ->
  keyOfField targetFolder = None ->
  find (hasId emailId) (get k s) = Some e ->
  exists s',
    move (Some name) targetFolder emailId s = (s', Thrown)
    /\ total s' + 1 = total s
    /\ List.length (get k s') + 1 = List.length (get k s)
    /\ forall k', k' <> k -> get k' s' = get k' s.
Proof.
  intros Hk Ht He. rewrite findIndex_find in He.
  unfold move. change (keyOfField (Some name)) with (keyOf name). rewrite Hk.
  destruct (findIndex (hasId emailId) (get k s)) as [i|]; [|discriminate].
  rewrite He. cbv beta iota zeta.
  exists (put k (removeAt i (get k s)) s).
  split; [destruct targetFolder; [rewrite Ht|]; reflexivity|].
  pose proof (removeAt_length _ _ _ He) as Hlen.
  pose proof (total_put k (removeAt i (get k s)) s) as Htot.
  split; [lia|]. split; [rewrite get_put; exact Hlen|].
  intros k' Hk'. apply get_put_other, Hk'.
Qed.

(** Emptying a folder never touches the inbox, the sent emails or the
    drafts, whatever folder is named. *)
Theorem empty_folder_spares (folderField : option string) (s : t) :
  let s' := fst (empty_folder folderField s) in
  inbox s' = inbox s /\ sent s' = sent s /\ drafts s' = drafts s.
Proof.
  unfold empty_folder. destruct folderField as [name|]; [|simpl; auto].
  destruct (String.eqb name "spam") eqn:E1.
  - apply String.eqb_eq in E1. subst name. simpl. auto.
  - destruct (String.eqb name "trash") eqn:E2; [|simpl; auto].
    apply String.eqb_eq in E2. subst name. simpl. auto.
Qed.

(** Moving an email between two folders of the store puts it in front of
    the target folder as it is; the store holds as many emails as before. *)
Theorem move_keeps_count (name toFolder : string) (k k' : key) (emailId : string)
    (s : t) (e : entry) :
  keyOf name = Some k ->
  keyOf toFolder = Some k' ->
  find (hasId emailId) (get k s) = Some e ->
  exists s',
    move (Some name) (Some toFolder) emailId s
    = (s', Success (Some ("Email moved to " ++ toFolder)))
    /\ hd_error (get k' s') = Some e
    /\ total s' = total s.
Proof.
  intros Hk Hk' He. rewrite findIndex_find in He.
  unfold move. change (keyOfField (Some name)) with (keyOf name). rewrite Hk.
  destruct (findIndex (hasId emailId) (get k s)) as [i|]; [|discriminate].
  rewrite He. cbv beta iota zeta.
  change (keyOfField (Some toFolder)) with (keyOf toFolder). rewrite Hk'.
  eexists. split; [reflexivity|].
  split; [rewrite get_put; reflexivity|].
  pose proof (removeAt_length _ _ _ He) as Hlen.
  pose proof (total_put k (removeAt i (get k s)) s) as H1.
  pose proof (total_put k' (e :: get k' (put k (removeAt i (get k s)) s))
                (put k (removeAt i (get k s)) s)) as H2.
  simpl List.length in H2. lia.
Qed.

Lemma delete_moves_to_trash_witness :
  exists s',
    delete (Some "inbox") "email_2" sampleStore
    = (s', Success (Some "Email moved to trash"))
    /\ trash s' = setFolder "inbox" (sampleEntry "email_2" true) :: trash sampleStore
    /\ List.length (get Inbox s') + 1 = List.length (get Inbox sampleStore)
    /\ total s' = total sampleStore.
Proof.
  apply (delete_moves_to_trash "inbox" Inbox "email_2" sampleStore
           (sampleEntry "email_2" true)); [reflexivity | discriminate | reflexivity].
Defined.

Lemma delete_from_trash_removes_witness :
  exists s',
    delete (Some "trash") "email_3" sampleStore
    = (s', Success (Some "Email permanently deleted"))
    /\ total s' + 1 = total sampleStore
    /\ forall k, k <> Trash -> get k s' = get k sampleStore.
Proof.
  apply (delete_from_trash_removes "email_3" sampleStore (sampleEntry "email_3" true)).
  reflexivity.
Defined.

Lemma move_to_unknown_folder_loses_witness :
  exists s',
    move (Some "inbox") (Some "archive") "email_1" sampleStore = (s', Thrown)
    /\ total s' + 1 = total sampleStore
    /\ List.length (get Inbox s') + 1 = List.length (get Inbox sampleStore)
    /\ forall k', k' <> Inbox -> get k' s' = get k' sampleStore.
Proof.
  apply (move_to_unknown_folder_loses "inbox" Inbox (Some "archive") "email_1"
           sampleStore (sampleEntry "email_1" false)); reflexivity.
Defined.

Lemma move_keeps_count_witness :
  exists s',
    move (Some "inbox") (Some "spam") "email_1" sampleStore
    = (s', Success (Some "Email moved to spam"))
    /\ hd_error (get Spam s') = Some (sampleEntry "email_1" false)
    /\ total s' = total sampleStore.
Proof.
  apply (move_keeps_count "inbox" "spam" Inbox Spam "email_1" sampleStore
           (sampleEntry "email_1" false)); reflexivity.
Defined.

End StoreFacts.
(* ================================================================== *)
(** ** Properties of the connection test *)

Module Pop3TestFacts.
Import JS Pop3 Spec Pop3Test.

Ltac t_simpl :=
  cbn [ Pop3Test.socket Pop3Test.resolved Pop3Test.currentStep Pop3Test.timer
        Pop3Test.settled written Pop3Test.listeners Pop3Test.handshakes
        Pop3Test.sockets Pop3Test.set_socket Pop3Test.set_resolved
        Pop3Test.set_currentStep Pop3Test.set_timer Pop3Test.set_settled
        set_written Pop3Test.set_listeners Pop3Test.set_handshakes
        Pop3Test.set_sockets write Pop3Test.clearTimeout Pop3Test.upgradeToTLS ] in *.

Ltac t_break :=
  match goal with
  | |- context [match ?c with _ => _ end] => destruct c eqn:?
  end; t_simpl.

Ltac t_handlers :=
  unfold Pop3Test.deliver, handleLine, Pop3Test.handleError, Pop3Test.onSecure,
    Pop3Test.onTimeout, Pop3Test.resolve;
  t_simpl.

Section Order.
Variable config : POP3EmailConfig.

Lemma loggedIn_cons (x : handle * string) (w : list (handle * string)) :
  loggedIn config w -> loggedIn config (x :: w).
Proof.
  intros (a & b & h & h' & -> & Hin). exists (x :: a), b, h, h'. split; [reflexivity | exact Hin].
Qed.

Lemma userWritten_cons (x : handle * string) (w : list (handle * string)) :
  userWritten config w -> userWritten config (x :: w).
Proof. intros (h & Hin). exists h. right. exact Hin. Qed.

Lemma loggedIn_now (h : handle) (w : list (handle * string)) :
  userWritten config w -> loggedIn config ((h, passCommand config) :: w).
Proof. intros (h' & Hin). exists [], w, h, h'. split; [reflexivity | exact Hin]. Qed.

Lemma userWritten_now (h : handle) (w : list (handle * string)) :
  userWritten config ((h, userCommand config) :: w).
Proof. exists h. left. reflexivity. Qed.

Ltac order_done :=
  first
    [ congruence
    | repeat match goal with
             | |- _ /\ _ => split
             | |- True => exact I
             | E : Pop3Test.settled _ = _ |- _ => rewrite E
             | |- _ = Some Connected -> _ =>
                 let H := fresh in intros H; try discriminate H
             end;
      eauto using loggedIn_cons, userWritten_cons, loggedIn_now, userWritten_now ].

Lemma handleLine_order (line : string) (st : Pop3Test.state) :
  testOrder config st -> testOrder config (handleLine config line st).
Proof.
  unfold testOrder. t_handlers. intros (Hs & Hc).
  repeat t_break; order_done.
Qed.

Lemma handleData_order (chunk : string) (st : Pop3Test.state) :
  testOrder config st -> testOrder config (handleData config chunk st).
Proof.
  unfold handleData. generalize (split CRLF chunk). intros ls. revert st.
  induction ls as [|l ls IH]; intros st H; simpl; [exact H|].
  apply IH, handleLine_order, H.
Qed.

Lemma deliver_order (st : Pop3Test.state) (ev : Pop3Test.event) :
  testOrder config st -> testOrder config (Pop3Test.deliver config st ev).
Proof.
  intros H. destruct ev; unfold Pop3Test.deliver.
  - destruct (memHandle h (Pop3Test.listeners st)); [|exact H].
    apply handleData_order, H.
  - revert H. unfold testOrder. t_handlers. intros (Hs & Hc). repeat t_break; order_done.
  - revert H. unfold testOrder. t_handlers. intros (Hs & Hc). repeat t_break; order_done.
  - revert H. unfold testOrder. t_handlers. intros (Hs & Hc). repeat t_break; order_done.
Qed.

Lemma test_invariant (P : Pop3Test.state -> Prop) :
  P (Pop3Test.start config) ->
  (forall st ev, P st -> P (Pop3Test.deliver config st ev)) ->
  forall evs, P (Pop3Test.run config evs).
Proof.
  intros H0 Hstep evs. unfold Pop3Test.run. revert H0. generalize (Pop3Test.start config).
  induction evs as [|ev evs IH]; intros st H; simpl; [exact H|].
  apply IH, Hstep, H.
Qed.

(** The connection test reports success only after it has written the
    USER command and, later, the PASS command. *)
Theorem test_success_needs_login (evs : list Pop3Test.event) :
  Pop3Test.settled (Pop3Test.run config evs) = Some Connected ->
  loggedIn config (written (Pop3Test.run config evs)).
Proof.
  assert (H : testOrder config (Pop3Test.run config evs)).
  { apply test_invariant; [|intros st ev; apply deliver_order].
    split; [discriminate | exact I]. }
  apply H.
Qed.

Ltac command_done H :=
  let h := fresh "h" in let text := fresh "text" in let Hin := fresh "Hin" in
  intros h text Hin; cbn [In] in Hin;
  repeat (destruct Hin as [Hin|Hin];
          [ injection Hin as <- <-; unfold testCommand; tauto | ]);
  first [ eapply H; exact Hin | contradiction ].

Lemma handleLine_commands (line : string) (st : Pop3Test.state) :
  (forall h text, In (h, text) (written st) -> testCommand config text) ->
  forall h text, In (h, text) (written (handleLine config line st)) ->
                 testCommand config text.
Proof.
  t_handlers. intros H. repeat t_break; command_done H.
Qed.

Lemma deliver_commands (st : Pop3Test.state) (ev : Pop3Test.event) :
  (forall h text, In (h, text) (written st) -> testCommand config text) ->
  forall h text, In (h, text) (written (Pop3Test.deliver config st ev)) ->
                 testCommand config text.
Proof.
  intros H. destruct ev; unfold Pop3Test.deliver.
  - destruct (memHandle h (Pop3Test.listeners st)); [|exact H].
    unfold handleData. generalize (split CRLF chunk). intros ls. revert st H.
    induction ls as [|l ls IH]; intros st H; simpl; [exact H|].
    apply IH, handleLine_commands, H.
  - revert H. t_handlers. intros H. repeat t_break; command_done H.
  - revert H. t_handlers. intros H. repeat t_break; command_done H.
  - revert H. t_handlers. intros H. repeat t_break; command_done H.
Qed.

(** The connection test writes nothing but STLS, USER, PASS and QUIT: it
    never lists or retrieves. *)
Theorem test_writes_login_commands (evs : list Pop3Test.event) (h : handle)
    (text : string) :
  In (h, text) (written (Pop3Test.run config evs)) -> testCommand config text.
Proof.
  revert h text. apply test_invariant; [intros h text [] | apply deliver_commands].
Qed.

Lemma split_line (line rest : string) : forall cur,
  lineOK line ->
  split_from CRLF 0 cur (line ++ CRLF ++ rest)
  = (cur ++ line) :: split_from CRLF 0 "" rest.
Proof.
  unfold lineOK. induction line as [|c line IH]; intros cur H.
  - rewrite Pop3Facts.append_empty_r. reflexivity.
  - rewrite SessionFacts.indexOf_cons, SessionFacts.startsWith_CRLF in H.
    change (String c line ++ CRLF ++ rest) with (String c (line ++ CRLF ++ rest)).
    cbn [split_from]. rewrite SessionFacts.startsWith_CRLF.
    assert (Hs : Ascii.eqb CR c
                 && match line ++ CRLF ++ rest with
                    | String d _ => Ascii.eqb LF d
                    | "" => false
                    end = false).
    { destruct (Ascii.eqb CR c) eqn:Hc; [|reflexivity]. cbn [andb] in H |- *.
      destruct line as [|d line]; [reflexivity|].
      cbn [append]. destruct (Ascii.eqb LF d); [discriminate H | reflexivity]. }
    rewrite Hs.
    assert (Hl : indexOf CRLF line = None).
    { destruct (Ascii.eqb CR c && match line with
                                  | String d _ => Ascii.eqb LF d
                                  | "" => false
                                  end); [discriminate H|].
      destruct (indexOf CRLF line); [discriminate H | reflexivity]. }
    rewrite (IH _ Hl). rewrite Pop3Facts.append_assoc. reflexivity.
Qed.

Lemma split_wire (lines : list string) (chunk : string) :
  Forall lineOK lines ->
  split CRLF (wire lines ++ chunk) = (lines ++ split CRLF chunk)%list.
Proof.
  unfold split. induction lines as [|l lines IH]; intros H; [reflexivity|].
  inversion H as [|? ? Hl Hls]; subst.
  rewrite SessionFacts.wire_cons, (split_line l _ "" Hl), IH by exact Hls.
  reflexivity.
Qed.

(** A chunk that ends with a line is handled by itself: handling complete
    lines followed by more data is handling the lines, then the data. *)
Theorem test_handles_lines_in_turn (lines : list string) (chunk : string)
    (st : Pop3Test.state) :
  Forall lineOK lines ->
  handleData config (wire lines ++ chunk) st
  = handleData config chunk (handleData config (wire lines) st).
Proof.
  intros H. unfold handleData.
  assert (Hw : split CRLF (wire lines) = (lines ++ split CRLF "")%list).
  { rewrite <- (Pop3Facts.append_empty_r (wire lines)) at 1. apply split_wire, H. }
  rewrite (split_wire lines chunk H), Hw, !fold_left_app. reflexivity.
Qed.

End Order.

Lemma test_success_needs_login_witness :
  loggedIn Sample.plainConfig
    (written (Pop3Test.run Sample.plainConfig
                [Pop3Test.EvData Tcp (wire ["+OK POP3 ready"; "+OK"; "+OK logged in"])])).
Proof.
  apply test_success_needs_login. vm_compute. reflexivity.
Defined.

Lemma test_writes_login_commands_witness :
  testCommand Sample.plainConfig ("USER bob" ++ CRLF).
Proof.
  apply (test_writes_login_commands Sample.plainConfig
           [Pop3Test.EvData Tcp (wire ["+OK POP3 ready"])] Tcp).
  vm_compute. left. reflexivity.
Defined.

Lemma test_handles_lines_in_turn_witness :
  handleData Sample.plainConfig (wire ["+OK POP3 ready"; "+OK"] ++ "+OK logged")
    (Pop3Test.start Sample.plainConfig)
  = handleData Sample.plainConfig "+OK logged"
      (handleData Sample.plainConfig (wire ["+OK POP3 ready"; "+OK"])
         (Pop3Test.start Sample.plainConfig)).
Proof.
  apply test_handles_lines_in_turn. repeat constructor.
Defined.

End Pop3TestFacts.
